(** * VOSK-modular: chunked audio ingest and the transcription job queue

    A shallow embedding of
    - [src/lib/storage/rounds.js] and [lib/storage/rounds.ts] (the rounds store),
    - [src/lib/storage/files.js] and [lib/storage/files.ts] (the two chunk stores),
    - [src/lib/queue/transcription-queue.ts] (job queue, lock file, worker),
    - [app/api/rounds/[roundId]/transcribe/route.ts] (the HTTP trigger),
    - [src/lib/websocket/handler.js] (the per-connection ingest session),
    - the cleanup job and the speaker grouping of [src/unnamed/part_011],
    followed by the vocabulary of the specification and the properties
    proved about the code.

    Conventions.  JavaScript numbers that the code uses as counters and
    sequence numbers are integers ([Z], [nat] for the attempt counter);
    buffers are byte lists; a JSON file is modelled by the value it parses
    to.  Values the code obtains from its environment ([uuidv4()],
    [nowIso()], [process.pid], [process.cwd()], the outcome of the external
    engine) are parameters of the functions that read them.  Asynchronous
    functions are run to completion one after the other; a request that is
    started without being awaited is recorded and run separately. *)

From Stdlib Require Import ZArith Lia Ascii String.
From stdpp Require Import base decidable option list strings gmap pretty sorting.

Local Open Scope Z_scope.

(** Buffers are byte sequences. *)
Abbreviation Buffer := (list Byte.byte).

(** A settled promise: fulfilled with a value or rejected with an
    [Error] carrying a message. *)
Inductive Result (A : Type) : Type :=
| Ok (value : A)
| Err (message : string).
Arguments Ok {A} value.
Arguments Err {A} message.

(* ===================================================================== *)
(** ** Rounds store ([rounds.js], [rounds.ts], [types/round.ts])           *)
(* ===================================================================== *)

Module Rounds.

Inductive RoundStatus :=
| CREATED | RECORDING | STREAMING | PROCESSING | COMPLETED | ERROR.

#[global] Instance RoundStatus_eq_dec : EqDecision RoundStatus.
Proof. solve_decision. Defined.

Record Round := mkRound {
  id : string;
  name : string;
  status : RoundStatus;
  language : option string;
  audio_file : option string;
  transcription_file : option string;
  duration_seconds : option Z;
  speaker_count : option Z
}.

(** [Partial<Round>] as the callers build it.  A key that is present but
    [undefined] (handler.js passes [duration_seconds: finalDuration]) is
    dropped by [JSON.stringify], hence the nested option on that field. *)
Record RoundUpdate := mkRoundUpdate {
  u_status : option RoundStatus;
  u_audio_file : option string;
  u_transcription_file : option string;
  u_duration_seconds : option (option Z);
  u_speaker_count : option Z
}.

Definition override {A} (new old : option A) : option A :=
  match new with Some v => Some v | None => old end.

(** [{ ...rounds[index], ...updates }] *)
Definition merge (r : Round) (u : RoundUpdate) : Round :=
  {| id := id r;
     name := name r;
     status := default (status r) (u_status u);
     language := language r;
     audio_file := override (u_audio_file u) (audio_file r);
     transcription_file := override (u_transcription_file u) (transcription_file r);
     duration_seconds := default (duration_seconds r) (u_duration_seconds u);
     speaker_count := override (u_speaker_count u) (speaker_count r) |}.

(** [rounds.find(r => r.id === roundId) ?? null] *)
Definition getRound (roundId : string) (rounds : list Round) : option Round :=
  snd <$> list_find (λ r, id r = roundId) rounds.

(** [updateRound]: [findIndex], then the merged record is stored at that
    index; a missing round leaves the file alone and yields [null]. *)
Definition updateRound (roundId : string) (u : RoundUpdate) (rounds : list Round)
  : option Round * list Round :=
  match list_find (λ r, id r = roundId) rounds with
  | None => (None, rounds)
  | Some (index, r) => (Some (merge r u), <[index := merge r u]> rounds)
  end.

(** [{ status: s }] *)
Definition only_status (s : RoundStatus) : RoundUpdate :=
  mkRoundUpdate (Some s) None None None None.

(** [createRound]: [rounds.unshift(round)], the new round comes first. *)
Definition createRound (round : Round) (rounds : list Round) : list Round :=
  round :: rounds.

(** [deleteRound] on the rounds file: [findIndex], then
    [rounds.splice(index, 1)]; [false] when no round has the id. *)
Definition deleteRound (roundId : string) (rounds : list Round) : bool * list Round :=
  match list_find (λ r, id r = roundId) rounds with
  | None => (false, rounds)
  | Some (index, _) => (true, delete index rounds)
  end.

End Rounds.

(* ===================================================================== *)
(** ** On-disk layout shared by [files.js] and [files.ts]                  *)
(* ===================================================================== *)

Module Storage.

(** [interface ChunkManifest] *)
Record ChunkManifest := mkManifest {
  roundId : string;
  mimeType : string;
  totalChunks : Z;
  receivedSequences : list Z;
  startTime : Z;
  lastUpdate : Z
}.

(** One directory [data/chunks/<roundId>/]: the chunk files by name and
    [manifest.json] ([None]: absent or not parseable). *)
Record ChunkDir := mkChunkDir {
  entries : gmap string Buffer;
  manifest_json : option ChunkManifest
}.

Inductive Path :=
| ChunkFile (roundId filename : string)
| ManifestFile (roundId : string)
| AudioFile (filename : string).

(** The part of the file system the stores touch.  [write_fails] says for
    which paths [fs.writeFile] rejects (full disk, permissions). *)
Record Disk := mkDisk {
  chunks : gmap string ChunkDir;
  audio : gmap string Buffer;
  transcriptions : gset string;
  write_fails : Path → bool
}.

Definition set_chunks (c : gmap string ChunkDir) (d : Disk) : Disk :=
  {| chunks := c; audio := audio d; transcriptions := transcriptions d;
     write_fails := write_fails d |}.

Definition set_audio (a : gmap string Buffer) (d : Disk) : Disk :=
  {| chunks := chunks d; audio := a; transcriptions := transcriptions d;
     write_fails := write_fails d |}.

Definition set_transcriptions (t : gset string) (d : Disk) : Disk :=
  {| chunks := chunks d; audio := audio d; transcriptions := t;
     write_fails := write_fails d |}.

Fixpoint repeat_char (n : nat) (c : Ascii.ascii) : string :=
  match n with
  | O => EmptyString
  | S n' => String c (repeat_char n' c)
  end.

(** [String.prototype.padStart] with a one-character filler. *)
Definition padStart (targetLength : nat) (c : Ascii.ascii) (s : string) : string :=
  repeat_char (targetLength - String.length s) c +:+ s.

(** [String.prototype.split] on a one-character separator. *)
Fixpoint split (sep : Ascii.ascii) (s : string) : list string :=
  match s with
  | EmptyString => [EmptyString]
  | String c s' =>
      if Ascii.eqb c sep then EmptyString :: split sep s'
      else match split sep s' with
           | [] => [String c EmptyString]
           | h :: t => String c h :: t
           end
  end.

(** [x || fallback] on a possibly undefined string: the empty string is
    falsy as well. *)
Definition or_else (x : option string) (fallback : string) : string :=
  match x with
  | Some s => if String.eqb s "" then fallback else s
  | None => fallback
  end.

(** [sequence.toString().padStart(4, '0') + '.webm'] *)
Definition chunkFileName (sequence : Z) : string :=
  padStart 4 "0"%char (pretty sequence) +:+ ".webm".

(** [mimeType.split('/')[1] || 'webm'] *)
Definition extensionOf (mimeType : string) : string :=
  or_else (split "/"%char mimeType !! 1%nat) "webm".

(** The values [i] takes in [for (let i = 0; i < n; i++)]. *)
Definition range (n : Z) : list Z := seqZ 0 n.

(** [fs.mkdir(chunkDir, { recursive: true })] *)
Definition mkdir_chunkDir (rid : string) (d : Disk) : Disk :=
  match chunks d !! rid with
  | Some _ => d
  | None => set_chunks (<[rid := mkChunkDir ∅ None]> (chunks d)) d
  end.

(** [fs.writeFile] of a chunk file; the directory has to exist. *)
Definition write_chunk (rid filename : string) (buffer : Buffer) (d : Disk)
  : Result unit * Disk :=
  if write_fails d (ChunkFile rid filename) then (Err "EIO", d)
  else match chunks d !! rid with
       | None => (Err "ENOENT", d)
       | Some dir =>
           (Ok tt, set_chunks (<[rid := mkChunkDir (<[filename := buffer]> (entries dir))
                                                   (manifest_json dir)]> (chunks d)) d)
       end.

(** [fs.writeFile(manifestPath, JSON.stringify(manifest, null, 2))] *)
Definition write_manifest (rid : string) (m : ChunkManifest) (d : Disk)
  : Result unit * Disk :=
  if write_fails d (ManifestFile rid) then (Err "EIO", d)
  else match chunks d !! rid with
       | None => (Err "ENOENT", d)
       | Some dir =>
           (Ok tt, set_chunks (<[rid := mkChunkDir (entries dir) (Some m)]> (chunks d)) d)
       end.

(** [fs.writeFile(outputPath, finalBuffer)] into [public/audio]. *)
Definition write_audio (filename : string) (buffer : Buffer) (d : Disk)
  : Result unit * Disk :=
  if write_fails d (AudioFile filename) then (Err "EIO", d)
  else (Ok tt, set_audio (<[filename := buffer]> (audio d)) d).

(** [fs.readFile(chunkFile)] *)
Definition read_chunk (rid filename : string) (d : Disk) : option Buffer :=
  chunks d !! rid ≫= λ dir, entries dir !! filename.

(** [fs.rm(chunkDir, { recursive: true, force: true })] *)
Definition rm_chunkDir (rid : string) (d : Disk) : Disk :=
  set_chunks (delete rid (chunks d)) d.

(** The manifest that [updateChunkManifest] starts from when the file
    cannot be read. *)
Definition fresh_manifest (rid mime : string) (now : Z) : ChunkManifest :=
  {| roundId := rid; mimeType := mime; totalChunks := 0;
     receivedSequences := []; startTime := now; lastUpdate := now |}.

(** [includes], then [push] and [sort((a, b) => a - b)]. *)
Definition add_sequence (sequence : Z) (received : list Z) : list Z :=
  if bool_decide (sequence ∈ received) then received
  else merge_sort Z.le (received ++ [sequence]).

(** [fs.unlink] of a file in [public/audio]. *)
Definition unlink_audio (filename : string) (d : Disk) : Disk :=
  set_audio (delete filename (audio d)) d.

(** [fs.unlink] of [<roundId>_deliberation.json]. *)
Definition unlink_transcription (rid : string) (d : Disk) : Disk :=
  set_transcriptions (transcriptions d ∖ {[rid]}) d.

End Storage.

(* ===================================================================== *)
(** ** The CommonJS chunk store ([lib/storage/files.js])                   *)
(* ===================================================================== *)

Module FilesJs.
Import Storage.

Definition transcriptionExists (rid : string) (d : Disk) : bool :=
  bool_decide (rid ∈ transcriptions d).

Definition ensureChunkDirectory (rid : string) (d : Disk) : Disk :=
  mkdir_chunkDir rid d.

Definition getChunkManifest (rid : string) (d : Disk) : option ChunkManifest :=
  chunks d !! rid ≫= manifest_json.

Definition updateChunkManifest (now : Z) (rid : string) (sequence : Z)
    (mime : string) (d : Disk) : Result unit * Disk :=
  let manifest :=
    match getChunkManifest rid d with
    | Some m => m
    | None => fresh_manifest rid mime now
    end in
  let manifest' :=
    {| roundId := roundId manifest;
       mimeType := mimeType manifest;
       totalChunks := Z.max (totalChunks manifest) (sequence + 1);
       receivedSequences := add_sequence sequence (receivedSequences manifest);
       startTime := startTime manifest;
       lastUpdate := now |} in
  write_manifest rid manifest' d.

Definition saveChunk (now : Z) (rid : string) (sequence : Z) (buffer : Buffer)
    (d : Disk) : Result unit * Disk :=
  let d1 := ensureChunkDirectory rid d in
  match write_chunk rid (chunkFileName sequence) buffer d1 with
  | (Err e, d2) => (Err e, d2)
  | (Ok _, d2) => updateChunkManifest now rid sequence "audio/webm" d2
  end.

(** The read loop of [assembleChunks]: [chunks.push] for every index in
    turn, [throw new Error(`Missing chunk ${i}`)] at the first unreadable
    one. *)
Fixpoint read_loop (rid : string) (d : Disk) (indices : list Z) (acc : list Buffer)
  : Result (list Buffer) :=
  match indices with
  | [] => Ok acc
  | i :: rest =>
      match read_chunk rid (chunkFileName i) d with
      | Some chunkBuffer => read_loop rid d rest (acc ++ [chunkBuffer])
      | None => Err ("Missing chunk " +:+ pretty i)
      end
  end.

Definition assembleChunks (rid : string) (total : Z) (mime : string) (d : Disk)
  : Result string * Disk :=
  let extension := extensionOf mime in
  let output := rid +:+ "." +:+ extension in
  match read_loop rid d (range total) [] with
  | Err e => (Err e, d)
  | Ok bufs =>
      match write_audio output (concat bufs) d with
      | (Err e, d1) => (Err e, d1)
      | (Ok _, d1) => (Ok ("/audio/" +:+ rid +:+ "." +:+ extension), rm_chunkDir rid d1)
      end
  end.

(** [Array.from({ length: expectedTotal }, (_, i) => i)] when there is no
    manifest, otherwise the loop pushing every [i] that [includes]
    rejects. *)
Definition findMissingChunks (rid : string) (expectedTotal : Z) (d : Disk) : list Z :=
  match getChunkManifest rid d with
  | None => range expectedTotal
  | Some manifest =>
      foldl (λ missing i,
               if bool_decide (i ∈ receivedSequences manifest) then missing
               else missing ++ [i])
            [] (range expectedTotal)
  end.

End FilesJs.

(* ===================================================================== *)
(** ** The TypeScript chunk store ([lib/storage/files.ts])                 *)
(* ===================================================================== *)

Module FilesTs.
Import Storage.

(** What [getLogger('storage.files')] is asked to record. *)
Inductive LogLevel := DEBUG | INFO | WARN | ERROR.

Record LogEntry := mkLog { level : LogLevel; text : string }.

Definition transcriptionExists (rid : string) (d : Disk) : bool :=
  bool_decide (rid ∈ transcriptions d).

(** [audioFileExists]: the first of the four extensions whose file is
    there. *)
Fixpoint audioFileExists_loop (rid : string) (d : Disk) (extensions : list string)
  : option string :=
  match extensions with
  | [] => None
  | ext :: rest =>
      match audio d !! (rid +:+ "." +:+ ext) with
      | Some _ => Some ("/audio/" +:+ rid +:+ "." +:+ ext)
      | None => audioFileExists_loop rid d rest
      end
  end.

Definition audioFileExists (rid : string) (d : Disk) : option string :=
  audioFileExists_loop rid d ["webm"; "mp3"; "wav"; "ogg"].

Definition ensureChunkDirectory (rid : string) (d : Disk) : Disk :=
  mkdir_chunkDir rid d.

Definition getChunkManifest (rid : string) (d : Disk) : option ChunkManifest :=
  match chunks d !! rid with
  | Some dir => manifest_json dir
  | None => None
  end.

Definition updateChunkManifest (now : Z) (rid : string) (sequence : Z)
    (mime : string) (d : Disk) : Result unit * Disk :=
  let manifest : ChunkManifest :=
    match chunks d !! rid with
    | Some dir =>
        match manifest_json dir with
        | Some m => m
        | None => fresh_manifest rid mime now
        end
    | None => fresh_manifest rid mime now
    end in
  let received :=
    if bool_decide (sequence ∈ receivedSequences manifest)
    then receivedSequences manifest
    else merge_sort Z.le (receivedSequences manifest ++ [sequence]) in
  write_manifest rid
    (mkManifest (roundId manifest) (mimeType manifest)
                (Z.max (totalChunks manifest) (sequence + 1))
                received (startTime manifest) now) d.

Definition saveChunk (now : Z) (rid : string) (sequence : Z) (buffer : Buffer)
    (d : Disk) : Result unit * Disk * list LogEntry :=
  let chunkDir := ensureChunkDirectory rid d in
  let filename := padStart 4 "0"%char (pretty sequence) +:+ ".webm" in
  match write_chunk rid filename buffer chunkDir with
  | (Err e, d1) => (Err e, d1, [])
  | (Ok _, d1) =>
      let '(r, d2) := updateChunkManifest now rid sequence "audio/webm" d1 in
      (r, d2, [mkLog INFO "Chunk saved"])
  end.

(** The loop of [assembleChunks], counting [i] up from [i] for [n] more
    rounds; a failed read is logged before the error is thrown. *)
Fixpoint read_from (rid : string) (d : Disk) (n : nat) (i : Z) (acc : list Buffer)
  : Result (list Buffer) * list LogEntry :=
  match n with
  | O => (Ok acc, [])
  | S n' =>
      match read_chunk rid (padStart 4 "0"%char (pretty i) +:+ ".webm") d with
      | Some chunkBuffer => read_from rid d n' (i + 1) (acc ++ [chunkBuffer])
      | None => (Err ("Missing chunk " +:+ pretty i), [mkLog ERROR "Failed to read chunk"])
      end
  end.

Definition assembleChunks (rid : string) (total : Z) (mime : string) (d : Disk)
  : Result string * Disk * list LogEntry :=
  let start := [mkLog INFO "Assembling chunks"] in
  let extension := or_else (split "/"%char mime !! 1%nat) "webm" in
  match read_from rid d (Z.to_nat total) 0 [] with
  | (Err e, logs) => (Err e, d, start ++ logs)
  | (Ok bufs, logs) =>
      match write_audio (rid +:+ "." +:+ extension) (concat bufs) d with
      | (Err e, d1) => (Err e, d1, start ++ logs)
      | (Ok _, d1) =>
          (Ok ("/audio/" +:+ rid +:+ "." +:+ extension), rm_chunkDir rid d1,
           start ++ logs ++ [mkLog INFO "Chunks assembled successfully"])
      end
  end.

Fixpoint missing_from (received : list Z) (n : nat) (i : Z) (missing : list Z)
  : list Z :=
  match n with
  | O => missing
  | S n' =>
      if bool_decide (i ∈ received) then missing_from received n' (i + 1) missing
      else missing_from received n' (i + 1) (missing ++ [i])
  end.

Definition findMissingChunks (rid : string) (expectedTotal : Z) (d : Disk) : list Z :=
  match getChunkManifest rid d with
  | None => seqZ 0 expectedTotal
  | Some manifest =>
      missing_from (receivedSequences manifest) (Z.to_nat expectedTotal) 0 []
  end.

(** [saveAudioFile]; the caller passes the extension (['webm'] by
    default). *)
Definition saveAudioFile (rid : string) (buffer : Buffer) (extension : string)
    (d : Disk) : Result string * Disk :=
  let filename := rid +:+ "." +:+ extension in
  match write_audio filename buffer d with
  | (Err e, d1) => (Err e, d1)
  | (Ok _, d1) => (Ok ("/audio/" +:+ filename), d1)
  end.

(** [deleteRoundFiles]: the transcript and the audio file under each of
    the four extensions are unlinked, a failing [unlink] being ignored.
    ([<roundId>_raw.json] lies outside the part of the disk kept here.) *)
Definition deleteRoundFiles (rid : string) (d : Disk) : Disk :=
  foldl (λ d ext, unlink_audio (rid +:+ "." +:+ ext) d)
        (unlink_transcription rid d) ["webm"; "mp3"; "wav"; "ogg"].

End FilesTs.

(* ===================================================================== *)
(** ** Job queue and worker ([src/lib/queue/transcription-queue.ts])       *)
(* ===================================================================== *)

Module Queue.

Definition LOCK_TTL_MS : Z := 10 * 60 * 1000.
Definition POLL_INTERVAL_MS : Z := 2000.
Definition MAX_ATTEMPTS : nat := 3.

Inductive TranscriptionJobStatus := queued | processing | completed | error.

#[global] Instance TranscriptionJobStatus_eq_dec : EqDecision TranscriptionJobStatus.
Proof. solve_decision. Defined.

Inductive JobSource := recording | upload.

Record TranscriptionJob := mkJob {
  id : string;
  roundId : string;
  audioPath : string;
  source : JobSource;
  status : TranscriptionJobStatus;
  attempts : nat;
  createdAt : string;
  updatedAt : string;
  lastError : option string
}.

Record QueueState := mkQueue { jobs : list TranscriptionJob }.

(** Contents of [transcription.lock]: what [JSON.parse] makes of it, or
    something without a usable [startedAt]. *)
Record LockInfo := mkLock { pid : Z; startedAt : Z }.

Inductive LockFile :=
| LockJson (info : LockInfo)
| LockUnreadable.

(** Everything the queue, the routes and the sessions share: the wall
    clock ([Date.now()], in ms), the two files under [data/queue], the
    rounds file and the chunk and audio directories. *)
Record World := mkWorld {
  clock : Z;
  lockFile : option LockFile;
  queueFile : option QueueState;
  rounds : list Rounds.Round;
  disk : Storage.Disk
}.

Definition set_clock (t : Z) (w : World) : World :=
  mkWorld t (lockFile w) (queueFile w) (rounds w) (disk w).

Definition set_lockFile (l : option LockFile) (w : World) : World :=
  mkWorld (clock w) l (queueFile w) (rounds w) (disk w).

Definition set_queueFile (q : option QueueState) (w : World) : World :=
  mkWorld (clock w) (lockFile w) q (rounds w) (disk w).

Definition set_rounds (r : list Rounds.Round) (w : World) : World :=
  mkWorld (clock w) (lockFile w) (queueFile w) r (disk w).

Definition set_disk (d : Storage.Disk) (w : World) : World :=
  mkWorld (clock w) (lockFile w) (queueFile w) (rounds w) d.

(** [updateRound] on the shared rounds file. *)
Definition updateRound (rid : string) (u : Rounds.RoundUpdate) (w : World) : World :=
  set_rounds (Rounds.updateRound rid u (rounds w)).2 w.

(** *** The lock file *)

(** [acquireLock].  [fs.open(LOCK_FILE, 'wx')] succeeds exactly when the
    file is absent.  Otherwise the file is read: a lock whose age exceeds
    the TTL is unlinked and the function calls itself; anything else (a
    younger lock, unreadable contents) yields [false].  The recursion is
    bounded by [fuel]. *)
Fixpoint acquireLock_fuel (fuel : nat) (self now : Z) (lock : option LockFile)
  : option (bool * option LockFile) :=
  match fuel with
  | O => None
  | S fuel' =>
      match lock with
      | None => Some (true, Some (LockJson {| pid := self; startedAt := now |}))
      | Some (LockJson parsed) =>
          if bool_decide (now - startedAt parsed > LOCK_TTL_MS)
          then acquireLock_fuel fuel' self now None
          else Some (false, lock)
      | Some LockUnreadable => Some (false, lock)
      end
  end.

(** Two levels of recursion always suffice (see [acquireLock_fuel_enough]). *)
Definition acquireLock (self : Z) (w : World) : bool * World :=
  match acquireLock_fuel 2 self (clock w) (lockFile w) with
  | Some (got, lock') => (got, set_lockFile lock' w)
  | None => (false, w)
  end.

(** [releaseLock] *)
Definition releaseLock (w : World) : World := set_lockFile None w.

Definition maxRetries : nat := 20.
Definition retryDelayMs : Z := 100.

(** The [for] loop of [withLock] with [remaining] attempts left.  Waiting
    advances the clock by the delay; [finally] releases the lock whether
    [fn] fulfils or rejects. *)
Fixpoint withLock_loop {T} (remaining : nat) (self : Z)
    (fn : World → Result T * World) (w : World) : Result T * World :=
  match remaining with
  | O => (Err "Queue lock timeout.", w)
  | S remaining' =>
      match acquireLock self w with
      | (false, w1) =>
          withLock_loop remaining' self fn (set_clock (clock w1 + retryDelayMs) w1)
      | (true, w1) =>
          let '(r, w2) := fn w1 in (r, releaseLock w2)
      end
  end.

Definition withLock {T} (self : Z) (fn : World → Result T * World) (w : World)
  : Result T * World :=
  withLock_loop maxRetries self fn w.

(** *** The queue document *)

(** [readQueue], with [ensureQueueFile] creating an empty document. *)
Definition readQueue (w : World) : QueueState * World :=
  match queueFile w with
  | Some q => (q, w)
  | None => (mkQueue [], set_queueFile (Some (mkQueue [])) w)
  end.

(** [writeQueue]: temp file, then rename. *)
Definition writeQueue (q : QueueState) (w : World) : World :=
  set_queueFile (Some q) w.

(** Run a critical section given as a function of the document that
    returns its result and, when it calls [writeQueue], the document to
    write. *)
Definition on_queue {T} (cs : QueueState → T * option QueueState) (w : World)
  : Result T * World :=
  let '(queue, w1) := readQueue w in
  match cs queue with
  | (r, Some queue') => (Ok r, writeQueue queue' w1)
  | (r, None) => (Ok r, w1)
  end.

Record EnqueueInput := mkInput {
  in_roundId : string;
  in_audioPath : string;
  in_source : JobSource
}.

(** Critical section of [enqueueTranscriptionJob]. *)
Definition enqueue_cs (uuid now : string) (input : EnqueueInput) (queue : QueueState)
  : TranscriptionJob * option QueueState :=
  match list_find (λ job, roundId job = in_roundId input
                          ∧ (status job = queued ∨ status job = processing))
                  (jobs queue) with
  | Some (_, existing) => (existing, None)
  | None =>
      let job := {| id := uuid;
                    roundId := in_roundId input;
                    audioPath := in_audioPath input;
                    source := in_source input;
                    status := queued;
                    attempts := 0;
                    createdAt := now;
                    updatedAt := now;
                    lastError := None |} in
      (job, Some (mkQueue (jobs queue ++ [job])))
  end.

Definition enqueueTranscriptionJob (self : Z) (uuid now : string)
    (input : EnqueueInput) (w : World) : Result TranscriptionJob * World :=
  withLock self (on_queue (enqueue_cs uuid now input)) w.

(** [Partial<TranscriptionJob>]: the keys a caller may pass, [lastError]
    possibly present but [undefined] (then dropped on serialisation). *)
Record JobUpdate := mkJobUpdate {
  u_status : option TranscriptionJobStatus;
  u_attempts : option nat;
  u_lastError : option (option string)
}.

(** [{ ...queue.jobs[index], ...updates, updatedAt: nowIso() }] *)
Definition merge (job : TranscriptionJob) (u : JobUpdate) (now : string)
  : TranscriptionJob :=
  {| id := id job;
     roundId := roundId job;
     audioPath := audioPath job;
     source := source job;
     status := default (status job) (u_status u);
     attempts := default (attempts job) (u_attempts u);
     createdAt := createdAt job;
     updatedAt := now;
     lastError := default (lastError job) (u_lastError u) |}.

(** Critical section of [updateJob]. *)
Definition updateJob_cs (jobId : string) (u : JobUpdate) (now : string)
    (queue : QueueState) : option TranscriptionJob * option QueueState :=
  match list_find (λ job, id job = jobId) (jobs queue) with
  | None => (None, None)
  | Some (index, job) =>
      let updated := merge job u now in
      (Some updated, Some (mkQueue (<[index := updated]> (jobs queue))))
  end.

Definition updateJob (self : Z) (now : string) (jobId : string) (u : JobUpdate)
    (w : World) : Result (option TranscriptionJob) * World :=
  withLock self (on_queue (updateJob_cs jobId u now)) w.

(** The in-place mutation of [claimNextJob]. *)
Definition claim (now : string) (job : TranscriptionJob) : TranscriptionJob :=
  {| id := id job;
     roundId := roundId job;
     audioPath := audioPath job;
     source := source job;
     status := processing;
     attempts := attempts job + 1;
     createdAt := createdAt job;
     updatedAt := now;
     lastError := lastError job |}.

(** Critical section of [claimNextJob].  [find] yields a reference into
    [queue.jobs], so the mutation lands at the position of the first
    match. *)
Definition claimNextJob_cs (now : string) (queue : QueueState)
  : option TranscriptionJob * option QueueState :=
  match list_find (λ job, status job = queued ∧ (attempts job < MAX_ATTEMPTS)%nat)
                  (jobs queue) with
  | None => (None, None)
  | Some (index, next) =>
      (Some (claim now next), Some (mkQueue (<[index := claim now next]> (jobs queue))))
  end.

Definition claimNextJob (self : Z) (now : string) (w : World)
  : Result (option TranscriptionJob) * World :=
  withLock self (on_queue (claimNextJob_cs now)) w.

(** [job.status = s; job.updatedAt = nowIso()] *)
Definition with_status (s : TranscriptionJobStatus) (now : string)
    (job : TranscriptionJob) : TranscriptionJob :=
  {| id := id job;
     roundId := roundId job;
     audioPath := audioPath job;
     source := source job;
     status := s;
     attempts := attempts job;
     createdAt := createdAt job;
     updatedAt := now;
     lastError := lastError job |}.

(** The loop of [recoverQueue] over [queue.jobs]; [done] is
    [transcriptionExists].  The rounds file is rewritten inside the loop;
    the third component is the [updated] flag. *)
Fixpoint recover_jobs (done : string → bool) (now : string)
    (js : list TranscriptionJob) (rounds : list Rounds.Round) (updated : bool)
  : list TranscriptionJob * list Rounds.Round * bool :=
  match js with
  | [] => ([], rounds, updated)
  | job :: rest =>
      if bool_decide (status job ≠ processing) then
        let '(rest', rounds', updated') := recover_jobs done now rest rounds updated in
        (job :: rest', rounds', updated')
      else if done (roundId job) then
        let rounds1 :=
          (Rounds.updateRound (roundId job) (Rounds.only_status Rounds.COMPLETED) rounds).2 in
        let '(rest', rounds', updated') := recover_jobs done now rest rounds1 true in
        (with_status completed now job :: rest', rounds', updated')
      else if bool_decide (attempts job < MAX_ATTEMPTS)%nat then
        let '(rest', rounds', updated') := recover_jobs done now rest rounds true in
        (with_status queued now job :: rest', rounds', updated')
      else
        let rounds1 :=
          (Rounds.updateRound (roundId job) (Rounds.only_status Rounds.ERROR) rounds).2 in
        let '(rest', rounds', updated') := recover_jobs done now rest rounds1 true in
        (with_status error now job :: rest', rounds', updated')
  end.

(** Critical section of [recoverQueue]: the document to write, if any,
    and the rounds file afterwards. *)
Definition recoverQueue_cs (done : string → bool) (now : string)
    (queue : QueueState) (rounds : list Rounds.Round)
  : option QueueState * list Rounds.Round :=
  let '(js, rounds', updated) := recover_jobs done now (jobs queue) rounds false in
  (if updated then Some (mkQueue js) else None, rounds').

Definition recoverQueue (self : Z) (now : string) (w : World) : Result unit * World :=
  withLock self
    (λ w0,
       let '(queue, w1) := readQueue w0 in
       let '(written, rounds') :=
         recoverQueue_cs (λ rid, FilesTs.transcriptionExists rid (disk w1)) now
                         queue (rounds w1) in
       let w2 := set_rounds rounds' w1 in
       (Ok tt, match written with Some q => writeQueue q w2 | None => w2 end))
    w.

(** *** The worker *)

(** What the [try] block of [processJob] yields up to and including
    [saveTranscription]: the statistics of the stored transcript, or the
    message of whatever was thrown (missing audio, engine, persistence). *)
Inductive EngineOutcome :=
| Transcribed (duration_seconds speaker_count : Z)
| EngineFailed (message : string).

(** [{ status: 'error', lastError: message }] *)
Definition failed_with (message : string) : JobUpdate :=
  mkJobUpdate (Some error) None (Some (Some message)).

(** [{ status: 'completed', lastError: undefined }] *)
Definition finished : JobUpdate :=
  mkJobUpdate (Some completed) None (Some None).

Definition discard {A} (r : Result A) : Result unit :=
  match r with Ok _ => Ok tt | Err e => Err e end.

(** The [catch] block of [processJob]. *)
Definition processJob_catch (self : Z) (now : string) (job : TranscriptionJob)
    (message : string) (w : World) : Result unit * World :=
  let w1 := updateRound (roundId job) (Rounds.only_status Rounds.ERROR) w in
  let '(r, w2) := updateJob self now (id job) (failed_with message) w1 in
  (discard r, w2).

Definition processJob (self : Z) (now : string) (outcome : EngineOutcome)
    (job : TranscriptionJob) (w : World) : Result unit * World :=
  match Rounds.getRound (roundId job) (rounds w) with
  | None =>
      let '(r, w1) := updateJob self now (id job) (failed_with "Round not found") w in
      (discard r, w1)
  | Some _ =>
      match outcome with
      | EngineFailed message => processJob_catch self now job message w
      | Transcribed duration speakers =>
          let d := disk w in
          let w1 := set_disk (Storage.set_transcriptions
                                ({[roundId job]} ∪ Storage.transcriptions d) d) w in
          let w2 := updateRound (roundId job)
                      (Rounds.mkRoundUpdate (Some Rounds.COMPLETED) None
                         (Some (roundId job +:+ "_deliberation.json"))
                         (Some (Some duration)) (Some speakers)) w1 in
          match updateJob self now (id job) finished w2 with
          | (Ok _, w3) => (Ok tt, w3)
          | (Err message, w3) => processJob_catch self now job message w3
          end
      end
  end.

(** Where the task created by [startTranscriptionWorker] stands. *)
Inductive WorkerTask := NotLaunched | Recovering | Polling | Rejected.

(** Module state of one server process: the [workerStarted] flag and the
    worker task. *)
Record Process := mkProcess { workerStarted : bool; task : WorkerTask }.

Definition fresh_process : Process := mkProcess false NotLaunched.

(** Calls of the queue that the worker makes, in the order it makes them. *)
Inductive WorkerEvent :=
| EvRecover (fulfilled : bool)
| EvClaim (claimed : option TranscriptionJob).

(** [startTranscriptionWorker] up to its first [await]: the flag is
    tested and set in one go. *)
Definition start_prefix (p : Process) : Process :=
  if workerStarted p then p else mkProcess true Recovering.

(** [await recoverQueue()]; when it fulfils the loop is launched, when it
    rejects the function rejects with the flag left set. *)
Definition recover_step (self : Z) (now : string) (p : Process) (w : World)
  : Result unit * Process * World :=
  match recoverQueue self now w with
  | (Ok _, w1) => (Ok tt, mkProcess (workerStarted p) Polling, w1)
  | (Err e, w1) => (Err e, mkProcess (workerStarted p) Rejected, w1)
  end.

Definition sleep (ms : Z) (w : World) : World := set_clock (clock w + ms) w.

(** One round of the [while (true)] loop. *)
Definition poll_step (self : Z) (now : string) (outcome : EngineOutcome) (w : World)
  : WorkerEvent * World :=
  match claimNextJob self now w with
  | (Err _, w1) => (EvClaim None, sleep POLL_INTERVAL_MS w1)
  | (Ok None, w1) => (EvClaim None, sleep POLL_INTERVAL_MS w1)
  | (Ok (Some job), w1) =>
      match processJob self now outcome job w1 with
      | (Ok _, w2) => (EvClaim (Some job), w2)
      | (Err _, w2) => (EvClaim (Some job), sleep POLL_INTERVAL_MS w2)
      end
  end.

(** The worker task takes its next step. *)
Definition worker_step (self : Z) (now : string) (outcome : EngineOutcome)
    (p : Process) (w : World) : list WorkerEvent * Process * World :=
  match task p with
  | Recovering =>
      let '(r, p', w') := recover_step self now p w in
      ([EvRecover (match r with Ok _ => true | Err _ => false end)], p', w')
  | Polling =>
      let '(ev, w') := poll_step self now outcome w in ([ev], p, w')
  | NotLaunched | Rejected => ([], p, w)
  end.

(** [startTranscriptionWorker] as its caller awaits it. *)
Definition startTranscriptionWorker (self : Z) (now : string) (p : Process) (w : World)
  : Result unit * Process * World :=
  if workerStarted p then (Ok tt, p, w)
  else recover_step self now (start_prefix p) w.

(** What can happen to the worker of one process: somebody calls
    [startTranscriptionWorker], or the worker task is scheduled. *)
Inductive Action :=
| CallStart
| WorkerRuns (now : string) (outcome : EngineOutcome).

Definition run_action (self : Z) (a : Action) (p : Process) (w : World)
  : list WorkerEvent * Process * World :=
  match a with
  | CallStart => ([], start_prefix p, w)
  | WorkerRuns now outcome => worker_step self now outcome p w
  end.

Fixpoint run_actions (self : Z) (acts : list Action) (p : Process) (w : World)
  : list WorkerEvent * Process * World :=
  match acts with
  | [] => ([], p, w)
  | a :: rest =>
      let '(evs, p1, w1) := run_action self a p w in
      let '(evs', p2, w2) := run_actions self rest p1 w1 in
      (evs ++ evs', p2, w2)
  end.

End Queue.

(* ===================================================================== *)
(** ** HTTP trigger ([app/api/rounds/[roundId]/transcribe/route.ts])       *)
(* ===================================================================== *)

Module TranscribeRoute.

Inductive Response :=
| Queued (roundId jobId : string)
| Failure (httpStatus : Z) (error : string).

(** [audioPath.replace(/^\//, '')] *)
Definition strip_slash (s : string) : string :=
  match s with
  | String "/"%char rest => rest
  | _ => s
  end.

(** [path.join(process.cwd(), 'public', relative)] for segments that need
    no normalisation. *)
Definition public_path (cwd relative : string) : string :=
  cwd +:+ "/public/" +:+ relative.

(** [round.audio_file || await audioFileExists(roundId)] *)
Definition find_audio (round : Rounds.Round) (rid : string) (d : Storage.Disk)
  : option string :=
  match Rounds.audio_file round with
  | Some f => if String.eqb f "" then FilesTs.audioFileExists rid d else Some f
  | None => FilesTs.audioFileExists rid d
  end.

(** The [catch] block of the route. *)
Definition POST_catch (rid message : string) (p : Queue.Process) (w : Queue.World)
  : Response * Queue.Process * Queue.World :=
  (Failure 500 message, p,
   Queue.updateRound rid (Rounds.only_status Rounds.ERROR) w).

Definition POST (self : Z) (cwd uuid now : string) (rid : string)
    (p : Queue.Process) (w : Queue.World)
  : Response * Queue.Process * Queue.World :=
  match Rounds.getRound rid (Queue.rounds w) with
  | None => (Failure 404 "Round not found", p, w)
  | Some round =>
      match find_audio round rid (Queue.disk w) with
      | None =>
          (Failure 404 "Audio file not found. Recording may not have completed yet.", p, w)
      | Some audioPath =>
          let w1 := Queue.updateRound rid
                      (Rounds.mkRoundUpdate (Some Rounds.PROCESSING) (Some audioPath)
                                            None None None) w in
          let fullPath := public_path cwd (strip_slash audioPath) in
          match Queue.enqueueTranscriptionJob self uuid now
                  (Queue.mkInput rid fullPath Queue.recording) w1 with
          | (Err e, w2) => POST_catch rid e p w2
          | (Ok job, w2) =>
              match Queue.startTranscriptionWorker self now p w2 with
              | (Err e, p3, w3) => POST_catch rid e p3 w3
              | (Ok _, p3, w3) => (Queued rid (Queue.id job), p3, w3)
              end
          end
      end
  end.

End TranscribeRoute.

(* ===================================================================== *)
(** ** The ingest session ([lib/websocket/handler.js])                     *)
(* ===================================================================== *)

Module Handler.

(** The [state] object created by [handleConnection]. *)
Record SessionState := mkState {
  sessionId : string;
  roundId : option string;
  lastReceivedSequence : Z;
  expectedSequence : Z;
  totalChunksReceived : Z;
  startTime : Z;
  mimeType : string;
  awaitingChunkData : bool;
  pendingChunkSequence : option Z;
  unexpectedBinaryBuffer : option Buffer
}.

(** Frames the server sends. *)
Inductive ServerMessage :=
| ready (sessionId : string) (lastReceivedSequence : Z)
| ack (sequence : Z)
| missing (sequences : list Z)
| error (message code : string)
| complete (chunkCount : Z) (audioPath : string)
| pong.

(** What the [switch] of [handleMessage] distinguishes in a parsed frame. *)
Inductive ClientMessage :=
| init (roundId : string) (mimeType : option string)
| chunk (sequence : Z)
| completed (totalChunks : Z) (finalDuration : option Z)
| ping
| other.

(** The argument of the ['message'] listener: a [Buffer] or not. *)
Inductive WsData :=
| IsBuffer (b : Buffer)
| NotBuffer (text : string).

(** One connection: the session state together with the effects on the
    socket ([ws.send], [ws.close]) and the requests started without
    awaiting them ([triggerTranscription(roundId)]). *)
Record Session := mkSession {
  state : SessionState;
  outbox : list ServerMessage;
  closed : bool;
  triggered : list string
}.

Definition new_state (sid : string) (now : Z) : SessionState :=
  {| sessionId := sid; roundId := None; lastReceivedSequence := -1;
     expectedSequence := 0; totalChunksReceived := 0; startTime := now;
     mimeType := "audio/webm"; awaitingChunkData := false;
     pendingChunkSequence := None; unexpectedBinaryBuffer := None |}.

Definition send (m : ServerMessage) (s : Session) : Session :=
  mkSession (state s) (outbox s ++ [m]) (closed s) (triggered s).

Definition close (s : Session) : Session :=
  mkSession (state s) (outbox s) true (triggered s).

Definition trigger (rid : string) (s : Session) : Session :=
  mkSession (state s) (outbox s) (closed s) (triggered s ++ [rid]).

Definition set_state (st : SessionState) (s : Session) : Session :=
  mkSession st (outbox s) (closed s) (triggered s).

(** [!state.roundId] *)
Definition initialized (st : SessionState) : option string :=
  match roundId st with
  | Some rid => if String.eqb rid "" then None else Some rid
  | None => None
  end.

Fixpoint trimStart (s : string) : string :=
  match s with
  | String c rest =>
      if (Ascii.eqb c " " || Ascii.eqb c "009" || Ascii.eqb c "010" || Ascii.eqb c "013")%char
      then trimStart rest else s
  | EmptyString => s
  end.

Definition startsWith (c : Ascii.ascii) (s : string) : bool :=
  match s with
  | String c' _ => Ascii.eqb c c'
  | EmptyString => false
  end.

Section WithParser.

(** [JSON.parse] followed by the destructuring of the message. *)
Variable JSON_parse : string → option ClientMessage.

Definition isLikelyJSON (data : WsData) : bool :=
  match data with
  | NotBuffer _ => false
  | IsBuffer b =>
      if bool_decide (length b < 2)%nat then false
      else
        let str := string_of_list_byte b in
        let trimmed := trimStart str in
        if negb (startsWith "{" trimmed) && negb (startsWith "[" trimmed) then false
        else bool_decide (is_Some (JSON_parse str))
  end.

(** [data.toString()] *)
Definition toString (data : WsData) : string :=
  match data with
  | IsBuffer b => string_of_list_byte b
  | NotBuffer text => text
  end.

(** The first branch of [handleMessage]: a buffer while chunk data is
    awaited. *)
Definition handleChunkData (data : Buffer) (s : Session) (w : Queue.World)
  : Session * Queue.World :=
  let st := state s in
  match pendingChunkSequence st with
  | None => (s, w)
  | Some pending =>
      let saved :=
        match roundId st with
        | Some rid => FilesJs.saveChunk (Queue.clock w) rid pending data (Queue.disk w)
        | None => (Err "The path argument must be of type string", Queue.disk w)
        end in
      match saved with
      | (Ok _, d') =>
          let st1 :=
            {| sessionId := sessionId st; roundId := roundId st;
               lastReceivedSequence := pending;
               expectedSequence := expectedSequence st;
               totalChunksReceived := totalChunksReceived st + 1;
               startTime := startTime st; mimeType := mimeType st;
               awaitingChunkData := false;
               pendingChunkSequence := None;
               unexpectedBinaryBuffer := unexpectedBinaryBuffer st |} in
          (set_state st1 (send (ack pending) s), Queue.set_disk d' w)
      | (Err _, d') =>
          (send (error "Failed to save chunk" "CHUNK_SAVE_ERROR") s, Queue.set_disk d' w)
      end
  end.

(** The second branch: a buffer nobody asked for is kept, replacing an
    earlier one. *)
Definition bufferUnexpected (data : Buffer) (s : Session) : Session :=
  let st := state s in
  set_state
    {| sessionId := sessionId st; roundId := roundId st;
       lastReceivedSequence := lastReceivedSequence st;
       expectedSequence := expectedSequence st;
       totalChunksReceived := totalChunksReceived st;
       startTime := startTime st; mimeType := mimeType st;
       awaitingChunkData := awaitingChunkData st;
       pendingChunkSequence := pendingChunkSequence st;
       unexpectedBinaryBuffer := Some data |} s.

Definition handleInit (rid : string) (mime : option string) (s : Session)
    (w : Queue.World) : Session * Queue.World :=
  match Rounds.getRound rid (Queue.rounds w) with
  | None => (close (send (error "Round not found" "ROUND_NOT_FOUND") s), w)
  | Some _ =>
      let st := state s in
      let last :=
        match FilesJs.getChunkManifest rid (Queue.disk w) with
        | Some manifest => foldr Z.max (-1) (Storage.receivedSequences manifest)
        | None => lastReceivedSequence st
        end in
      let expected :=
        match FilesJs.getChunkManifest rid (Queue.disk w) with
        | Some _ => last + 1
        | None => expectedSequence st
        end in
      let st1 :=
        {| sessionId := sessionId st; roundId := Some rid;
           lastReceivedSequence := last;
           expectedSequence := expected;
           totalChunksReceived := totalChunksReceived st;
           startTime := startTime st;
           mimeType := Storage.or_else mime "audio/webm";
           awaitingChunkData := awaitingChunkData st;
           pendingChunkSequence := pendingChunkSequence st;
           unexpectedBinaryBuffer := unexpectedBinaryBuffer st |} in
      let w1 := Queue.updateRound rid (Rounds.only_status Rounds.STREAMING) w in
      (send (ready (sessionId st) last) (set_state st1 s), w1)
  end.

(** [handleChunkMetadata]; [again] is the re-entrant call of
    [handleMessage] on a buffered payload. *)
Definition handleChunkMetadata
    (again : WsData → Session → Queue.World → option (Session * Queue.World))
    (sequence : Z) (s : Session) (w : Queue.World) : option (Session * Queue.World) :=
  let st := state s in
  match initialized st with
  | None => Some (send (error "Session not initialized" "NOT_INITIALIZED") s, w)
  | Some rid =>
      let s1 :=
        if bool_decide (sequence ≠ expectedSequence st) then
          match FilesJs.findMissingChunks rid sequence (Queue.disk w) with
          | [] => s
          | gaps => send (missing gaps) s
          end
        else s in
      let awaiting buffered :=
        {| sessionId := sessionId st; roundId := roundId st;
           lastReceivedSequence := lastReceivedSequence st;
           expectedSequence := sequence + 1;
           totalChunksReceived := totalChunksReceived st;
           startTime := startTime st; mimeType := mimeType st;
           awaitingChunkData := true;
           pendingChunkSequence := Some sequence;
           unexpectedBinaryBuffer := buffered |} in
      match unexpectedBinaryBuffer st with
      | None => Some (set_state (awaiting None) s1, w)
      | Some bufferedData => again (IsBuffer bufferedData) (set_state (awaiting None) s1) w
      end
  end.

Definition handleComplete (total : Z) (finalDuration : option Z) (s : Session)
    (w : Queue.World) : Session * Queue.World :=
  let st := state s in
  match initialized st with
  | None => (send (error "Session not initialized" "NOT_INITIALIZED") s, w)
  | Some rid =>
      match FilesJs.findMissingChunks rid total (Queue.disk w) with
      | _ :: _ as gaps => (send (missing gaps) s, w)
      | [] =>
          match FilesJs.assembleChunks rid total (mimeType st) (Queue.disk w) with
          | (Ok audioPath, d') =>
              let w1 := Queue.set_disk d' w in
              let w2 := Queue.updateRound rid
                          (Rounds.mkRoundUpdate (Some Rounds.PROCESSING) (Some audioPath)
                                                None (Some finalDuration) None) w1 in
              (trigger rid (send (complete total audioPath) s), w2)
          | (Err _, d') =>
              let w1 := Queue.set_disk d' w in
              let w2 := Queue.updateRound rid (Rounds.only_status Rounds.ERROR) w1 in
              (send (error "Failed to assemble audio" "ASSEMBLY_FAILED") s, w2)
          end
      end
  end.

(** [handleMessage]; [fuel] bounds the re-entrant call made through
    [handleChunkMetadata]. *)
Fixpoint handleMessage (fuel : nat) (data : WsData) (s : Session) (w : Queue.World)
  : option (Session * Queue.World) :=
  match fuel with
  | O => None
  | S fuel' =>
      match data with
      | IsBuffer b =>
          if awaitingChunkData (state s) then Some (handleChunkData b s w)
          else Some (bufferUnexpected b s, w)
      | NotBuffer _ =>
          if negb (isLikelyJSON data) then
            Some (send (error "Invalid message format" "INVALID_FORMAT") s, w)
          else
            match JSON_parse (toString data) with
            | Some (init rid mime) => Some (handleInit rid mime s w)
            | Some (chunk sequence) =>
                handleChunkMetadata (handleMessage fuel') sequence s w
            | Some (completed total finalDuration) =>
                Some (handleComplete total finalDuration s w)
            | Some ping => Some (send pong s, w)
            | Some other | None => Some (s, w)
            end
      end
  end.

End WithParser.

(** [triggerTranscription]: the request reaches the route of the same
    server; a response that is not ok is only logged. *)
Definition triggerTranscription (self : Z) (cwd uuid now : string) (rid : string)
    (p : Queue.Process) (w : Queue.World) : Queue.Process * Queue.World :=
  let '(_, p', w') := TranscribeRoute.POST self cwd uuid now rid p w in (p', w').

End Handler.

(* ===================================================================== *)
(** ** Rounds on the shared world ([lib/storage/rounds.ts])                *)
(* ===================================================================== *)

Module RoundsStore.

Definition createRound (round : Rounds.Round) (w : Queue.World)
  : Rounds.Round * Queue.World :=
  (round, Queue.set_rounds (Rounds.createRound round (Queue.rounds w)) w).

(** [deleteRound]: the rounds file is rewritten, then [deleteRoundFiles]
    runs. *)
Definition deleteRound (rid : string) (w : Queue.World) : bool * Queue.World :=
  match Rounds.deleteRound rid (Queue.rounds w) with
  | (false, _) => (false, w)
  | (true, rounds') =>
      (true, Queue.set_disk (FilesTs.deleteRoundFiles rid (Queue.disk w))
                            (Queue.set_rounds rounds' w))
  end.

End RoundsStore.

(* ===================================================================== *)
(** ** Cleanup of orphaned chunks ([src/unnamed/part_011])                 *)
(* ===================================================================== *)

Module Cleanup.

Definition ORPHAN_THRESHOLD_MS : Z := 2 * 60 * 60 * 1000.

(** [interface CleanupResult] *)
Record CleanupResult := mkResult {
  scanned : nat;
  orphaned : nat;
  deleted : nat;
  errors : list string
}.

Definition scanned_incr (r : CleanupResult) : CleanupResult :=
  mkResult (S (scanned r)) (orphaned r) (deleted r) (errors r).

Definition orphaned_incr (r : CleanupResult) : CleanupResult :=
  mkResult (scanned r) (S (orphaned r)) (deleted r) (errors r).

Definition deleted_incr (r : CleanupResult) : CleanupResult :=
  mkResult (scanned r) (orphaned r) (S (deleted r)) (errors r).

(** [result.errors.push(`Failed to process ${roundId}: ${message}`)] *)
Definition errors_push (rid message : string) (r : CleanupResult) : CleanupResult :=
  mkResult (scanned r) (orphaned r) (deleted r)
           (errors r ++ ["Failed to process " +:+ rid +:+ ": " +:+ message]).

(** [fs.readdir(CHUNKS_DIR)] filtered by [isDirectory], in the order in
    which the map lists its keys.  A missing [CHUNKS_DIR] has no
    entries. *)
Definition readdir (d : Storage.Disk) : list string :=
  (map_to_list (Storage.chunks d)).*1.

Section WithRm.

(** The message with which [fs.rm] rejects for the staging directory of
    a round, when it does. *)
Variable rm_error : string → option string.

Definition deleteChunkDirectory (rid : string) (d : Storage.Disk)
  : Result unit * Storage.Disk :=
  match rm_error rid with
  | Some message => (Err message, d)
  | None => (Ok tt, Storage.rm_chunkDir rid d)
  end.

(** [await deleteChunkDirectory(...); result.deleted++], and the [catch]
    of the loop body when the deletion throws. *)
Definition delete_counted (rid : string) (r : CleanupResult) (w : Queue.World)
  : CleanupResult * Queue.World :=
  match deleteChunkDirectory rid (Queue.disk w) with
  | (Ok _, d') => (deleted_incr r, Queue.set_disk d' w)
  | (Err message, d') => (errors_push rid message r, Queue.set_disk d' w)
  end.

(** The body of the loop over the directories.  [Date.now()] is the clock
    of the world, which stands still while the job runs. *)
Definition visit (rid : string) (r : CleanupResult) (w : Queue.World)
  : CleanupResult * Queue.World :=
  let r0 := scanned_incr r in
  match FilesTs.getChunkManifest rid (Queue.disk w) with
  | None => (r0, w)
  | Some manifest =>
      let age := Queue.clock w - Storage.lastUpdate manifest in
      if bool_decide (age < ORPHAN_THRESHOLD_MS) then (r0, w)
      else
        match Rounds.getRound rid (Queue.rounds w) with
        | None => delete_counted rid (orphaned_incr r0) w
        | Some round =>
            if decide (Rounds.status round = Rounds.COMPLETED) then
              delete_counted rid (orphaned_incr r0) w
            else if decide (Rounds.status round = Rounds.STREAMING
                            ∨ Rounds.status round = Rounds.CREATED) then
              let r1 := orphaned_incr r0 in
              let w1 := Queue.updateRound rid (Rounds.only_status Rounds.ERROR) w in
              delete_counted rid r1 w1
            else (r0, w)
        end
  end.

Fixpoint visit_all (directories : list string) (r : CleanupResult) (w : Queue.World)
  : CleanupResult * Queue.World :=
  match directories with
  | [] => (r, w)
  | rid :: rest => let '(r1, w1) := visit rid r w in visit_all rest r1 w1
  end.

Definition cleanupOrphanedChunks (w : Queue.World) : CleanupResult * Queue.World :=
  visit_all (readdir (Queue.disk w)) (mkResult 0 0 0 []) w.

End WithRm.

End Cleanup.

(* ===================================================================== *)
(** ** Speaker grouping ([groupWordsBySpeaker], [src/unnamed/part_011])    *)
(* ===================================================================== *)

Module Deepgram.

(** [interface DeepgramWord] as the grouper reads it: every field may be
    missing.  Times are numbers that the grouper only copies. *)
Record DeepgramWord (Time : Type) := mkWord {
  word : option string;
  start : option Time;
  end_ : option Time;
  speaker : option Z
}.
Arguments mkWord {Time} word start end_ speaker.
Arguments word {Time} d.
Arguments start {Time} d.
Arguments end_ {Time} d.
Arguments speaker {Time} d.

End Deepgram.

Module Grouper.

(** [interface GroupedContribution] *)
Record GroupedContribution (Time : Type) := mkContribution {
  speaker : Z;
  text : string;
  start_time : Time;
  end_time : Time;
  words : nat
}.
Arguments mkContribution {Time} speaker text start_time end_time words.
Arguments speaker {Time} g.
Arguments text {Time} g.
Arguments start_time {Time} g.
Arguments end_time {Time} g.
Arguments words {Time} g.

(** The four [let] variables of the loop. *)
Record Cursor (Time : Type) := mkCursor {
  currentSpeaker : option Z;
  currentWords : list string;
  currentStart : option Time;
  currentEnd : option Time
}.
Arguments mkCursor {Time} currentSpeaker currentWords currentStart currentEnd.
Arguments currentSpeaker {Time} c.
Arguments currentWords {Time} c.
Arguments currentStart {Time} c.
Arguments currentEnd {Time} c.

Section WithNumbers.

(** The numbers of the transcript with their zero, and
    [String.prototype.trim]. *)
Variable Time : Type.
Variable zero : Time.
Variable trim : string → string.

(** The guarded [contributions.push] that closes the current group. *)
Definition flush (cur : Cursor Time) (contributions : list (GroupedContribution Time))
  : list (GroupedContribution Time) :=
  match currentWords cur, currentSpeaker cur, currentStart cur, currentEnd cur with
  | _ :: _, Some currentSpeaker, Some currentStart, Some currentEnd =>
      let contributionText := trim (String.concat " " (currentWords cur)) in
      if String.eqb contributionText "" then contributions
      else contributions
             ++ [mkContribution currentSpeaker contributionText currentStart currentEnd
                                (length (currentWords cur))]
  | _, _, _, _ => contributions
  end.

(** The body of [for (const word of words)]. *)
Definition step (word : Deepgram.DeepgramWord Time)
    (acc : Cursor Time * list (GroupedContribution Time))
  : Cursor Time * list (GroupedContribution Time) :=
  let '(cur, contributions) := acc in
  let wordSpeaker := default 0 (Deepgram.speaker word) in
  let wordText := default "" (Deepgram.word word) in
  let wordStart := default zero (Deepgram.start word) in
  let wordEnd := default zero (Deepgram.end_ word) in
  if decide (currentSpeaker cur ≠ Some wordSpeaker) then
    (mkCursor (Some wordSpeaker) [wordText] (Some wordStart) (Some wordEnd),
     flush cur contributions)
  else
    (mkCursor (currentSpeaker cur) (currentWords cur ++ [wordText]) (currentStart cur)
              (Some wordEnd),
     contributions).

Definition groupWordsBySpeaker (words : list (Deepgram.DeepgramWord Time))
  : list (GroupedContribution Time) :=
  match words with
  | [] => []
  | _ :: _ =>
      let '(cur, contributions) :=
        foldl (λ acc word, step word acc) (mkCursor None [] None None, []) words in
      flush cur contributions
  end.

End WithNumbers.

End Grouper.

(* ===================================================================== *)
(** ** Vocabulary of the specification                                     *)
(* ===================================================================== *)

Module QueueSpec.
Import Queue.

(** A job that still stands for work to do. *)
Definition active (job : TranscriptionJob) : Prop :=
  status job = queued ∨ status job = processing.

Definition active_for (rid : string) (q : QueueState) : list TranscriptionJob :=
  filter (λ job, roundId job = rid ∧ active job) (jobs q).

(** At most one job per round is queued or processing. *)
Definition at_most_one_active (q : QueueState) : Prop :=
  ∀ rid, (length (active_for rid q) ≤ 1)%nat.

Definition attempts_bounded (q : QueueState) : Prop :=
  Forall (λ job, (attempts job ≤ MAX_ATTEMPTS)%nat) (jobs q).

Definition eligible (job : TranscriptionJob) : Prop :=
  status job = queued ∧ (attempts job < MAX_ATTEMPTS)%nat.

(** Position [i] holds the first job that [claimNextJob] may take. *)
Definition first_eligible (q : QueueState) (i : nat) (next : TranscriptionJob) : Prop :=
  jobs q !! i = Some next ∧ eligible next
  ∧ ∀ j x, jobs q !! j = Some x → (j < i)%nat → ¬ eligible x.

(** The document after a critical section that may or may not have
    called [writeQueue]. *)
Definition written (q : QueueState) (o : option QueueState) : QueueState :=
  default q o.

(** The mutations of the queue document that the program performs:
    [enqueueTranscriptionJob], [claimNextJob], [recoverQueue], and the two
    calls of [updateJob] in [processJob]. *)
Inductive QueueOp :=
| OpEnqueue (uuid now : string) (input : EnqueueInput)
| OpClaim (now : string)
| OpRecover (done : string → bool) (now : string) (rounds : list Rounds.Round)
| OpFinish (now jobId : string)
| OpFail (now jobId message : string).

Definition apply_op (op : QueueOp) (q : QueueState) : QueueState :=
  match op with
  | OpEnqueue uuid now input => written q (enqueue_cs uuid now input q).2
  | OpClaim now => written q (claimNextJob_cs now q).2
  | OpRecover done now rounds => written q (recoverQueue_cs done now q rounds).1
  | OpFinish now jobId => written q (updateJob_cs jobId finished now q).2
  | OpFail now jobId message => written q (updateJob_cs jobId (failed_with message) now q).2
  end.

Definition run_ops (ops : list QueueOp) (q : QueueState) : QueueState :=
  foldl (λ q op, apply_op op q) q ops.

(** How one array element may change under an operation. *)
Definition evolves (x y : TranscriptionJob) : Prop :=
  roundId y = roundId x
  ∧ (active y → active x)
  ∧ (attempts y = attempts x
     ∨ (attempts x < MAX_ATTEMPTS ∧ attempts y = attempts x + 1))%nat.

(** What [recoverQueue] does to one job. *)
Definition recover_job (done : string → bool) (now : string) (job : TranscriptionJob)
  : TranscriptionJob :=
  if bool_decide (status job ≠ processing) then job
  else if done (roundId job) then with_status completed now job
  else if bool_decide (attempts job < MAX_ATTEMPTS)%nat then with_status queued now job
  else with_status error now job.

(** A job on which [recoverQueue] rewrites the round [rid]. *)
Definition settles (done : string → bool) (rid : string) (job : TranscriptionJob)
  : Prop :=
  status job = processing ∧ roundId job = rid
  ∧ (done rid = true ∨ ¬ (attempts job < MAX_ATTEMPTS)%nat).

(** The round status that recovery writes for a settled round. *)
Definition settled_status (done : string → bool) (rid : string) : Rounds.RoundStatus :=
  if done rid then Rounds.COMPLETED else Rounds.ERROR.

(** The status under which a round is visible in the rounds file. *)
Definition round_status (rid : string) (rounds : list Rounds.Round)
  : option Rounds.RoundStatus :=
  Rounds.status <$> Rounds.getRound rid rounds.






(** The queue document of a world, empty when the file is not there yet. *)
Definition queue_of (w : World) : QueueState :=
  default (mkQueue []) (queueFile w).

(** A job for the round has been admitted. *)
Definition enqueued (rid : string) (w : World) : Prop :=
  Exists (λ job, roundId job = rid ∧ active job) (jobs (queue_of w)).

(** One visible state as the specification wants it: a round that shows
    anything but [streaming] has its job admitted. *)
Definition streaming_until_enqueued (rid : string) (w : World) : Prop :=
  round_status rid (rounds w) ≠ Some Rounds.STREAMING → enqueued rid w.

(** The update [handleComplete] sends to the rounds store. *)
Definition completion_update (path : string) (finalDuration : option Z)
  : Rounds.RoundUpdate :=
  Rounds.mkRoundUpdate (Some Rounds.PROCESSING) (Some path) None (Some finalDuration) None.

(** The calls by which the program changes the queue document:
    [enqueueTranscriptionJob], [claimNextJob], [recoverQueue] and the two
    calls of [updateJob] that [processJob] makes. *)
Inductive QueueCall :=
| CallEnqueue (uuid now : string) (input : EnqueueInput)
| CallClaim (now : string)
| CallRecover (now : string)
| CallFinish (now jobId : string)
| CallFail (now jobId message : string).

(** The world after process [self] has made a call. *)
Definition perform (self : Z) (c : QueueCall) (w : World) : World :=
  match c with
  | CallEnqueue uuid now input => (enqueueTranscriptionJob self uuid now input w).2
  | CallClaim now => (claimNextJob self now w).2
  | CallRecover now => (recoverQueue self now w).2
  | CallFinish now jobId => (updateJob self now jobId finished w).2
  | CallFail now jobId message => (updateJob self now jobId (failed_with message) w).2
  end.

Definition perform_all (self : Z) (calls : list QueueCall) (w : World) : World :=
  foldl (λ w c, perform self c w) w calls.

(** The mutation of the document that a call amounts to in world [w]. *)
Definition op_of (c : QueueCall) (w : World) : QueueOp :=
  match c with
  | CallEnqueue uuid now input => OpEnqueue uuid now input
  | CallClaim now => OpClaim now
  | CallRecover now =>
      OpRecover (λ rid, FilesTs.transcriptionExists rid (disk w)) now (rounds w)
  | CallFinish now jobId => OpFinish now jobId
  | CallFail now jobId message => OpFail now jobId message
  end.

(** The operations that are not one of the two calls of [updateJob]. *)
Definition keeps_finished (op : QueueOp) : Prop :=
  match op with
  | OpEnqueue _ _ _ | OpClaim _ | OpRecover _ _ _ => True
  | OpFinish _ _ | OpFail _ _ _ => False
  end.

End QueueSpec.

Module StoreSpec.
Import Storage.

(** The received set of a round: what the manifest lists, nothing when
    there is no manifest. *)
Definition received (rid : string) (d : Disk) : list Z :=
  match FilesJs.getChunkManifest rid d with
  | Some m => receivedSequences m
  | None => []
  end.

(** The bytes stored for chunk [i] of a round. *)
Definition chunk_bytes (rid : string) (d : Disk) (i : Z) : Buffer :=
  default [] (read_chunk rid (chunkFileName i) d).

Definition chunk_present (rid : string) (d : Disk) (i : Z) : Prop :=
  is_Some (read_chunk rid (chunkFileName i) d).

#[global] Instance chunk_present_dec rid d i : Decision (chunk_present rid d i) :=
  is_Some_dec (read_chunk rid (chunkFileName i) d).

(** [saveChunk] of [files.ts] applied to a series of deliveries (time of
    arrival, sequence, payload), stopping at the first failure. *)
Fixpoint save_all (rid : string) (deliveries : list (Z * Z * Buffer)) (d : Disk)
  : Result unit * Disk :=
  match deliveries with
  | [] => (Ok tt, d)
  | (now, sequence, buffer) :: rest =>
      match FilesTs.saveChunk now rid sequence buffer d with
      | (Ok _, d1, _) => save_all rid rest d1
      | (Err e, d1, _) => (Err e, d1)
      end
  end.

Definition sequence_of (delivery : Z * Z * Buffer) : Z := delivery.1.2.

(** No write is refused. *)
Definition writable (d : Disk) : Prop := ∀ p, write_fails d p = false.

(** The name of a chunk file without its leading zeros: what remains
    of the decimal numeral after [padStart] is undone. *)
Fixpoint strip_zeros (s : string) : string :=
  match s with
  | String "0"%char rest => strip_zeros rest
  | _ => s
  end.

(** The payload that the last delivery of sequence [i] carried. *)
Fixpoint last_payload (deliveries : list (Z * Z * Buffer)) (i : Z) : option Buffer :=
  match deliveries with
  | [] => None
  | (_, sequence, buffer) :: rest =>
      match last_payload rest i with
      | Some later => Some later
      | None => if decide (sequence = i) then Some buffer else None
      end
  end.

(** A manifest as [updateChunkManifest] keeps it: the received sequences
    ascending without repetition, each below [totalChunks]. *)
Definition manifest_ok (m : ChunkManifest) : Prop :=
  StronglySorted Z.lt (receivedSequences m)
  ∧ Forall (λ x, x < totalChunks m) (receivedSequences m).

(** The last character of a file name. *)
Fixpoint last_char (s : string) : option Ascii.ascii :=
  match s with
  | EmptyString => None
  | String c EmptyString => Some c
  | String _ rest => last_char rest
  end.

(** The extensions under which [audioFileExists] and [deleteRoundFiles]
    look for the audio of a round. *)
Definition known_extensions : list string := ["webm"; "mp3"; "wav"; "ogg"].

End StoreSpec.

Module CleanupSpec.
Import Queue.

(** A staging directory that the cleanup takes for orphaned: its manifest
    was last updated two hours ago or earlier, and its round is gone,
    completed, or still streaming or created. *)
Definition orphan (w : World) (rid : string) : Prop :=
  ∃ manifest,
    FilesTs.getChunkManifest rid (disk w) = Some manifest
    ∧ Cleanup.ORPHAN_THRESHOLD_MS ≤ clock w - Storage.lastUpdate manifest
    ∧ match Rounds.getRound rid (rounds w) with
      | None => True
      | Some round =>
          Rounds.status round = Rounds.COMPLETED
          ∨ Rounds.status round = Rounds.STREAMING
          ∨ Rounds.status round = Rounds.CREATED
      end.

(** A round that the cleanup writes off: orphaned while streaming or
    created. *)
Definition stale (w : World) (rid : string) : Prop :=
  orphan w rid
  ∧ ∃ round, Rounds.getRound rid (rounds w) = Some round
             ∧ (Rounds.status round = Rounds.STREAMING
                ∨ Rounds.status round = Rounds.CREATED).

(** [fs.rm] never fails. *)
Definition rm_works : string → option string := λ _, None.

End CleanupSpec.

Module GrouperSpec.
Import Deepgram.

Section WithNumbers.

Variable Time : Type.
Variable zero : Time.
Variable trim : string → string.

Definition speaker_of (w : DeepgramWord Time) : Z := default 0 (speaker w).

(** The words split into maximal runs of one speaker; [current] is the
    run being read, never empty. *)
Fixpoint runs_from (current : list (DeepgramWord Time)) (ws : list (DeepgramWord Time))
  : list (list (DeepgramWord Time)) :=
  match ws with
  | [] => [current]
  | w :: rest =>
      if decide (speaker_of <$> head current = Some (speaker_of w))
      then runs_from (current ++ [w]) rest
      else current :: runs_from [w] rest
  end.

Definition runs (ws : list (DeepgramWord Time)) : list (list (DeepgramWord Time)) :=
  match ws with
  | [] => []
  | w :: rest => runs_from [w] rest
  end.

(** The contribution that a run of words gives, when its text is not
    blank: speaker and start of its first word, end of its last word. *)
Definition contribution (run : list (DeepgramWord Time))
  : option (Grouper.GroupedContribution Time) :=
  match run with
  | [] => None
  | first :: _ =>
      let spoken := trim (String.concat " " ((λ w, default "" (word w)) <$> run)) in
      if String.eqb spoken "" then None
      else Some (Grouper.mkContribution (speaker_of first) spoken
                   (default zero (start first))
                   (default zero (end_ (List.last run first)))
                   (length run))
  end.

(** The loop variables of the grouper while the run that starts with
    [first] is being read. *)
Definition cursor_of (first : DeepgramWord Time) (run : list (DeepgramWord Time))
  : Grouper.Cursor Time :=
  Grouper.mkCursor (Some (speaker_of first))
                   ((λ w, default "" (word w)) <$> run)
                   (Some (default zero (start first)))
                   (Some (default zero (end_ (List.last run first)))).

End WithNumbers.

End GrouperSpec.

(** Concrete data for the examples. *)
Module Samples.

Definition sample_job (rid : string) (s : Queue.TranscriptionJobStatus) (n : nat)
  : Queue.TranscriptionJob :=
  Queue.mkJob ("job-" +:+ rid) rid ("/srv/public/audio/" +:+ rid +:+ ".webm")
              Queue.recording s n "t0" "t0" None.

Definition sample_round (rid : string) (s : Rounds.RoundStatus) : Rounds.Round :=
  Rounds.mkRound rid "standup" s None None None None None.

Definition empty_disk : Storage.Disk :=
  Storage.mkDisk ∅ ∅ ∅ (λ _, false).

(** A disk on which every write is refused. *)
Definition full_disk : Storage.Disk :=
  Storage.mkDisk ∅ ∅ ∅ (λ _, true).

Definition sample_world (rid : string) (d : Storage.Disk) : Queue.World :=
  Queue.mkWorld 1000 None (Some (Queue.mkQueue []))
                [sample_round rid Rounds.STREAMING] d.

(** A world whose lock file was written at [startedAt]. *)
Definition locked_world (now startedAt : Z) : Queue.World :=
  Queue.mkWorld now (Some (Queue.LockJson (Queue.mkLock 7 startedAt)))
                (Some (Queue.mkQueue [])) [] empty_disk.

Definition payload (c : Byte.byte) : Buffer := [c].

Definition deliveries_0_2_1 : list (Z * Z * Buffer) :=
  [(1, 0, payload Byte.x41); (2, 2, payload Byte.x43); (3, 1, payload Byte.x42)].

(** Chunks 0, 2, 1 of round R delivered in that order. *)
Definition three_chunks : Storage.Disk :=
  (StoreSpec.save_all "R" deliveries_0_2_1 empty_disk).2.

(** Chunks 0 and 2 only. *)
Definition gap_at_1 : Storage.Disk :=
  (StoreSpec.save_all "R" [(1, 0, payload Byte.x41); (2, 2, payload Byte.x43)]
                      empty_disk).2.

Definition assembled : Storage.Disk :=
  Storage.mkDisk ∅ {["R.webm" := [Byte.x41; Byte.x42; Byte.x43]]} ∅ (λ _, false).

Definition session_for (rid : string) (awaiting : bool) (pending : option Z)
  : Handler.Session :=
  Handler.mkSession
    (Handler.mkState "session_1" (Some rid) (-1) 0 0 0 "audio/webm" awaiting pending None)
    [] false [].

Definition no_parser : string → option Handler.ClientMessage := λ _, None.

(** The handlers for a chunk's metadata and then its payload. *)
Definition deliver (sequence : Z) (data : Buffer) (sw : Handler.Session * Queue.World)
  : option (Handler.Session * Queue.World) :=
  match Handler.handleChunkMetadata (Handler.handleMessage no_parser 1)
                                    sequence sw.1 sw.2 with
  | Some (s1, w1) => Handler.handleMessage no_parser 1 (Handler.IsBuffer data) s1 w1
  | None => None
  end.

(** The handlers run in the order of a session that delivers chunk 0,
    chunk 2, chunk 1 and then completes with three chunks. *)
Definition out_of_order_session : option (Handler.Session * Queue.World) :=
  let opened :=
    Handler.handleInit "R" (Some "audio/webm")
      (Handler.mkSession (Handler.new_state "session_1" 0) [] false [])
      (sample_world "R" empty_disk) in
  match deliver 0 (payload Byte.x41) opened with
  | None => None
  | Some sw0 =>
      match deliver 2 (payload Byte.x43) sw0 with
      | None => None
      | Some sw2 =>
          match deliver 1 (payload Byte.x42) sw2 with
          | None => None
          | Some sw1 => Some (Handler.handleComplete 3 None sw1.1 sw1.2)
          end
      end
  end.

(** Round R, still streaming, whose chunks 0 and 2 were stored more than
    two hours ago. *)
Definition abandoned_world : Queue.World :=
  Queue.set_clock 8000000 (sample_world "R" gap_at_1).

End Samples.

(* ===================================================================== *)
(** ** Properties of the job queue                                         *)
(* ===================================================================== *)

Section QueueProperties.
Import Queue QueueSpec Samples.

(** *** The shape of every operation *)

Lemma evolves_refl x : evolves x x.
Proof. unfold evolves; auto. Qed.

Lemma Forall2_evolves_refl l : Forall2 evolves l l.
Proof. induction l; constructor; auto using evolves_refl. Qed.

Lemma Forall2_evolves_insert l i x y :
  l !! i = Some x → evolves x y → Forall2 evolves l (<[i := y]> l).
Proof.
  revert i. induction l as [|a l IH]; intros [|i] Hi Hev; simplify_eq/=.
  - constructor; auto using Forall2_evolves_refl.
  - constructor; auto using evolves_refl.
Qed.

Lemma Forall2_evolves_fmap (f : TranscriptionJob → TranscriptionJob) l :
  (∀ x, evolves x (f x)) → Forall2 evolves l (f <$> l).
Proof. intros H. induction l; constructor; auto. Qed.

Lemma recover_jobs_map done now js rounds upd :
  (recover_jobs done now js rounds upd).1.1 = recover_job done now <$> js.
Proof.
  revert rounds upd. induction js as [|job rest IH]; intros rounds upd; [done|].
  rewrite fmap_cons. cbn [recover_jobs]. unfold recover_job at 1.
  repeat case_match; simplify_eq/=; f_equal;
    match goal with H : recover_jobs _ _ _ ?r ?u = _ |- _ =>
      specialize (IH r u); rewrite H in IH; exact IH end.
Qed.

Lemma evolves_recover done now job : evolves job (recover_job done now job).
Proof.
  unfold recover_job, evolves, active.
  repeat case_bool_decide; repeat case_match; simpl; try tauto.
  all: destruct (status job); naive_solver.
Qed.

Lemma evolves_merge_terminal job u now :
  u_attempts u = None → (u_status u = Some completed ∨ u_status u = Some error) →
  evolves job (merge job u now).
Proof.
  intros Ha Hs. unfold evolves, merge, active. simpl. rewrite Ha. simpl.
  split; [done|]. split; [|by left].
  destruct Hs as [->| ->]; simpl; intros [?|?]; done.
Qed.

Lemma updateJob_cs_evolves jobId u now q :
  u_attempts u = None → (u_status u = Some completed ∨ u_status u = Some error) →
  Forall2 evolves (jobs q) (jobs (written q (updateJob_cs jobId u now q).2)).
Proof.
  intros Ha Hs. unfold updateJob_cs, written.
  destruct (list_find _ (jobs q)) as [[i job]|] eqn:Hf; simpl.
  - apply list_find_Some in Hf as (Hi & _ & _).
    eapply Forall2_evolves_insert; [done|]. by apply evolves_merge_terminal.
  - apply Forall2_evolves_refl.
Qed.

(** The old elements evolve in place and at most one fresh job is
    appended. *)
Lemma apply_op_shape op q :
  ∃ l' extra,
    jobs (apply_op op q) = l' ++ extra
    ∧ Forall2 evolves (jobs q) l'
    ∧ (extra = []
       ∨ ∃ job, extra = [job] ∧ status job = queued ∧ attempts job = 0%nat
                ∧ ∀ x, x ∈ jobs q → roundId x = roundId job → ¬ active x).
Proof.
  destruct op as [uuid now input|now|done now rounds|now jobId|now jobId message];
    unfold apply_op.
  - unfold enqueue_cs, written.
    destruct (list_find _ (jobs q)) as [[i existing]|] eqn:Hf; simpl.
    + exists (jobs q), []. rewrite app_nil_r. auto using Forall2_evolves_refl.
    + eexists (jobs q), [_]. split; [done|]. split; [apply Forall2_evolves_refl|].
      right. eexists; split; [done|]. simpl. do 2 (split; [done|]).
      intros x Hx Hr Ha. apply list_find_None in Hf.
      rewrite Forall_forall in Hf. apply (Hf x Hx). auto.
  - unfold claimNextJob_cs, written.
    destruct (list_find _ (jobs q)) as [[i next]|] eqn:Hf; simpl.
    + apply list_find_Some in Hf as (Hi & [Hs Ha] & _).
      eexists _, []. rewrite app_nil_r. split; [done|]. split; [|by left].
      eapply Forall2_evolves_insert; [done|].
      unfold evolves, claim, active; simpl. split; [done|]. split; [auto|].
      right. unfold MAX_ATTEMPTS in *. lia.
    + exists (jobs q), []. rewrite app_nil_r. auto using Forall2_evolves_refl.
  - unfold recoverQueue_cs, written.
    pose proof (recover_jobs_map done now (jobs q) rounds false) as Hm.
    destruct (recover_jobs _ _ _ _ _) as [[js rounds'] upd]. simpl in Hm. subst js.
    destruct upd; simpl.
    + eexists _, []. rewrite app_nil_r. split; [done|]. split; [|by left].
      apply Forall2_evolves_fmap, evolves_recover.
    + exists (jobs q), []. rewrite app_nil_r. auto using Forall2_evolves_refl.
  - eexists _, []. rewrite app_nil_r. split; [done|]. split; [|by left].
    apply updateJob_cs_evolves; auto.
  - eexists _, []. rewrite app_nil_r. split; [done|]. split; [|by left].
    apply updateJob_cs_evolves; auto.
Qed.

Lemma filter_evolves_length rid l l' :
  Forall2 evolves l l' →
  (length (filter (λ job, roundId job = rid ∧ active job) l')
   ≤ length (filter (λ job, roundId job = rid ∧ active job) l))%nat.
Proof.
  induction 1 as [|x y l l' (Hr & Ha & _) _ IH]; [done|].
  rewrite !filter_cons. repeat case_decide; simpl; try lia.
  exfalso. rewrite Hr in *. tauto.
Qed.

Lemma filter_none_active rid (l : list TranscriptionJob) :
  (∀ x, x ∈ l → roundId x = rid → ¬ active x) →
  filter (λ job, roundId job = rid ∧ active job) l = [].
Proof.
  intros H. induction l as [|a l IH]; [done|].
  rewrite filter_cons. case_decide as Hd.
  - destruct Hd as [Hr Ha]. destruct (H a); [left|..]; done.
  - apply IH. intros x Hx. apply H. by right.
Qed.

Lemma apply_op_one_active op q :
  at_most_one_active q → at_most_one_active (apply_op op q).
Proof.
  intros Hinv rid. unfold active_for.
  destruct (apply_op_shape op q) as (l' & extra & -> & Hev & Hextra).
  rewrite filter_app, length_app.
  pose proof (filter_evolves_length rid _ _ Hev) as Hle.
  specialize (Hinv rid). unfold active_for in Hinv.
  destruct Hextra as [->|(job & -> & Hs & _ & Hfresh)]; [simpl; lia|].
  rewrite filter_cons, filter_nil. case_decide as Hd; simpl; [|lia].
  destruct Hd as [Hr _]. subst rid.
  rewrite (filter_none_active _ _ Hfresh) in Hle. simpl in Hle. lia.
Qed.

Lemma apply_op_attempts_bounded op q :
  attempts_bounded q → attempts_bounded (apply_op op q).
Proof.
  unfold attempts_bounded. intros Hinv.
  destruct (apply_op_shape op q) as (l' & extra & -> & Hev & Hextra).
  apply Forall_app. split.
  - clear Hextra. induction Hev as [|x y l l' (_ & _ & Hat) _ IH]; [done|].
    inversion Hinv; subst. constructor; [|auto].
    unfold MAX_ATTEMPTS in *. lia.
  - destruct Hextra as [->|(job & -> & _ & Hz & _)]; [done|].
    constructor; [|done]. rewrite Hz. unfold MAX_ATTEMPTS. lia.
Qed.

Lemma apply_op_keeps_position op q i job :
  jobs q !! i = Some job →
  ∃ job', jobs (apply_op op q) !! i = Some job' ∧ evolves job job'.
Proof.
  intros Hi.
  destruct (apply_op_shape op q) as (l' & extra & -> & Hev & _).
  destruct (Forall2_lookup_l _ _ _ _ _ Hev Hi) as (job' & Hi' & He).
  exists job'. split; [|done]. by apply lookup_app_l_Some.
Qed.

Lemma run_ops_exhausted ops q i job :
  jobs q !! i = Some job → (MAX_ATTEMPTS ≤ attempts job)%nat →
  ∃ job', jobs (run_ops ops q) !! i = Some job' ∧ (MAX_ATTEMPTS ≤ attempts job')%nat.
Proof.
  revert q job. induction ops as [|op ops IH]; intros q job Hi Hat; [eauto|].
  destruct (apply_op_keeps_position op q i job Hi) as (job1 & Hi1 & _ & _ & Hat1).
  simpl. apply (IH _ job1 Hi1). lia.
Qed.

(** *** Critical sections on a world whose lock is free *)

Lemma withLock_free {T} self (fn : World → Result T * World) w :
  lockFile w = None →
  withLock self fn w =
    let '(r, w2) := fn (set_lockFile (Some (LockJson (mkLock self (clock w)))) w) in
    (r, releaseLock w2).
Proof.
  intros Hl. unfold withLock, maxRetries, withLock_loop, acquireLock. rewrite Hl. done.
Qed.

Lemma on_queue_unwritten {T} (cs : QueueState → T * option QueueState) w q r :
  queueFile w = Some q → cs q = (r, None) → on_queue cs w = (Ok r, w).
Proof. intros Hq Hc. unfold on_queue, readQueue. by rewrite Hq, Hc. Qed.

Lemma on_queue_written {T} (cs : QueueState → T * option QueueState) w q r q' :
  queueFile w = Some q → cs q = (r, Some q') → on_queue cs w = (Ok r, writeQueue q' w).
Proof. intros Hq Hc. unfold on_queue, readQueue. by rewrite Hq, Hc. Qed.

(** *** Enqueue *)

Lemma enqueue_cs_existing uuid now input q :
  (∃ x, x ∈ jobs q ∧ roundId x = in_roundId input ∧ active x) →
  ∃ existing,
    enqueue_cs uuid now input q = (existing, None)
    ∧ existing ∈ jobs q ∧ roundId existing = in_roundId input ∧ active existing.
Proof.
  intros (x & Hx & Hr & Ha). unfold enqueue_cs.
  destruct (list_find _ (jobs q)) as [[i existing]|] eqn:Hf.
  - apply list_find_Some in Hf as (Hi & [Hr' Ha'] & _).
    exists existing. split; [done|]. split; [by eapply list_elem_of_lookup_2|done].
  - apply list_find_None in Hf. rewrite Forall_forall in Hf.
    destruct (Hf x Hx). auto.
Qed.

Lemma enqueue_cs_fresh uuid now input q :
  (∀ x, x ∈ jobs q → roundId x = in_roundId input → ¬ active x) →
  enqueue_cs uuid now input q
  = (mkJob uuid (in_roundId input) (in_audioPath input) (in_source input)
           queued 0 now now None,
     Some (mkQueue (jobs q ++ [mkJob uuid (in_roundId input) (in_audioPath input)
                                     (in_source input) queued 0 now now None]))).
Proof.
  intros Hnone. unfold enqueue_cs.
  destruct (list_find _ (jobs q)) as [[i existing]|] eqn:Hf; [|done].
  apply list_find_Some in Hf as (Hi & [Hr' Ha'] & _).
  destruct (Hnone existing); [by eapply list_elem_of_lookup_2|done|done].
Qed.

Lemma enqueueTranscriptionJob_unwritten self uuid now input w q existing :
  lockFile w = None → queueFile w = Some q →
  enqueue_cs uuid now input q = (existing, None) →
  enqueueTranscriptionJob self uuid now input w = (Ok existing, w).
Proof.
  intros Hl Hq Hcs. unfold enqueueTranscriptionJob.
  rewrite withLock_free by done.
  erewrite on_queue_unwritten; [|exact Hq|exact Hcs].
  unfold releaseLock, set_lockFile. simpl. destruct w; simpl in *. by subst.
Qed.

Lemma enqueueTranscriptionJob_fresh self uuid now input w q :
  lockFile w = None → queueFile w = Some q →
  (∀ x, x ∈ jobs q → roundId x = in_roundId input → ¬ active x) →
  enqueueTranscriptionJob self uuid now input w
  = (Ok (mkJob uuid (in_roundId input) (in_audioPath input) (in_source input)
               queued 0 now now None),
     writeQueue (mkQueue (jobs q ++ [mkJob uuid (in_roundId input) (in_audioPath input)
                                           (in_source input) queued 0 now now None])) w).
Proof.
  intros Hl Hq Hnone. unfold enqueueTranscriptionJob.
  rewrite withLock_free by done.
  erewrite on_queue_written; [|exact Hq|by apply enqueue_cs_fresh].
  unfold releaseLock, writeQueue, set_queueFile, set_lockFile. simpl.
  destruct w; simpl in *. by subst.
Qed.

(** *** Claiming *)

Lemma claimNextJob_cs_first now q i next :
  first_eligible q i next →
  claimNextJob_cs now q
  = (Some (claim now next), Some (mkQueue (<[i := claim now next]> (jobs q)))).
Proof.
  intros (Hi & He & Hfirst). unfold claimNextJob_cs.
  destruct (list_find _ (jobs q)) as [[i' next']|] eqn:Hf.
  - apply list_find_Some in Hf as (Hi' & He' & Hfirst').
    assert (i' = i) as ->.
    { destruct (Nat.lt_trichotomy i' i) as [Hlt|[->|Hlt]]; [|done|].
      - destruct (Hfirst _ _ Hi' Hlt). exact He'.
      - destruct (Hfirst' _ _ Hi Hlt). exact He. }
    by simplify_eq.
  - apply list_find_None in Hf. rewrite Forall_forall in Hf.
    destruct (Hf next); [by eapply list_elem_of_lookup_2|exact He].
Qed.

Lemma claimNextJob_cs_none now q :
  (∀ x, x ∈ jobs q → ¬ eligible x) → claimNextJob_cs now q = (None, None).
Proof.
  intros Hnone. unfold claimNextJob_cs.
  destruct (list_find _ (jobs q)) as [[i next]|] eqn:Hf; [|done].
  apply list_find_Some in Hf as (Hi & He & _).
  destruct (Hnone next); [by eapply list_elem_of_lookup_2|exact He].
Qed.

Lemma claimNextJob_cs_spares now q i job :
  jobs q !! i = Some job → ¬ eligible job →
  jobs (written q (claimNextJob_cs now q).2) !! i = Some job.
Proof.
  intros Hi Hne. unfold claimNextJob_cs.
  destruct (list_find _ (jobs q)) as [[i' next]|] eqn:Hf; [|done].
  apply list_find_Some in Hf as (Hi' & He & _). simpl.
  rewrite list_lookup_insert_ne; [done|]. intros ->. by simplify_eq.
Qed.

Lemma recover_attempts done now job :
  attempts (recover_job done now job) = attempts job.
Proof. unfold recover_job. repeat case_match; done. Qed.

(** C9.  Every operation of the queue keeps every job's attempts between
    0 and 3: a job created by enqueue has 0 attempts, a claim increments
    the attempts of a job that had fewer than 3, and recovery as well as
    the updates made by [processJob] leave all attempts as they are. *)
Theorem attempts_stay_within_cap (op : QueueOp) (q : QueueState) :
  (attempts_bounded q → attempts_bounded (apply_op op q))
  ∧ (∀ uuid now input job q',
       enqueue_cs uuid now input q = (job, Some q') → attempts job = 0%nat)
  ∧ (∀ now job o,
       claimNextJob_cs now q = (Some job, o) →
       ∃ next, next ∈ jobs q ∧ (attempts next < MAX_ATTEMPTS)%nat
               ∧ attempts job = S (attempts next))
  ∧ (∀ done now rounds,
       attempts <$> jobs (apply_op (OpRecover done now rounds) q)
       = attempts <$> jobs q)
  ∧ (∀ now jobId message,
       attempts <$> jobs (apply_op (OpFinish now jobId) q) = attempts <$> jobs q
       ∧ attempts <$> jobs (apply_op (OpFail now jobId message) q)
         = attempts <$> jobs q).
Proof.
  split; [apply apply_op_attempts_bounded|]. split; [|split; [|split]].
  - intros uuid now input job q' H. unfold enqueue_cs in H.
    destruct (list_find _ (jobs q)) as [[i existing]|]; by simplify_eq.
  - intros now job o H. unfold claimNextJob_cs in H.
    destruct (list_find _ (jobs q)) as [[i next]|] eqn:Hf; simplify_eq.
    apply list_find_Some in Hf as (Hi & [_ Hat] & _).
    exists next. split; [by eapply list_elem_of_lookup_2|]. split; [done|]. simpl. lia.
  - intros done now rounds. unfold apply_op, written, recoverQueue_cs.
    pose proof (recover_jobs_map done now (jobs q) rounds false) as Hm.
    destruct (recover_jobs _ _ _ _ _) as [[js rounds'] upd]. simpl in Hm. subst js.
    destruct upd; simpl; [|done].
    rewrite <-list_fmap_compose. apply list_fmap_ext.
    intros ? job _. apply recover_attempts.
  - intros now jobId message. unfold apply_op, written, updateJob_cs.
    destruct (list_find _ (jobs q)) as [[i job]|] eqn:Hf; simpl; [|done].
    apply list_find_Some in Hf as (Hi & _ & _).
    split; rewrite list_fmap_insert; simpl;
      rewrite list_insert_id; try done; by rewrite list_lookup_fmap, Hi.
Qed.

Lemma attempts_stay_within_cap_witness :
  attempts_bounded
    (apply_op (OpClaim "t1") (mkQueue [sample_job "r1" queued 3; sample_job "r2" queued 2])).
Proof.
  apply (attempts_stay_within_cap (OpClaim "t1")
           (mkQueue [sample_job "r1" queued 3; sample_job "r2" queued 2])).
  unfold attempts_bounded, MAX_ATTEMPTS. simpl.
  repeat constructor.
Defined.

(** *** The rounds file under updates *)

Lemma snd_prod_map {A} (o : option (nat * A)) :
  snd <$> (prod_map S Datatypes.id <$> o) = snd <$> o.
Proof. by destruct o as [[]|]. Qed.

Lemma updateRound_cons rid u r0 rest :
  (Rounds.updateRound rid u (r0 :: rest)).2
  = if decide (Rounds.id r0 = rid) then Rounds.merge r0 u :: rest
    else r0 :: (Rounds.updateRound rid u rest).2.
Proof.
  unfold Rounds.updateRound. cbn [list_find].
  case_decide; [done|].
  destruct (list_find _ rest) as [[i r]|]; done.
Qed.

Lemma getRound_updateRound rid rid' u rounds :
  Rounds.getRound rid (Rounds.updateRound rid' u rounds).2
  = if decide (rid = rid') then (λ r, Rounds.merge r u) <$> Rounds.getRound rid rounds
    else Rounds.getRound rid rounds.
Proof.
  unfold Rounds.getRound.
  induction rounds as [|r0 rest IH]; [by case_decide|].
  rewrite updateRound_cons. cbn [list_find].
  destruct (decide (Rounds.id r0 = rid')) as [E1|N1].
  - cbn [list_find]. simpl. subst rid'.
    destruct (decide (Rounds.id r0 = rid)) as [E|N]; simpl.
    + by rewrite decide_True.
    + by rewrite decide_False.
  - cbn [list_find].
    destruct (decide (Rounds.id r0 = rid)) as [E|N]; simpl.
    + case_decide; [congruence|done].
    + rewrite !snd_prod_map. exact IH.
Qed.

Lemma round_status_updateRound rid rid' u rounds :
  round_status rid (Rounds.updateRound rid' u rounds).2
  = if decide (rid = rid')
    then (λ st, default st (Rounds.u_status u)) <$> round_status rid rounds
    else round_status rid rounds.
Proof.
  unfold round_status. rewrite getRound_updateRound.
  case_decide; [|done]. by destruct (Rounds.getRound rid rounds).
Qed.

Lemma round_status_processing rid u r rounds :
  Rounds.getRound rid rounds = Some r → Rounds.u_status u = Some Rounds.PROCESSING →
  round_status rid (Rounds.updateRound rid u rounds).2 = Some Rounds.PROCESSING.
Proof.
  intros Hr Hu. rewrite round_status_updateRound, decide_True by done.
  unfold round_status. by rewrite Hr, Hu.
Qed.

(** *** Recovery *)

Ltac same_round job rid Hd :=
  destruct (decide (roundId job = rid)) as [Hr|Hr];
  [rewrite bool_decide_true by done; rewrite decide_True by done;
   rewrite <-Hr, Hd
  |rewrite bool_decide_false by done; rewrite decide_False by congruence].

(** The status of a round after the loop of [recoverQueue], as a fold
    over the jobs. *)
Lemma recover_jobs_round_status done now js rounds upd rid :
  round_status rid (recover_jobs done now js rounds upd).1.2
  = foldl (λ st job,
             if bool_decide (status job ≠ processing) then st
             else if bool_decide (roundId job = rid) then
               if done rid then (λ _, Rounds.COMPLETED) <$> st
               else if bool_decide (attempts job < MAX_ATTEMPTS)%nat then st
               else (λ _, Rounds.ERROR) <$> st
             else st)
          (round_status rid rounds) js.
Proof.
  revert rounds upd. induction js as [|job rest IH]; intros rounds upd; [done|].
  cbn [recover_jobs foldl].
  destruct (bool_decide (status job ≠ processing)) eqn:Hp.
  { specialize (IH rounds upd).
    destruct (recover_jobs done now rest rounds upd) as [[??]?]. exact IH. }
  destruct (done (roundId job)) eqn:Hd.
  { match goal with |- context [recover_jobs _ _ _ ?r ?u] => specialize (IH r u) end.
    destruct (recover_jobs done now rest _ true) as [[??]?]. simpl in *.
    rewrite IH, round_status_updateRound. f_equal.
    by same_round job rid Hd. }
  destruct (bool_decide (attempts job < MAX_ATTEMPTS)%nat) eqn:Ha.
  { specialize (IH rounds true).
    destruct (recover_jobs done now rest rounds true) as [[??]?]. simpl in *.
    rewrite IH. f_equal.
    destruct (decide (roundId job = rid)) as [Hr|Hr];
      [rewrite bool_decide_true by done; by rewrite <-Hr, Hd
      |by rewrite bool_decide_false by done]. }
  match goal with |- context [recover_jobs _ _ _ ?r ?u] => specialize (IH r u) end.
  destruct (recover_jobs done now rest _ true) as [[??]?]. simpl in *.
  rewrite IH, round_status_updateRound. f_equal.
  by same_round job rid Hd.
Qed.

Lemma foldl_settle {A B} (hit : B → Prop) `{∀ x, Decision (hit x)} (g : A → A)
    (l : list B) (a : A) :
  (∀ a, g (g a) = g a) →
  foldl (λ a x, if decide (hit x) then g a else a) a l
  = if decide (Exists hit l) then g a else a.
Proof.
  intros Hg. revert a. induction l as [|x l IH]; intros a; cbn [foldl].
  - case_decide as Hn; [by apply Exists_nil in Hn|done].
  - rewrite IH. destruct (decide (hit x)) as [Hx|Hx].
    + destruct (decide (Exists hit (x :: l))) as [_|Hn]; [|destruct Hn; by left].
      case_decide; [apply Hg|done].
    + destruct (decide (Exists hit l)) as [Hl|Hl];
        destruct (decide (Exists hit (x :: l))) as [Hc|Hc]; try done.
      * destruct Hc. by right.
      * by apply Exists_cons in Hc as [?|?].
Qed.

Lemma foldl_pointwise {A B} (f g : A → B → A) (l : list B) (a : A) :
  (∀ a x, f a x = g a x) → foldl f a l = foldl g a l.
Proof.
  intros H. revert a. induction l as [|x l IH]; intros a; [done|].
  simpl. by rewrite H, IH.
Qed.

Lemma recover_round_status done now js rounds upd rid :
  round_status rid (recover_jobs done now js rounds upd).1.2
  = if decide (Exists (settles done rid) js)
    then (λ _, settled_status done rid) <$> round_status rid rounds
    else round_status rid rounds.
Proof.
  rewrite recover_jobs_round_status.
  rewrite <-(foldl_settle (settles done rid) (fmap (λ _, settled_status done rid)));
    [|by intros [?|]].
  apply foldl_pointwise. intros st job. unfold settles, settled_status.
  case_bool_decide as Hp.
  { rewrite decide_False; [done|]. intros (? & _). done. }
  case_bool_decide as Hr; [|rewrite decide_False; [done|]; by intros (_ & ? & _)].
  destruct (done rid) eqn:Hd.
  { rewrite decide_True; [done|]. auto. }
  case_bool_decide as Ha.
  - rewrite decide_False; [done|]. intros (_ & _ & [?|?]); done.
  - rewrite decide_True; [done|]. auto.
Qed.

Lemma recover_jobs_updated done now js rounds upd :
  (upd = true ∨ Exists (λ job, status job = processing) js) →
  (recover_jobs done now js rounds upd).2 = true.
Proof.
  revert rounds upd. induction js as [|job rest IH]; intros rounds upd H.
  - destruct H as [->|H]; [done|by apply Exists_nil in H].
  - cbn [recover_jobs].
    case_bool_decide as Hp.
    + specialize (IH rounds upd).
      destruct (recover_jobs done now rest rounds upd) as [[??]?]. apply IH.
      destruct H as [?|[?|?]%Exists_cons]; [by left|done|by right].
    + repeat case_match;
        match goal with H : recover_jobs _ _ _ ?r true = _ |- _ =>
          specialize (IH r true); rewrite H in IH; apply IH; by left end.
Qed.


Lemma recoverQueue_cs_rounds done now q rounds :
  (recoverQueue_cs done now q rounds).2 = (recover_jobs done now (jobs q) rounds false).1.2.
Proof.
  unfold recoverQueue_cs. by destruct (recover_jobs _ _ _ _ _) as [[js rounds'] upd].
Qed.

Lemma recover_job_idle done now job :
  status job ≠ processing → recover_job done now job = job.
Proof. intros H. unfold recover_job. by rewrite bool_decide_true. Qed.

Lemma recover_jobs_idle done now js rounds :
  (recover_jobs done now js rounds false).2 = false →
  recover_job done now <$> js = js.
Proof.
  intros Hu. rewrite <-(list_fmap_id js) at 2.
  apply list_fmap_ext. intros i job Hi. apply recover_job_idle. intros Hp.
  rewrite recover_jobs_updated in Hu; [done|].
  right. apply Exists_exists. exists job. split; [|done]. by eapply list_elem_of_lookup_2.
Qed.

Lemma recoverQueue_free self now w q :
  lockFile w = None → queueFile w = Some q →
  ∃ q',
    recoverQueue self now w
    = (Ok tt,
       mkWorld (clock w) None (Some q')
         (recover_jobs (λ rid, FilesTs.transcriptionExists rid (disk w)) now
                       (jobs q) (Queue.rounds w) false).1.2
         (disk w))
    ∧ jobs q' = recover_job (λ rid, FilesTs.transcriptionExists rid (disk w)) now <$> jobs q.
Proof.
  intros Hl Hq. unfold recoverQueue. rewrite withLock_free by done.
  unfold readQueue. simpl. rewrite Hq. simpl. unfold recoverQueue_cs.
  pose proof (recover_jobs_map (λ rid, FilesTs.transcriptionExists rid (disk w)) now
                (jobs q) (Queue.rounds w) false) as Hm.
  pose proof (recover_jobs_idle (λ rid, FilesTs.transcriptionExists rid (disk w)) now
                (jobs q) (Queue.rounds w)) as Hidle.
  destruct (recover_jobs _ now (jobs q) (Queue.rounds w) false) as [[js rounds'] upd].
  simpl in *. subst js. destruct upd; simpl.
  - eexists. split; [reflexivity|done].
  - exists q. split; [|by rewrite Hidle].
    unfold releaseLock, set_rounds, set_lockFile. simpl. by rewrite Hq.
Qed.

(** *** The worker's calls, in order *)



Lemma recover_job_lookup done now (l : list TranscriptionJob) i job :
  l !! i = Some job → (recover_job done now <$> l) !! i = Some (recover_job done now job).
Proof. intros H. by rewrite list_lookup_fmap, H. Qed.

Lemma recover_job_not_processing done now job :
  status (recover_job done now job) ≠ processing.
Proof.
  unfold recover_job. case_bool_decide; [done|].
  destruct (done _); [done|]. by case_bool_decide.
Qed.

(** *** The calls on a world with a free lock *)

Lemma withLock_on_queue {T} self (cs : QueueState → T * option QueueState) w q :
  lockFile w = None → queueFile w = Some q →
  withLock self (on_queue cs) w
  = (Ok (cs q).1, set_queueFile (Some (written q (cs q).2)) w).
Proof.
  intros Hl Hq. rewrite withLock_free by done.
  unfold on_queue, readQueue. simpl. rewrite Hq.
  destruct (cs q) as [r [q'|]]; simpl;
    unfold releaseLock, writeQueue, set_queueFile, set_lockFile; simpl;
    destruct w; simpl in *; by subst.
Qed.

Lemma claimNextJob_free self now w q i next :
  lockFile w = None → queueFile w = Some q → first_eligible q i next →
  claimNextJob self now w
  = (Ok (Some (claim now next)),
     set_queueFile (Some (mkQueue (<[i := claim now next]> (jobs q)))) w).
Proof.
  intros Hl Hq Hf. unfold claimNextJob. rewrite (withLock_on_queue _ _ _ q) by done.
  by rewrite (claimNextJob_cs_first _ _ _ _ Hf).
Qed.

Lemma claimNextJob_idle self now w q :
  lockFile w = None → queueFile w = Some q → (∀ x, x ∈ jobs q → ¬ eligible x) →
  claimNextJob self now w = (Ok None, w).
Proof.
  intros Hl Hq Hf. unfold claimNextJob. rewrite (withLock_on_queue _ _ _ q) by done.
  rewrite claimNextJob_cs_none by done. simpl.
  unfold set_queueFile. destruct w; simpl in *. by subst.
Qed.

Lemma claimNextJob_cs_claimed now q claimed :
  (claimNextJob_cs now q).1 = Some claimed →
  ∃ j next, first_eligible q j next ∧ claimed = claim now next.
Proof.
  unfold claimNextJob_cs.
  destruct (list_find _ (jobs q)) as [[j next]|] eqn:Hf; [|done].
  simpl. intros [= <-]. apply list_find_Some in Hf as (Hj & He & Hfirst).
  exists j, next. split; [|done]. split; [done|]. split; [done|].
  intros k x Hk Hlt. by apply (Hfirst k x).
Qed.

Lemma recoverQueue_cs_written done now q rounds :
  written q (recoverQueue_cs done now q rounds).1
  = mkQueue (recover_job done now <$> jobs q).
Proof.
  unfold recoverQueue_cs.
  pose proof (recover_jobs_map done now (jobs q) rounds false) as Hmap.
  pose proof (recover_jobs_idle done now (jobs q) rounds) as Hidle.
  destruct (recover_jobs done now (jobs q) rounds false) as [[js rounds'] upd].
  simpl in *. destruct upd; simpl; [by rewrite Hmap|].
  rewrite Hidle by done. by destruct q.
Qed.

Lemma recoverQueue_world self now w q :
  lockFile w = None → queueFile w = Some q →
  let done := λ rid, FilesTs.transcriptionExists rid (disk w) in
  recoverQueue self now w
  = (Ok tt,
     mkWorld (clock w) None (Some (mkQueue (recover_job done now <$> jobs q)))
             (recoverQueue_cs done now q (Queue.rounds w)).2 (disk w)).
Proof.
  intros Hl Hq done0. subst done0.
  destruct (recoverQueue_free self now w q Hl Hq) as (q' & -> & Hjobs).
  rewrite recoverQueue_cs_rounds, <- Hjobs. by destruct q'.
Qed.

Lemma perform_step self c w q :
  lockFile w = None → queueFile w = Some q →
  lockFile (perform self c w) = None
  ∧ queueFile (perform self c w) = Some (apply_op (op_of c w) q).
Proof.
  intros Hl Hq. destruct c as [uuid now input|now|now|now jobId|now jobId message]; simpl.
  - unfold enqueueTranscriptionJob. by rewrite (withLock_on_queue _ _ _ q).
  - unfold claimNextJob. by rewrite (withLock_on_queue _ _ _ q).
  - rewrite (recoverQueue_world _ _ _ q) by done. simpl.
    by rewrite recoverQueue_cs_written.
  - unfold updateJob. by rewrite (withLock_on_queue _ _ _ q).
  - unfold updateJob. by rewrite (withLock_on_queue _ _ _ q).
Qed.

Lemma perform_all_run self calls w q :
  lockFile w = None → queueFile w = Some q →
  ∃ ops, lockFile (perform_all self calls w) = None
         ∧ queueFile (perform_all self calls w) = Some (run_ops ops q).
Proof.
  revert w q. induction calls as [|c calls IH]; intros w q Hl Hq.
  - by exists [].
  - destruct (perform_step self c w q Hl Hq) as [Hl1 Hq1].
    destruct (IH _ _ Hl1 Hq1) as (ops & Hl2 & Hq2).
    by exists (op_of c w :: ops).
Qed.

Lemma run_ops_one_active ops q :
  at_most_one_active q → at_most_one_active (run_ops ops q).
Proof.
  revert q. induction ops as [|op ops IH]; intros q Hq; [done|].
  apply (IH (apply_op op q)). by apply apply_op_one_active.
Qed.

(** C2.  Enqueue is idempotent per round.  When the document holds a job
    of the round that is queued or processing, such a job is returned and
    nothing is written: on a world with a free lock the whole world is
    left as it was, the queue file still holds the same document and the
    lock is free again.  When the document holds none, exactly one job is
    appended, queued and with zero attempts: the queue file of the
    resulting world holds the old jobs followed by the new one, the lock
    is free again and nothing else has changed.  Every operation of the
    queue keeps the invariant that a round has at most one queued or
    processing job, and so does every series of calls of the queue that a
    process makes on a world with a free lock. *)
Theorem enqueue_idempotent_one_active (uuid now : string) (input : EnqueueInput)
    (q : QueueState) :
  ((∃ x, x ∈ jobs q ∧ roundId x = in_roundId input ∧ active x) →
     ∃ existing,
       enqueue_cs uuid now input q = (existing, None)
       ∧ existing ∈ jobs q ∧ roundId existing = in_roundId input ∧ active existing
       ∧ ∀ self w, lockFile w = None → queueFile w = Some q →
           enqueueTranscriptionJob self uuid now input w = (Ok existing, w)
           ∧ queueFile (enqueueTranscriptionJob self uuid now input w).2 = Some q
           ∧ lockFile (enqueueTranscriptionJob self uuid now input w).2 = None)
  ∧ ((∀ x, x ∈ jobs q → roundId x = in_roundId input → ¬ active x) →
     let job := mkJob uuid (in_roundId input) (in_audioPath input) (in_source input)
                      queued 0 now now None in
     enqueue_cs uuid now input q = (job, Some (mkQueue (jobs q ++ [job])))
     ∧ status job = queued ∧ attempts job = 0%nat
     ∧ ∀ self w, lockFile w = None → queueFile w = Some q →
         enqueueTranscriptionJob self uuid now input w
         = (Ok job, writeQueue (mkQueue (jobs q ++ [job])) w)
         ∧ queueFile (enqueueTranscriptionJob self uuid now input w).2
           = Some (mkQueue (jobs q ++ [job]))
         ∧ lockFile (enqueueTranscriptionJob self uuid now input w).2 = None
         ∧ Queue.rounds (enqueueTranscriptionJob self uuid now input w).2 = Queue.rounds w
         ∧ disk (enqueueTranscriptionJob self uuid now input w).2 = disk w
         ∧ clock (enqueueTranscriptionJob self uuid now input w).2 = clock w)
  ∧ (∀ op, at_most_one_active q → at_most_one_active (apply_op op q))
  ∧ (∀ self calls w,
       lockFile w = None → queueFile w = Some q → at_most_one_active q →
       lockFile (perform_all self calls w) = None
       ∧ is_Some (queueFile (perform_all self calls w))
       ∧ at_most_one_active (queue_of (perform_all self calls w))).
Proof.
  split; [|split; [|split]].
  - intros Hex.
    destruct (enqueue_cs_existing uuid now input q Hex) as (existing & Hcs & H).
    exists existing. split; [done|]. repeat (split; [apply H|]).
    intros self w Hl Hq.
    rewrite (enqueueTranscriptionJob_unwritten _ _ _ _ _ _ _ Hl Hq Hcs). done.
  - intros Hnone job. split; [by apply enqueue_cs_fresh|].
    split; [done|]. split; [done|].
    intros self w Hl Hq.
    rewrite (enqueueTranscriptionJob_fresh _ _ _ _ _ _ Hl Hq Hnone). simpl.
    by rewrite Hl.
  - intros op. apply apply_op_one_active.
  - intros self calls w Hl Hq Hone.
    destruct (perform_all_run self calls w q Hl Hq) as (ops & Hl' & Hq').
    split; [done|]. split; [by rewrite Hq'|].
    unfold queue_of. rewrite Hq'. simpl. by apply run_ops_one_active.
Qed.

Lemma one_active_singleton job : at_most_one_active (mkQueue [job]).
Proof.
  intros rid. unfold active_for. simpl.
  rewrite filter_cons, filter_nil. case_decide; simpl; lia.
Defined.

Lemma enqueue_idempotent_one_active_witness :
  enqueueTranscriptionJob 42 "u1" "t1" (mkInput "r1" "/a" recording)
    (mkWorld 0 None (Some (mkQueue [sample_job "r1" processing 1])) [] empty_disk)
  = (Ok (sample_job "r1" processing 1),
     mkWorld 0 None (Some (mkQueue [sample_job "r1" processing 1])) [] empty_disk)
  ∧ queueFile
      (enqueueTranscriptionJob 42 "u1" "t1" (mkInput "r2" "/a" recording)
         (mkWorld 0 None (Some (mkQueue [sample_job "r1" processing 1])) [] empty_disk)).2
    = Some (mkQueue [sample_job "r1" processing 1;
                     mkJob "u1" "r2" "/a" recording queued 0 "t1" "t1" None])
  ∧ at_most_one_active
      (apply_op (OpEnqueue "u1" "t1" (mkInput "r1" "/a" recording))
                (mkQueue [sample_job "r1" processing 1]))
  ∧ at_most_one_active
      (queue_of
         (perform_all 42 [CallEnqueue "u1" "t1" (mkInput "r1" "/a" recording);
                          CallClaim "t2"]
            (mkWorld 0 None (Some (mkQueue [sample_job "r1" processing 1])) []
                     empty_disk))).
Proof.
  split; [|split; [|split]].
  - destruct (enqueue_idempotent_one_active "u1" "t1" (mkInput "r1" "/a" recording)
                (mkQueue [sample_job "r1" processing 1])) as (H & _ & _ & _).
    destruct H as (existing & Hcs & _ & _ & _ & Hw).
    + exists (sample_job "r1" processing 1). split; [by left|].
      split; [reflexivity|]. right. reflexivity.
    + injection Hcs as <-.
      apply (Hw 42 (mkWorld 0 None (Some (mkQueue [sample_job "r1" processing 1])) []
                            empty_disk)); reflexivity.
  - destruct (enqueue_idempotent_one_active "u1" "t1" (mkInput "r2" "/a" recording)
                (mkQueue [sample_job "r1" processing 1])) as (_ & H & _ & _).
    destruct H as (_ & _ & _ & Hw).
    + intros x Hx Hr. apply list_elem_of_singleton in Hx. subst x. discriminate Hr.
    + apply (Hw 42 (mkWorld 0 None (Some (mkQueue [sample_job "r1" processing 1])) []
                            empty_disk)); reflexivity.
  - apply (enqueue_idempotent_one_active "u1" "t1" (mkInput "r1" "/a" recording)
             (mkQueue [sample_job "r1" processing 1])).
    apply one_active_singleton.
  - apply (enqueue_idempotent_one_active "u1" "t1" (mkInput "r1" "/a" recording)
             (mkQueue [sample_job "r1" processing 1])).
    + reflexivity.
    + reflexivity.
    + apply one_active_singleton.
Defined.

(** C7.  [claimNextJob] takes the first job that is queued with fewer
    than three attempts: it stores it back as processing with one attempt
    more and returns it; when no job qualifies it returns nothing and
    writes nothing.  This holds of the critical section and of the whole
    call on a world with a free lock: the call fulfils with the claimed
    job, the queue file of the resulting world holds the document with
    that job replaced at its position, the lock is free again and nothing
    else has changed; without an eligible job the call fulfils with null
    and leaves the world as it was.  A job whose attempts have reached
    three keeps at least three attempts under all operations of the
    queue, so at its position no later claim ever finds a job to take and
    the claim leaves that position as it is; after any series of calls of
    the queue on a world with a free lock, a job that [claimNextJob]
    returns was taken from another position. *)
Theorem exhausted_job_never_claimed (now : string) (q : QueueState) :
  (∀ i next, first_eligible q i next →
     claimNextJob_cs now q
     = (Some (claim now next), Some (mkQueue (<[i := claim now next]> (jobs q))))
     ∧ status (claim now next) = processing
     ∧ attempts (claim now next) = S (attempts next))
  ∧ ((∀ x, x ∈ jobs q → ¬ eligible x) → claimNextJob_cs now q = (None, None))
  ∧ (∀ i job ops now',
       jobs q !! i = Some job → (MAX_ATTEMPTS ≤ attempts job)%nat →
       ∃ job',
         jobs (run_ops ops q) !! i = Some job'
         ∧ (MAX_ATTEMPTS ≤ attempts job')%nat
         ∧ (∀ next, ¬ first_eligible (run_ops ops q) i next)
         ∧ jobs (written (run_ops ops q) (claimNextJob_cs now' (run_ops ops q)).2) !! i
           = Some job')
  ∧ (∀ self w i next,
       lockFile w = None → queueFile w = Some q → first_eligible q i next →
       (claimNextJob self now w).1 = Ok (Some (claim now next))
       ∧ queueFile (claimNextJob self now w).2
         = Some (mkQueue (<[i := claim now next]> (jobs q)))
       ∧ jobs (queue_of (claimNextJob self now w).2) !! i
         = Some (mkJob (id next) (roundId next) (audioPath next) (source next)
                       processing (S (attempts next)) (createdAt next) now
                       (lastError next))
       ∧ lockFile (claimNextJob self now w).2 = None
       ∧ Queue.rounds (claimNextJob self now w).2 = Queue.rounds w
       ∧ disk (claimNextJob self now w).2 = disk w
       ∧ clock (claimNextJob self now w).2 = clock w)
  ∧ (∀ self w,
       lockFile w = None → queueFile w = Some q →
       (∀ x, x ∈ jobs q → ¬ eligible x) →
       claimNextJob self now w = (Ok None, w))
  ∧ (∀ self calls w i job now',
       lockFile w = None → queueFile w = Some q →
       jobs q !! i = Some job → (MAX_ATTEMPTS ≤ attempts job)%nat →
       ∃ job',
         jobs (queue_of (perform_all self calls w)) !! i = Some job'
         ∧ (MAX_ATTEMPTS ≤ attempts job')%nat
         ∧ jobs (queue_of (claimNextJob self now' (perform_all self calls w)).2) !! i
           = Some job'
         ∧ ∀ claimed,
             (claimNextJob self now' (perform_all self calls w)).1 = Ok (Some claimed) →
             ∃ j next,
               j ≠ i
               ∧ first_eligible (queue_of (perform_all self calls w)) j next
               ∧ claimed = claim now' next).
Proof.
  split; [|split; [|split; [|split; [|split]]]].
  - intros i next Hfirst. split; [by apply claimNextJob_cs_first|].
    split; [done|]. simpl. lia.
  - apply claimNextJob_cs_none.
  - intros i job ops now' Hi Hat.
    destruct (run_ops_exhausted ops q i job Hi Hat) as (job' & Hi' & Hat').
    assert (Hne : ¬ eligible job') by (unfold eligible; lia).
    exists job'. split; [done|]. split; [done|]. split.
    + intros next (Hn & He & _). by simplify_eq.
    + by apply claimNextJob_cs_spares.
  - intros self w i next Hl Hq Hfirst.
    rewrite (claimNextJob_free _ _ _ _ _ _ Hl Hq Hfirst). simpl.
    split; [done|]. split; [done|]. split; [|by rewrite Hl].
    destruct Hfirst as (Hi & _ & _).
    rewrite list_lookup_insert_eq by (by eapply lookup_lt_Some).
    f_equal. unfold claim. f_equal. lia.
  - intros self w Hl Hq Hnone. by apply (claimNextJob_idle _ _ _ q).
  - intros self calls w i job now' Hl Hq Hi Hat.
    destruct (perform_all_run self calls w q Hl Hq) as (ops & Hl' & Hq').
    destruct (run_ops_exhausted ops q i job Hi Hat) as (job' & Hi' & Hat').
    assert (Hne : ¬ eligible job') by (unfold eligible; lia).
    exists job'. unfold claimNextJob.
    rewrite (withLock_on_queue _ _ _ (run_ops ops q)) by done.
    unfold queue_of. rewrite Hq'. simpl.
    split; [done|]. split; [done|].
    split; [by apply claimNextJob_cs_spares|].
    intros claimed [= Hclaimed].
    apply claimNextJob_cs_claimed in Hclaimed as (j & next & Hfirst & ->).
    exists j, next. split; [|done].
    intros ->. destruct Hfirst as (Hj & He & _). by simplify_eq.
Qed.

Lemma exhausted_job_never_claimed_witness :
  ((claimNextJob 42 "t1"
      (mkWorld 0 None
         (Some (mkQueue [sample_job "r1" queued 3; sample_job "r2" queued 2]))
         [] empty_disk)).1
   = Ok (Some (mkJob "job-r2" "r2" "/srv/public/audio/r2.webm" recording
                     processing 3 "t0" "t1" None))
   ∧ queueFile
       (claimNextJob 42 "t1"
          (mkWorld 0 None
             (Some (mkQueue [sample_job "r1" queued 3; sample_job "r2" queued 2]))
             [] empty_disk)).2
     = Some (mkQueue [sample_job "r1" queued 3;
                      mkJob "job-r2" "r2" "/srv/public/audio/r2.webm" recording
                            processing 3 "t0" "t1" None]))
  ∧ claimNextJob 42 "t1"
      (mkWorld 0 None (Some (mkQueue [sample_job "r1" queued 3])) [] empty_disk)
    = (Ok None, mkWorld 0 None (Some (mkQueue [sample_job "r1" queued 3])) [] empty_disk)
  ∧ ∃ job',
      jobs (queue_of
              (perform_all 42 [CallRecover "t2"; CallClaim "t3"]
                 (mkWorld 0 None
                    (Some (mkQueue [sample_job "r1" queued 3; sample_job "r2" queued 2]))
                    [] empty_disk))) !! 0%nat
      = Some job'
      ∧ (MAX_ATTEMPTS ≤ attempts job')%nat.
Proof.
  split; [|split].
  - destruct (exhausted_job_never_claimed "t1"
                (mkQueue [sample_job "r1" queued 3; sample_job "r2" queued 2]))
      as (_ & _ & _ & H & _).
    destruct (H 42 (mkWorld 0 None
                      (Some (mkQueue [sample_job "r1" queued 3; sample_job "r2" queued 2]))
                      [] empty_disk) 1%nat (sample_job "r2" queued 2))
      as (Hres & Hq & _).
    + reflexivity.
    + reflexivity.
    + split; [reflexivity|]. split.
      * split; [reflexivity|]. unfold MAX_ATTEMPTS. simpl. lia.
      * intros [|j] x Hj Hlt; [|lia]. simpl in Hj. injection Hj as <-.
        unfold eligible, MAX_ATTEMPTS. simpl. lia.
    + split; [exact Hres|exact Hq].
  - apply (exhausted_job_never_claimed "t1" (mkQueue [sample_job "r1" queued 3])).
    + reflexivity.
    + reflexivity.
    + intros x Hx. apply list_elem_of_singleton in Hx. subst x.
      unfold eligible, MAX_ATTEMPTS. simpl. lia.
  - destruct (exhausted_job_never_claimed "t1"
                (mkQueue [sample_job "r1" queued 3; sample_job "r2" queued 2]))
      as (_ & _ & _ & _ & _ & H).
    destruct (H 42 [CallRecover "t2"; CallClaim "t3"]
                (mkWorld 0 None
                   (Some (mkQueue [sample_job "r1" queued 3; sample_job "r2" queued 2]))
                   [] empty_disk)
                0%nat (sample_job "r1" queued 3) "t4")
      as (job' & Hi & Hat & _).
    + reflexivity.
    + reflexivity.
    + reflexivity.
    + unfold MAX_ATTEMPTS. simpl. lia.
    + exists job'. split; [exact Hi|exact Hat].
Defined.



(** A caller that awaits [startTranscriptionWorker] on a process whose
    worker was not started sees the start followed by the recovery step. *)
Lemma startTranscriptionWorker_steps self now outcome p w :
  workerStarted p = false →
  let '(r, p', w') := startTranscriptionWorker self now p w in
  run_actions self [CallStart; WorkerRuns now outcome] p w
  = ([EvRecover (match r with Ok _ => true | Err _ => false end)], p', w').
Proof.
  intros Hs. unfold startTranscriptionWorker. rewrite Hs.
  cbn [run_actions run_action]. unfold start_prefix. rewrite Hs.
  unfold worker_step. simpl.
  by destruct (recover_step self now _ w) as [[[]?]?].
Qed.

Example recovery_of_two_jobs :
  recoverQueue_cs (λ rid, String.eqb rid "r1") "t1"
    (mkQueue [sample_job "r1" processing 1; sample_job "r2" processing 3;
              sample_job "r3" processing 2])
    [sample_round "r1" Rounds.PROCESSING; sample_round "r2" Rounds.PROCESSING;
     sample_round "r3" Rounds.PROCESSING]
  = (Some (mkQueue [with_status completed "t1" (sample_job "r1" processing 1);
                    with_status error "t1" (sample_job "r2" processing 3);
                    with_status queued "t1" (sample_job "r3" processing 2)]),
     [sample_round "r1" Rounds.COMPLETED; sample_round "r2" Rounds.ERROR;
      sample_round "r3" Rounds.PROCESSING]).
Proof. reflexivity. Qed.

(** *** The lock file *)

Lemma set_clock_id w : set_clock (clock w) w = w.
Proof. by destruct w. Qed.

Lemma acquireLock_fuel_enough fuel self now lock :
  (2 ≤ fuel)%nat →
  acquireLock_fuel fuel self now lock = acquireLock_fuel 2 self now lock.
Proof.
  intros Hf. destruct fuel as [|[|fuel]]; [lia..|].
  simpl. destruct lock as [[parsed|]|]; done.
Qed.

Lemma acquireLock_live self w info :
  lockFile w = Some (LockJson info) → clock w - startedAt info ≤ LOCK_TTL_MS →
  acquireLock self w = (false, w).
Proof.
  intros Hl Hage. unfold acquireLock. rewrite Hl. simpl.
  rewrite bool_decide_false by lia. rewrite <-Hl. by destruct w.
Qed.

Lemma acquireLock_expired self w info :
  lockFile w = Some (LockJson info) → clock w - startedAt info > LOCK_TTL_MS →
  acquireLock self w
  = (true, set_lockFile (Some (LockJson (mkLock self (clock w)))) w).
Proof.
  intros Hl Hage. unfold acquireLock. rewrite Hl. simpl.
  by rewrite bool_decide_true by lia.
Qed.

Lemma acquireLock_unreadable self w :
  lockFile w = Some LockUnreadable → acquireLock self w = (false, w).
Proof.
  intros Hl. unfold acquireLock. rewrite Hl. simpl. rewrite <-Hl. by destruct w.
Qed.

Lemma withLock_loop_held {T} n self (fn : World → Result T * World) w info :
  lockFile w = Some (LockJson info) →
  clock w + retryDelayMs * Z.of_nat n - startedAt info ≤ LOCK_TTL_MS + retryDelayMs →
  withLock_loop n self fn w
  = (Err "Queue lock timeout.", set_clock (clock w + retryDelayMs * Z.of_nat n) w).
Proof.
  revert w. induction n as [|n IH]; intros w Hl Hage.
  - simpl. rewrite Z.mul_0_r, Z.add_0_r. by rewrite set_clock_id.
  - cbn [withLock_loop]. unfold retryDelayMs in *.
    rewrite (acquireLock_live self w info) by (done || lia).
    rewrite IH; [|done|simpl; lia].
    f_equal. destruct w; unfold set_clock; simpl. f_equal. lia.
Qed.

(** C8.  When the lock file exists with a recorded start time, an
    acquirer takes it over (unlinks it, acquires on the retry and records
    itself) exactly when the recorded age exceeds the TTL of ten minutes; a
    lock not older than that is left alone and acquisition reports
    failure.  Two levels of the recursion always suffice.  When the lock
    stays live over all twenty attempts, [withLock] waits 100 ms after
    each of them, never runs its function and fails with the timeout
    error. *)
Theorem lock_reclaimed_iff_expired (self : Z) (w : World) (info : LockInfo) :
  lockFile w = Some (LockJson info) →
  ((acquireLock self w).1 = true ↔ clock w - startedAt info > LOCK_TTL_MS)
  ∧ (clock w - startedAt info > LOCK_TTL_MS →
       acquireLock self w
       = (true, set_lockFile (Some (LockJson (mkLock self (clock w)))) w))
  ∧ (clock w - startedAt info ≤ LOCK_TTL_MS → acquireLock self w = (false, w))
  ∧ (∀ fuel, (2 ≤ fuel)%nat →
       acquireLock_fuel fuel self (clock w) (lockFile w)
       = Some ((acquireLock self w).1, lockFile (acquireLock self w).2))
  ∧ (∀ T (fn : World → Result T * World),
       clock w + retryDelayMs * (Z.of_nat maxRetries - 1) - startedAt info ≤ LOCK_TTL_MS →
       withLock self fn w
       = (Err "Queue lock timeout.",
          set_clock (clock w + retryDelayMs * Z.of_nat maxRetries) w)).
Proof.
  intros Hl.
  destruct (Z_le_gt_dec (clock w - startedAt info) LOCK_TTL_MS) as [Hlive|Hexp].
  - pose proof (acquireLock_live self w info Hl Hlive) as Ha.
    split; [rewrite Ha; simpl; split; [done|lia]|].
    split; [lia|]. split; [done|]. split.
    + intros fuel Hf. rewrite acquireLock_fuel_enough by done.
      rewrite Ha. simpl. rewrite Hl. simpl.
      by rewrite bool_decide_false by lia.
    + intros T fn Hage. apply (withLock_loop_held _ _ _ _ info); [done|].
      unfold retryDelayMs, maxRetries in *. lia.
  - pose proof (acquireLock_expired self w info Hl Hexp) as Ha.
    split; [rewrite Ha; simpl; split; [lia|done]|].
    split; [done|]. split; [lia|]. split.
    + intros fuel Hf. rewrite acquireLock_fuel_enough by done.
      rewrite Ha. simpl. rewrite Hl. simpl.
      by rewrite bool_decide_true by lia.
    + intros T fn Hage. unfold retryDelayMs, maxRetries in *. lia.
Qed.

Lemma lock_reclaimed_iff_expired_witness :
  acquireLock 42 (locked_world 700000 0)
  = (true, set_lockFile (Some (LockJson (mkLock 42 700000))) (locked_world 700000 0))
  ∧ acquireLock 42 (locked_world 600000 0) = (false, locked_world 600000 0)
  ∧ withLock 42 (on_queue (claimNextJob_cs "t1")) (locked_world 500000 0)
    = (Err "Queue lock timeout.", set_clock 502000 (locked_world 500000 0)).
Proof.
  split; [|split].
  - apply (lock_reclaimed_iff_expired 42 (locked_world 700000 0) (mkLock 7 0)).
    + reflexivity.
    + unfold LOCK_TTL_MS. simpl. lia.
  - apply (lock_reclaimed_iff_expired 42 (locked_world 600000 0) (mkLock 7 0)).
    + reflexivity.
    + unfold LOCK_TTL_MS. simpl. lia.
  - apply (lock_reclaimed_iff_expired 42 (locked_world 500000 0) (mkLock 7 0)).
    + reflexivity.
    + unfold LOCK_TTL_MS, retryDelayMs, maxRetries. simpl. lia.
Defined.

End QueueProperties.

(* ===================================================================== *)
(** ** Properties of the chunk stores                                      *)
(* ===================================================================== *)

Section StoreProperties.
Import Storage StoreSpec Samples.

Lemma seqZ_to_nat m len : seqZ m len = seqZ m (Z.of_nat (Z.to_nat len)).
Proof. unfold seqZ. by rewrite Nat2Z.id. Qed.

Lemma seqZ_S m (n : nat) : seqZ m (Z.of_nat (S n)) = m :: seqZ (m + 1) (Z.of_nat n).
Proof. rewrite seqZ_cons by lia. f_equal. f_equal; lia. Qed.

(** *** The two stores agree *)

Lemma getChunkManifest_agree rid d :
  FilesTs.getChunkManifest rid d = FilesJs.getChunkManifest rid d.
Proof.
  unfold FilesTs.getChunkManifest, FilesJs.getChunkManifest.
  by destruct (chunks d !! rid).
Qed.

Lemma updateChunkManifest_agree now rid sequence mime d :
  FilesTs.updateChunkManifest now rid sequence mime d
  = FilesJs.updateChunkManifest now rid sequence mime d.
Proof.
  unfold FilesTs.updateChunkManifest, FilesJs.updateChunkManifest,
    FilesJs.getChunkManifest, add_sequence.
  destruct (chunks d !! rid) as [dir|]; simpl; [destruct (manifest_json dir)|]; done.
Qed.

Lemma saveChunk_agree now rid sequence buffer d :
  (FilesTs.saveChunk now rid sequence buffer d).1
  = FilesJs.saveChunk now rid sequence buffer d.
Proof.
  unfold FilesTs.saveChunk, FilesJs.saveChunk, FilesTs.ensureChunkDirectory,
    FilesJs.ensureChunkDirectory, chunkFileName.
  destruct (write_chunk _ _ _ _) as [[[]|e] d1]; [|done].
  rewrite updateChunkManifest_agree.
  by destruct (FilesJs.updateChunkManifest _ _ _ _ _).
Qed.

Lemma missing_from_foldl rcv n i acc :
  FilesTs.missing_from rcv n i acc
  = foldl (λ missing i, if bool_decide (i ∈ rcv) then missing else missing ++ [i])
          acc (seqZ i (Z.of_nat n)).
Proof.
  revert i acc. induction n as [|n IH]; intros i acc; [done|].
  rewrite seqZ_S. cbn [FilesTs.missing_from foldl].
  case_bool_decide; apply IH.
Qed.

Lemma findMissingChunks_agree rid expectedTotal d :
  FilesTs.findMissingChunks rid expectedTotal d
  = FilesJs.findMissingChunks rid expectedTotal d.
Proof.
  unfold FilesTs.findMissingChunks, FilesJs.findMissingChunks, range.
  rewrite getChunkManifest_agree.
  destruct (FilesJs.getChunkManifest rid d) as [m|]; [|done].
  by rewrite missing_from_foldl, <-seqZ_to_nat.
Qed.

Lemma read_from_loop rid d n i acc :
  (FilesTs.read_from rid d n i acc).1
  = FilesJs.read_loop rid d (seqZ i (Z.of_nat n)) acc.
Proof.
  revert i acc. induction n as [|n IH]; intros i acc; [done|].
  rewrite seqZ_S. cbn [FilesTs.read_from FilesJs.read_loop].
  fold (chunkFileName i).
  destruct (read_chunk rid (chunkFileName i) d); [apply IH|done].
Qed.

Lemma assembleChunks_agree rid total mime d :
  (FilesTs.assembleChunks rid total mime d).1
  = FilesJs.assembleChunks rid total mime d.
Proof.
  unfold FilesTs.assembleChunks, FilesJs.assembleChunks, range.
  fold (extensionOf mime).
  pose proof (read_from_loop rid d (Z.to_nat total) 0 []) as Hr.
  rewrite <-seqZ_to_nat in Hr.
  destruct (FilesTs.read_from rid d (Z.to_nat total) 0 []) as [r logs].
  simpl in Hr. rewrite <-Hr.
  destruct r as [bufs|e]; [|done].
  by destruct (write_audio _ _ d) as [[[]|e] d1].
Qed.

(** C10.  The CommonJS store and the TypeScript store compute the same:
    for every input their [saveChunk], [updateChunkManifest],
    [getChunkManifest], [findMissingChunks] and [assembleChunks] return the
    same result and leave the same files, manifests and artifacts; the
    TypeScript store only logs in addition. *)
Theorem chunk_stores_agree (now : Z) (rid : string) (sequence : Z) (buffer : Buffer)
    (mime : string) (total : Z) (d : Disk) :
  (FilesTs.saveChunk now rid sequence buffer d).1
  = FilesJs.saveChunk now rid sequence buffer d
  ∧ FilesTs.updateChunkManifest now rid sequence mime d
    = FilesJs.updateChunkManifest now rid sequence mime d
  ∧ FilesTs.getChunkManifest rid d = FilesJs.getChunkManifest rid d
  ∧ FilesTs.findMissingChunks rid total d = FilesJs.findMissingChunks rid total d
  ∧ (FilesTs.assembleChunks rid total mime d).1
    = FilesJs.assembleChunks rid total mime d.
Proof.
  split; [apply saveChunk_agree|].
  split; [apply updateChunkManifest_agree|].
  split; [apply getChunkManifest_agree|].
  split; [apply findMissingChunks_agree|].
  apply assembleChunks_agree.
Qed.

(** *** Gap queries *)

Lemma foldl_push_filter (P : Z → Prop) `{∀ i, Decision (P i)} (l acc : list Z) :
  foldl (λ missing i, if bool_decide (P i) then missing else missing ++ [i]) acc l
  = acc ++ filter (λ i, ¬ P i) l.
Proof.
  revert acc. induction l as [|i l IH]; intros acc; simpl.
  - by rewrite app_nil_r.
  - rewrite IH, filter_cons. case_bool_decide.
    + by rewrite decide_False by tauto.
    + rewrite decide_True by done. by rewrite <-app_assoc.
Qed.

Lemma filter_all {A} (P : A → Prop) `{∀ x, Decision (P x)} (l : list A) :
  (∀ x, x ∈ l → P x) → filter P l = l.
Proof.
  intros Hall. induction l as [|x l IH]; [done|].
  rewrite filter_cons, decide_True by (apply Hall; by left).
  f_equal. apply IH. intros y Hy. apply Hall. by right.
Qed.

Lemma filter_none {A} (P : A → Prop) `{∀ x, Decision (P x)} (l : list A) :
  (∀ x, x ∈ l → ¬ P x) → filter P l = [].
Proof.
  intros Hnone. induction l as [|x l IH]; [done|].
  rewrite filter_cons, decide_False by (apply Hnone; by left).
  apply IH. intros y Hy. apply Hnone. by right.
Qed.

Lemma findMissingChunks_filter rid expectedTotal d :
  FilesJs.findMissingChunks rid expectedTotal d
  = filter (λ i, i ∉ received rid d) (seqZ 0 expectedTotal).
Proof.
  unfold FilesJs.findMissingChunks, received, range.
  destruct (FilesJs.getChunkManifest rid d) as [m|].
  - by rewrite (foldl_push_filter (λ i, i ∈ receivedSequences m)).
  - symmetry. apply filter_all. intros x _. apply not_elem_of_nil.
Qed.

Lemma StronglySorted_seqZ m len : StronglySorted Z.lt (seqZ m len).
Proof.
  rewrite seqZ_to_nat. generalize (Z.to_nat len) as n. intros n. revert m.
  induction n as [|n IH]; intros m; [constructor|].
  rewrite seqZ_S. constructor; [apply IH|].
  apply Forall_forall. intros x Hx. apply elem_of_seqZ in Hx. lia.
Qed.

Lemma StronglySorted_filter_lt (P : Z → Prop) `{∀ x, Decision (P x)} (l : list Z) :
  StronglySorted Z.lt l → StronglySorted Z.lt (filter P l).
Proof.
  induction 1 as [|x l Hs IH Hall]; [constructor|].
  rewrite filter_cons. case_decide; [|done].
  constructor; [done|].
  apply Forall_forall. intros y Hy. apply list_elem_of_filter in Hy as [_ Hy].
  rewrite Forall_forall in Hall. by apply Hall.
Qed.

(** *** Saving chunks *)

Lemma elem_of_add_sequence x sequence rcv :
  x ∈ add_sequence sequence rcv ↔ x = sequence ∨ x ∈ rcv.
Proof.
  unfold add_sequence. case_bool_decide as Hin.
  - split; [auto|]. intros [->|?]; done.
  - rewrite merge_sort_Permutation, elem_of_app, list_elem_of_singleton. tauto.
Qed.

Lemma getChunkManifest_mkdir rid d :
  FilesJs.getChunkManifest rid (mkdir_chunkDir rid d) = FilesJs.getChunkManifest rid d.
Proof.
  unfold FilesJs.getChunkManifest, mkdir_chunkDir.
  destruct (chunks d !! rid) eqn:Hd; simpl; [by rewrite Hd|].
  by rewrite lookup_insert_eq.
Qed.

Lemma write_chunk_manifest rid filename buffer d d' :
  write_chunk rid filename buffer d = (Ok tt, d') →
  FilesJs.getChunkManifest rid d' = FilesJs.getChunkManifest rid d
  ∧ write_fails d' = write_fails d
  ∧ is_Some (chunks d' !! rid).
Proof.
  unfold write_chunk, FilesJs.getChunkManifest.
  destruct (write_fails d _); [done|].
  destruct (chunks d !! rid) as [dir|] eqn:Hd; [|done].
  intros [= <-]. simpl. rewrite lookup_insert_eq. simpl. eauto.
Qed.

Lemma saveChunk_received now rid sequence buffer d d' :
  FilesJs.saveChunk now rid sequence buffer d = (Ok tt, d') →
  received rid d' = add_sequence sequence (received rid d).
Proof.
  unfold FilesJs.saveChunk, FilesJs.ensureChunkDirectory.
  destruct (write_chunk _ _ _ _) as [[[]|e] d1] eqn:Hw; [|done].
  apply write_chunk_manifest in Hw as (Hm & _ & [dir Hdir]).
  rewrite getChunkManifest_mkdir in Hm.
  unfold FilesJs.updateChunkManifest, write_manifest.
  destruct (write_fails d1 _); [done|]. rewrite Hdir.
  intros [= <-]. unfold received. rewrite Hm.
  unfold FilesJs.getChunkManifest at 1. simpl. rewrite lookup_insert_eq. simpl.
  by destruct (FilesJs.getChunkManifest rid d).
Qed.

Lemma saveChunk_writable now rid sequence buffer d :
  writable d →
  ∃ d', FilesJs.saveChunk now rid sequence buffer d = (Ok tt, d') ∧ writable d'.
Proof.
  intros Hw. unfold FilesJs.saveChunk, FilesJs.ensureChunkDirectory.
  assert (Hd1 : ∃ dir, chunks (mkdir_chunkDir rid d) !! rid = Some dir
                       ∧ write_fails (mkdir_chunkDir rid d) = write_fails d).
  { unfold mkdir_chunkDir. destruct (chunks d !! rid) as [dir|] eqn:Hd; [eauto|].
    eexists. simpl. by rewrite lookup_insert_eq. }
  destruct Hd1 as (dir & Hdir & Hwf).
  unfold write_chunk. rewrite Hwf, Hw, Hdir.
  unfold FilesJs.updateChunkManifest, write_manifest. simpl.
  rewrite Hwf, Hw, lookup_insert_eq. eexists. split; [done|].
  intros p. simpl. rewrite Hwf. apply Hw.
Qed.

Lemma save_all_received rid deliveries d d' :
  save_all rid deliveries d = (Ok tt, d') →
  ∀ x, x ∈ received rid d' ↔ x ∈ (sequence_of <$> deliveries) ∨ x ∈ received rid d.
Proof.
  revert d. induction deliveries as [|[[now sequence] buffer] rest IH]; intros d Hs x.
  - injection Hs as <-. rewrite fmap_nil, elem_of_nil. tauto.
  - cbn [save_all] in Hs.
    pose proof (saveChunk_agree now rid sequence buffer d) as Hag.
    destruct (FilesTs.saveChunk now rid sequence buffer d) as [[[[]|e] d1] logs];
      [|done].
    simpl in Hag. symmetry in Hag. apply saveChunk_received in Hag.
    rewrite (IH _ Hs), Hag, elem_of_add_sequence, fmap_cons, elem_of_cons.
    unfold sequence_of at 2. simpl. tauto.
Qed.

Lemma save_all_writable rid deliveries d :
  writable d → ∃ d', save_all rid deliveries d = (Ok tt, d').
Proof.
  revert d. induction deliveries as [|[[now sequence] buffer] rest IH]; intros d Hw.
  - by eexists.
  - cbn [save_all].
    pose proof (saveChunk_agree now rid sequence buffer d) as Hag.
    destruct (saveChunk_writable now rid sequence buffer d Hw) as (d1 & Hs & Hw1).
    rewrite Hs in Hag.
    destruct (FilesTs.saveChunk now rid sequence buffer d) as [[r d1'] logs].
    simpl in Hag. injection Hag as -> ->. by apply IH.
Qed.

(** C5.  [findMissingChunks] returns exactly the integers of
    [0, expectedTotal) that the manifest's received set lacks (all of them
    when there is no manifest), in ascending order.  After [saveChunk] has
    succeeded for a series of deliveries whose sequences cover
    [0, expectedTotal) - any permutation of them, duplicates and further
    sequences allowed - nothing is missing; and on a disk that refuses no
    write every delivery does succeed. *)
Theorem missing_chunks_exact (rid : string) (expectedTotal : Z) (d : Disk) :
  FilesTs.findMissingChunks rid expectedTotal d
  = filter (λ i, i ∉ received rid d) (seqZ 0 expectedTotal)
  ∧ StronglySorted Z.lt (FilesTs.findMissingChunks rid expectedTotal d)
  ∧ (∀ i, i ∈ FilesTs.findMissingChunks rid expectedTotal d
          ↔ 0 ≤ i < expectedTotal ∧ i ∉ received rid d)
  ∧ (∀ deliveries,
       seqZ 0 expectedTotal ⊆ sequence_of <$> deliveries →
       (writable d → ∃ d', save_all rid deliveries d = (Ok tt, d'))
       ∧ ∀ d', save_all rid deliveries d = (Ok tt, d') →
               FilesTs.findMissingChunks rid expectedTotal d' = []).
Proof.
  rewrite findMissingChunks_agree, findMissingChunks_filter.
  split; [done|]. split; [apply StronglySorted_filter_lt, StronglySorted_seqZ|].
  split.
  - intros i. rewrite list_elem_of_filter, elem_of_seqZ.
    split; intros [? ?]; split; (done || lia).
  - intros deliveries Hcover. split; [apply save_all_writable|].
    intros d' Hs. rewrite findMissingChunks_agree, findMissingChunks_filter.
    apply filter_none. intros i Hi Hnot. apply Hnot.
    apply (save_all_received _ _ _ _ Hs). left. by apply Hcover.
Qed.

Lemma covers_0_2_1 : seqZ 0 3 ⊆ sequence_of <$> deliveries_0_2_1.
Proof.
  intros x Hx. apply elem_of_seqZ in Hx.
  assert (x = 0 ∨ x = 1 ∨ x = 2) as [-> | [-> | ->]] by lia;
    unfold deliveries_0_2_1, sequence_of; simpl; rewrite !elem_of_cons; auto.
Defined.

Lemma missing_chunks_exact_witness :
  FilesTs.findMissingChunks "R" 3 three_chunks = []
  ∧ ∃ d', save_all "R" deliveries_0_2_1 empty_disk = (Ok tt, d').
Proof.
  split.
  - apply (missing_chunks_exact "R" 3 empty_disk) with (deliveries := deliveries_0_2_1).
    + exact covers_0_2_1.
    + vm_compute. reflexivity.
  - apply (missing_chunks_exact "R" 3 empty_disk).
    + exact covers_0_2_1.
    + intros p. reflexivity.
Defined.

Example gap_reported : FilesTs.findMissingChunks "R" 3 gap_at_1 = [1].
Proof. vm_compute. reflexivity. Qed.

(** *** Assembly *)

Lemma read_loop_present rid d l acc :
  Forall (chunk_present rid d) l →
  FilesJs.read_loop rid d l acc = Ok (acc ++ (chunk_bytes rid d <$> l)).
Proof.
  revert acc. induction l as [|i l IH]; intros acc Hall; simpl.
  - by rewrite app_nil_r.
  - inversion Hall as [|? ? [b Hb] Hrest]; subst.
    unfold chunk_bytes at 1. rewrite Hb. simpl.
    rewrite IH by done. by rewrite <-app_assoc.
Qed.

Lemma read_loop_absent rid d l1 k l2 acc :
  Forall (chunk_present rid d) l1 → ¬ chunk_present rid d k →
  FilesJs.read_loop rid d (l1 ++ k :: l2) acc = Err ("Missing chunk " +:+ pretty k).
Proof.
  revert acc. induction l1 as [|i l1 IH]; intros acc Hall Hk; simpl.
  - destruct (read_chunk rid (chunkFileName k) d) eqn:Hr; [|done].
    destruct Hk. by eexists.
  - inversion Hall as [|? ? [b Hb] Hrest]; subst. rewrite Hb. by apply IH.
Qed.

Lemma seqZ_split total k :
  0 ≤ k < total → seqZ 0 total = seqZ 0 k ++ k :: seqZ (k + 1) (total - k - 1).
Proof.
  intros Hk. replace total with (k + (total - k)) at 1 by lia.
  rewrite seqZ_app by lia. f_equal.
  rewrite seqZ_cons by lia; repeat f_equal; lia.
Qed.

Lemma Forall_seqZ (P : Z → Prop) m len :
  (∀ i, m ≤ i < m + len → P i) → Forall P (seqZ m len).
Proof. intros H. apply Forall_forall. intros i Hi%elem_of_seqZ. by apply H. Qed.

Lemma first_absent rid d total :
  (∃ i, 0 ≤ i < total ∧ ¬ chunk_present rid d i) →
  ∃ k, 0 ≤ k < total ∧ ¬ chunk_present rid d k
       ∧ ∀ i, 0 ≤ i < k → chunk_present rid d i.
Proof.
  intros (i0 & Hi0 & Habs).
  destruct (list_find (λ i, ¬ chunk_present rid d i) (seqZ 0 total)) as [[j k]|] eqn:Hf.
  - apply list_find_Some in Hf as (Hj & Hk & Hbefore).
    apply lookup_seqZ in Hj as [-> Hlt].
    exists (0 + Z.of_nat j). split; [lia|]. split; [done|].
    intros i Hi. destruct (decide (chunk_present rid d i)) as [|Hn]; [done|].
    destruct (Hbefore (Z.to_nat i) i); [apply lookup_seqZ; lia|lia|done].
  - apply list_find_None in Hf. rewrite Forall_forall in Hf.
    destruct (Hf i0); [apply elem_of_seqZ; lia|done].
Qed.

Lemma assembleChunks_absent rid total mime d k :
  0 ≤ k < total → ¬ chunk_present rid d k →
  (∀ i, 0 ≤ i < k → chunk_present rid d i) →
  FilesJs.assembleChunks rid total mime d = (Err ("Missing chunk " +:+ pretty k), d).
Proof.
  intros Hk Habs Hbefore. unfold FilesJs.assembleChunks, range.
  rewrite (seqZ_split total k Hk).
  rewrite read_loop_absent; [done| |done].
  apply Forall_seqZ. intros i Hi. apply Hbefore. lia.
Qed.

(** C4.  [assembleChunks] reads the chunks [0 .. totalChunks - 1] in
    ascending order.  When one of them is absent it fails with the error
    "Missing chunk k" for the first absent index [k] and changes nothing
    on disk: no artifact is written and the staging directory stays.
    When all are present and the artifact can be written, the artifact
    holds exactly the chunks' bytes concatenated in sequence order, the
    staging directory is removed and the public path is returned; when
    the write of the artifact fails, the error is passed on and the
    staging directory stays. *)
Theorem assemble_all_or_nothing (rid : string) (total : Z) (mime : string) (d : Disk) :
  let output := rid +:+ "." +:+ extensionOf mime in
  (∀ k, 0 ≤ k < total → ¬ chunk_present rid d k →
        (∀ i, 0 ≤ i < k → chunk_present rid d i) →
        (FilesTs.assembleChunks rid total mime d).1
        = (Err ("Missing chunk " +:+ pretty k), d))
  ∧ ((∃ i, 0 ≤ i < total ∧ ¬ chunk_present rid d i) →
       ∃ k, 0 ≤ k < total
            ∧ (FilesTs.assembleChunks rid total mime d).1
              = (Err ("Missing chunk " +:+ pretty k), d))
  ∧ ((∀ i, 0 ≤ i < total → chunk_present rid d i) →
       (write_fails d (AudioFile output) = false →
          (FilesTs.assembleChunks rid total mime d).1
          = (Ok ("/audio/" +:+ output),
             rm_chunkDir rid
               (set_audio (<[output := concat (chunk_bytes rid d <$> seqZ 0 total)]>
                             (audio d)) d)))
       ∧ (write_fails d (AudioFile output) = true →
          (FilesTs.assembleChunks rid total mime d).1 = (Err "EIO", d))).
Proof.
  intros output. rewrite assembleChunks_agree. split; [|split].
  - intros k Hk Habs Hbefore. by apply assembleChunks_absent.
  - intros Hex. destruct (first_absent rid d total Hex) as (k & Hk & Habs & Hbefore).
    exists k. split; [done|]. by apply assembleChunks_absent.
  - intros Hall. unfold FilesJs.assembleChunks, range. fold output.
    rewrite read_loop_present by (apply Forall_seqZ; intros i Hi; apply Hall; lia).
    rewrite app_nil_l. unfold write_audio.
    split; intros ->; done.
Qed.

Lemma three_chunks_present i : 0 ≤ i < 3 → chunk_present "R" three_chunks i.
Proof.
  intros Hi. assert (i = 0 ∨ i = 1 ∨ i = 2) as [-> | [-> | ->]] by lia;
    vm_compute; eauto.
Defined.

Lemma assemble_all_or_nothing_witness :
  (FilesTs.assembleChunks "R" 3 "audio/webm" three_chunks).1 = (Ok "/audio/R.webm", assembled)
  ∧ (FilesTs.assembleChunks "R" 3 "audio/webm" gap_at_1).1 = (Err "Missing chunk 1", gap_at_1).
Proof.
  split.
  - pose proof (assemble_all_or_nothing "R" 3 "audio/webm" three_chunks) as (_ & _ & H).
    destruct (H three_chunks_present) as [Hok _].
    rewrite Hok by reflexivity. vm_compute. reflexivity.
  - pose proof (assemble_all_or_nothing "R" 3 "audio/webm" gap_at_1) as (H & _ & _).
    rewrite (H 1).
    + reflexivity.
    + lia.
    + vm_compute. intros [b Hb]. discriminate Hb.
    + intros i Hi. assert (i = 0) as -> by lia. vm_compute. eauto.
Defined.

End StoreProperties.

(* ===================================================================== *)
(** ** Properties of the ingest session                                    *)
(* ===================================================================== *)

Section SessionProperties.
Import Queue QueueSpec Samples.

Example three_chunks_assemble :
  FilesJs.assembleChunks "R" 3 "audio/webm" three_chunks = (Ok "/audio/R.webm", assembled).
Proof. vm_compute. reflexivity. Qed.

Example three_chunks_none_missing :
  FilesJs.findMissingChunks "R" 3 three_chunks = [].
Proof. vm_compute. reflexivity. Qed.

Example out_of_order_session_replies :
  (λ sw, (Handler.outbox sw.1, Storage.audio (disk sw.2))) <$> out_of_order_session
  = Some ([Handler.ready "session_1" (-1); Handler.ack 0; Handler.missing [1];
           Handler.ack 2; Handler.ack 1; Handler.complete 3 "/audio/R.webm"],
          {["R.webm" := [Byte.x41; Byte.x42; Byte.x43]]}).
Proof. vm_compute. reflexivity. Qed.

(** With the dispatch of [handleMessage] as it is written, a frame that
    is a [Buffer] is taken as chunk data or kept as an unexpected payload,
    and any other frame is answered with [INVALID_FORMAT]: the [switch] on
    the message type is not reached. *)
Lemma handleMessage_dispatch JSON_parse fuel data s w :
  Handler.handleMessage JSON_parse (S fuel) data s w
  = Some match data with
         | Handler.IsBuffer b =>
             if Handler.awaitingChunkData (Handler.state s)
             then Handler.handleChunkData b s w
             else (Handler.bufferUnexpected b s, w)
         | Handler.NotBuffer _ =>
             (Handler.send (Handler.error "Invalid message format" "INVALID_FORMAT") s, w)
         end.
Proof.
  destruct data as [b|text]; simpl; [|done].
  by destruct (Handler.awaitingChunkData (Handler.state s)).
Qed.

(** *** A failed chunk save *)

(** C3, as the specification states it, fails.  Round R awaits the
    payload of chunk 0 and the disk refuses every write: [saveChunk]
    fails, the error frame is sent, and the session is still awaiting
    chunk 0. *)
Lemma save_failure_keeps_awaiting :
  FilesJs.saveChunk 1000 "R" 0 (payload Byte.x41) full_disk
  = (Err "EIO", Storage.mkdir_chunkDir "R" full_disk)
  ∧ ∃ s' w',
      Handler.handleMessage no_parser 1 (Handler.IsBuffer (payload Byte.x41))
                            (session_for "R" true (Some 0)) (sample_world "R" full_disk)
      = Some (s', w')
      ∧ Handler.outbox s' = [Handler.error "Failed to save chunk" "CHUNK_SAVE_ERROR"]
      ∧ Handler.awaitingChunkData (Handler.state s') = true
      ∧ Handler.pendingChunkSequence (Handler.state s') = Some 0.
Proof.
  split; [vm_compute; reflexivity|].
  eexists _, _. split; [vm_compute; reflexivity|]. simpl. done.
Qed.

(** C3, amended.  When the session awaits the payload of a sequence and
    persisting the payload fails, the server replies the typed error
    frame [CHUNK_SAVE_ERROR] and leaves the session state as it was: it
    still awaits that sequence.  A payload sent again is therefore stored
    under the same sequence and acknowledged, after which the awaiting
    state is cleared. *)
Theorem save_failure_reported (JSON_parse : string → option Handler.ClientMessage)
    (fuel : nat) (data : Buffer) (s : Handler.Session) (w : World) (rid : string)
    (sequence : Z) (e : string) (d' : Storage.Disk) :
  Handler.awaitingChunkData (Handler.state s) = true →
  Handler.pendingChunkSequence (Handler.state s) = Some sequence →
  Handler.roundId (Handler.state s) = Some rid →
  FilesJs.saveChunk (clock w) rid sequence data (disk w) = (Err e, d') →
  let s' := Handler.send (Handler.error "Failed to save chunk" "CHUNK_SAVE_ERROR") s in
  Handler.handleMessage JSON_parse (S fuel) (Handler.IsBuffer data) s w
  = Some (s', set_disk d' w)
  ∧ Handler.state s' = Handler.state s
  ∧ Handler.awaitingChunkData (Handler.state s') = true
  ∧ Handler.pendingChunkSequence (Handler.state s') = Some sequence
  ∧ ∀ data2 w2 d2,
      FilesJs.saveChunk (clock w2) rid sequence data2 (disk w2) = (Ok tt, d2) →
      ∃ s2,
        Handler.handleMessage JSON_parse (S fuel) (Handler.IsBuffer data2) s' w2
        = Some (s2, set_disk d2 w2)
        ∧ Handler.outbox s2 = Handler.outbox s' ++ [Handler.ack sequence]
        ∧ Handler.lastReceivedSequence (Handler.state s2) = sequence
        ∧ Handler.awaitingChunkData (Handler.state s2) = false
        ∧ Handler.pendingChunkSequence (Handler.state s2) = None.
Proof.
  intros Haw Hpend Hrid Hsave s'.
  split; [|split; [done|split; [done|split; [done|]]]].
  - rewrite handleMessage_dispatch, Haw. unfold Handler.handleChunkData.
    by rewrite Hpend, Hrid, Hsave.
  - intros data2 w2 d2 Hsave2. eexists. split.
    + rewrite handleMessage_dispatch. subst s'. simpl. rewrite Haw.
      unfold Handler.handleChunkData. simpl.
      rewrite Hpend, Hrid, Hsave2. reflexivity.
    + done.
Qed.

Lemma save_failure_reported_witness :
  Handler.handleMessage no_parser 1 (Handler.IsBuffer (payload Byte.x41))
                        (session_for "R" true (Some 0)) (sample_world "R" full_disk)
  = Some (Handler.send (Handler.error "Failed to save chunk" "CHUNK_SAVE_ERROR")
                       (session_for "R" true (Some 0)),
          set_disk (Storage.mkdir_chunkDir "R" full_disk) (sample_world "R" full_disk)).
Proof.
  apply (save_failure_reported no_parser 0 (payload Byte.x41)
           (session_for "R" true (Some 0)) (sample_world "R" full_disk) "R" 0 "EIO"
           (Storage.mkdir_chunkDir "R" full_disk));
    vm_compute; reflexivity.
Defined.

(** *** Completion *)

Lemma assembleChunks_path rid total mime d path d' :
  FilesJs.assembleChunks rid total mime d = (Ok path, d') →
  path = "/audio/" +:+ rid +:+ "." +:+ Storage.extensionOf mime.
Proof.
  unfold FilesJs.assembleChunks.
  destruct (FilesJs.read_loop _ _ _ _); [|done].
  destruct (Storage.write_audio _ _ _) as [[[]|?] ?]; by intros [= <- <-].
Qed.

Lemma POST_enqueues self cwd uuid now rid p w r q path :
  lockFile w = None → queueFile w = Some q →
  Rounds.getRound rid (Queue.rounds w) = Some r →
  Rounds.audio_file r = Some path → path ≠ "" →
  (∀ x, x ∈ jobs q → roundId x = rid → ¬ active x) →
  ∃ p' w' q',
    TranscribeRoute.POST self cwd uuid now rid p w
    = (TranscribeRoute.Queued rid uuid, p', w')
    ∧ queueFile w' = Some q'
    ∧ jobs q' !! length (jobs q)
      = Some (mkJob uuid rid
                (TranscribeRoute.public_path cwd (TranscribeRoute.strip_slash path))
                recording queued 0 now now None)
    ∧ round_status rid (Queue.rounds w') = Some Rounds.PROCESSING.
Proof.
  intros Hl Hq Hr Haudio Hpath Hnone.
  unfold TranscribeRoute.POST. rewrite Hr.
  unfold TranscribeRoute.find_audio. rewrite Haudio.
  apply String.eqb_neq in Hpath. rewrite Hpath.
  set (u := Rounds.mkRoundUpdate _ _ _ _ _).
  set (job := mkJob uuid rid _ recording queued 0 now now None).
  rewrite (enqueueTranscriptionJob_fresh _ _ _ _ _ q); [|done|done|done].
  simpl. fold job.
  assert (Hst : round_status rid (Rounds.updateRound rid u (Queue.rounds w)).2
                = Some Rounds.PROCESSING) by by eapply round_status_processing.
  unfold startTranscriptionWorker. destruct (workerStarted p).
  { eexists _, _, _. split; [reflexivity|]. simpl. split; [reflexivity|].
    simpl. split; [|done].
    by rewrite lookup_app_r, Nat.sub_diag by done. }
  unfold recover_step.
  edestruct (recoverQueue_free self now) as (q' & Hrec & Hjobs);
    [| |rewrite Hrec]; [done|reflexivity|].
  eexists _, _, _. split; [reflexivity|]. simpl. split; [reflexivity|]. split.
  - rewrite Hjobs. simpl. rewrite list_lookup_fmap.
    by rewrite lookup_app_r, Nat.sub_diag by done.
  - rewrite recover_round_status, decide_False; [exact Hst|].
    intros Hex. apply Exists_exists in Hex as (x & Hx & Hp & Hrid & _).
    simpl in Hx. apply elem_of_app in Hx as [Hx|Hx].
    + destruct (Hnone x Hx Hrid). by right.
    + apply list_elem_of_singleton in Hx. by subst x.
Qed.

(** C1, as the specification states it, fails.  Round R is streaming and
    its chunks 0, 1, 2 are stored.  After [handleComplete] for three
    chunks the reply [complete] has gone out and the round is visible as
    processing, while the queue document holds no job: the round shows a
    status other than streaming before any enqueue has succeeded. *)
Lemma completion_not_atomic :
  round_status "R" (Queue.rounds (sample_world "R" three_chunks)) = Some Rounds.STREAMING
  ∧ FilesJs.findMissingChunks "R" 3 three_chunks = []
  ∧ let '(s', w') := Handler.handleComplete 3 None (session_for "R" false None)
                                            (sample_world "R" three_chunks) in
    Handler.outbox s' = [Handler.complete 3 "/audio/R.webm"]
    ∧ Handler.triggered s' = ["R"]
    ∧ round_status "R" (Queue.rounds w') = Some Rounds.PROCESSING
    ∧ jobs (queue_of w') = []
    ∧ ¬ streaming_until_enqueued "R" w'.
Proof.
  split; [reflexivity|]. split; [vm_compute; reflexivity|].
  vm_compute. do 4 (split; [reflexivity|]).
  intros H. assert (Hne : Some Rounds.PROCESSING ≠ Some Rounds.STREAMING) by discriminate.
  specialize (H Hne). inversion H.
Qed.

(** C1, amended.  On a [complete] frame of an initialised session with
    no chunk missing and a successful assembly, [handleComplete] stores the
    artifact, marks the round processing with the artifact's path, replies
    [complete] with the chunk count and that path, and starts the
    transcription trigger without awaiting it.  Assembly leaves the rounds
    file alone, so the round keeps its status until assembly has
    succeeded; the round is then visible as processing while the queue
    document is still untouched.  The trigger, run on the resulting world
    with a free lock and no queued or processing job of the round, appends
    the round's job (queued, zero attempts, the artifact's path under
    [public]) and leaves the round processing. *)
Theorem complete_then_trigger (total : Z) (finalDuration : option Z)
    (s : Handler.Session) (w : World) (rid path : string) (d' : Storage.Disk)
    (r : Rounds.Round) :
  Handler.initialized (Handler.state s) = Some rid →
  FilesJs.findMissingChunks rid total (disk w) = [] →
  FilesJs.assembleChunks rid total (Handler.mimeType (Handler.state s)) (disk w)
  = (Ok path, d') →
  Rounds.getRound rid (Queue.rounds w) = Some r →
  let w' := updateRound rid (completion_update path finalDuration) (set_disk d' w) in
  Handler.handleComplete total finalDuration s w
  = (Handler.trigger rid (Handler.send (Handler.complete total path) s), w')
  ∧ round_status rid (Queue.rounds (set_disk d' w)) = round_status rid (Queue.rounds w)
  ∧ Rounds.getRound rid (Queue.rounds w')
    = Some (Rounds.merge r (completion_update path finalDuration))
  ∧ round_status rid (Queue.rounds w') = Some Rounds.PROCESSING
  ∧ queueFile w' = queueFile w
  ∧ ∀ self cwd uuid now p q,
      lockFile w = None → queueFile w = Some q →
      (∀ x, x ∈ jobs q → roundId x = rid → ¬ active x) →
      ∃ p'' w'' q'',
        Handler.triggerTranscription self cwd uuid now rid p w' = (p'', w'')
        ∧ queueFile w'' = Some q''
        ∧ jobs q'' !! length (jobs q)
          = Some (mkJob uuid rid
                    (TranscribeRoute.public_path cwd (TranscribeRoute.strip_slash path))
                    recording queued 0 now now None)
        ∧ round_status rid (Queue.rounds w'') = Some Rounds.PROCESSING.
Proof.
  intros Hinit Hmiss Hasm Hr w'.
  assert (Hget : Rounds.getRound rid (Queue.rounds w')
                 = Some (Rounds.merge r (completion_update path finalDuration))).
  { subst w'. unfold updateRound. simpl.
    by rewrite getRound_updateRound, decide_True, Hr by done. }
  split; [|split; [done|split; [done|split; [|split; [done|]]]]].
  - unfold Handler.handleComplete. by rewrite Hinit, Hmiss, Hasm.
  - unfold round_status. by rewrite Hget.
  - intros self cwd uuid now p q Hl Hq Hnone.
    apply assembleChunks_path in Hasm.
    edestruct (POST_enqueues self cwd uuid now rid p w') as (p'' & w'' & q'' & HP & ?);
      [exact Hl|exact Hq|exact Hget|reflexivity| |exact Hnone|].
    { rewrite Hasm. done. }
    exists p'', w'', q''. unfold Handler.triggerTranscription. by rewrite HP.
Qed.

Lemma complete_then_trigger_witness :
  Handler.handleComplete 3 None (session_for "R" false None) (sample_world "R" three_chunks)
  = (Handler.trigger "R"
       (Handler.send (Handler.complete 3 "/audio/R.webm") (session_for "R" false None)),
     updateRound "R" (completion_update "/audio/R.webm" None)
       (set_disk assembled (sample_world "R" three_chunks))).
Proof.
  apply (complete_then_trigger 3 None (session_for "R" false None)
           (sample_world "R" three_chunks) "R" "/audio/R.webm" assembled
           (sample_round "R" Rounds.STREAMING));
    vm_compute; reflexivity.
Defined.

Example trigger_enqueues :
  let w' := (Handler.handleComplete 3 None (session_for "R" false None)
                                    (sample_world "R" three_chunks)).2 in
  let w'' := (Handler.triggerTranscription 42 "/srv" "u1" "t1" "R" fresh_process w').2 in
  queueFile w''
  = Some (mkQueue [mkJob "u1" "R" "/srv/public/audio/R.webm" recording queued 0
                         "t1" "t1" None])
  ∧ round_status "R" (Queue.rounds w'') = Some Rounds.PROCESSING.
Proof. vm_compute. split; reflexivity. Qed.

End SessionProperties.

(* ===================================================================== *)
(** ** Further properties of the chunk store                               *)
(* ===================================================================== *)

Section StoreExtras.
Import Storage StoreSpec Samples.

Lemma string_length_app (s t : string) :
  String.length (s +:+ t) = (String.length s + String.length t)%nat.
Proof. induction s as [|c s IH]; simpl; [done|]. by rewrite IH. Qed.

Lemma string_app_inj_r (s1 s2 t : string) : s1 +:+ t = s2 +:+ t → s1 = s2.
Proof.
  revert s2. induction s1 as [|c s1 IH]; intros [|c2 s2] H.
  - done.
  - apply (f_equal String.length) in H.
    rewrite !string_length_app in H. simpl in H. lia.
  - apply (f_equal String.length) in H.
    rewrite !string_length_app in H. simpl in H. lia.
  - injection H as -> H. f_equal. by apply IH.
Qed.

Lemma strip_zeros_repeat n s : strip_zeros (repeat_char n "0" +:+ s) = strip_zeros s.
Proof. induction n as [|n IH]; simpl; [done|]. exact IH. Qed.

Lemma pretty_N_char_nonzero x : (0 < x < 10)%N → pretty_N_char x ≠ "0"%char.
Proof.
  intros Hx. unfold pretty_N_char.
  destruct x as [|p]; [lia|].
  do 4 (destruct p as [p|p|]; try done).
Qed.

Lemma pretty_N_go_head x s :
  (0 < x)%N → ∃ c s', pretty_N_go x s = String c s' ∧ c ≠ "0"%char.
Proof.
  revert s. induction (N.lt_wf_0 x) as [x _ IH]; intros s Hx.
  rewrite pretty_N_go_step by done.
  destruct (decide (x `div` 10 = 0)%N) as [Hz|Hnz].
  - rewrite Hz, pretty_N_go_0. eexists _, _. split; [done|].
    apply pretty_N_char_nonzero.
    assert (x < 10)%N by (apply N.div_small_iff; [lia|done]).
    rewrite N.mod_small by done. lia.
  - apply IH; [apply N.div_lt; lia|]. by apply N.neq_0_lt_0.
Qed.

Lemma strip_zeros_pretty (x : Z) :
  strip_zeros (pretty x) = if decide (x = 0) then "" else pretty x.
Proof.
  destruct x as [|p|p]; [done| |done].
  rewrite decide_False by done.
  change (pretty (Z.pos p)) with (pretty_N_go (N.pos p) "").
  destruct (pretty_N_go_head (N.pos p) "") as (c & s' & -> & Hc); [lia|].
  simpl. destruct c as [[] [] [] [] [] [] [] []]; try done.
Qed.

Lemma pretty_Z_nonempty (x : Z) : pretty x ≠ "".
Proof.
  destruct x as [|p|p]; [done| |done].
  change (pretty (Z.pos p)) with (pretty_N_go (N.pos p) "").
  by destruct (pretty_N_go_head (N.pos p) "") as (c & s' & -> & _).
Qed.

Lemma padStart_pretty_inj n (a b : Z) :
  padStart n "0" (pretty a) = padStart n "0" (pretty b) → a = b.
Proof.
  unfold padStart. intros H. apply (f_equal strip_zeros) in H.
  rewrite !strip_zeros_repeat, !strip_zeros_pretty in H.
  repeat case_decide; subst; try done.
  - by destruct (pretty_Z_nonempty b).
  - by destruct (pretty_Z_nonempty a).
  - by apply (inj pretty).
Qed.

Lemma chunkFileName_inj (a b : Z) : chunkFileName a = chunkFileName b → a = b.
Proof.
  unfold chunkFileName. intros H%string_app_inj_r. by eapply padStart_pretty_inj.
Qed.


(** What a successful [saveChunk] leaves on disk. *)
Lemma saveChunk_disk now rid sequence buffer d d' :
  FilesJs.saveChunk now rid sequence buffer d = (Ok tt, d') →
  ∃ dir',
    chunks d' = <[rid := dir']> (chunks d)
    ∧ entries dir' = <[chunkFileName sequence := buffer]>
                       (default ∅ (entries <$> chunks d !! rid))
    ∧ audio d' = audio d ∧ transcriptions d' = transcriptions d
    ∧ write_fails d' = write_fails d.
Proof.
  unfold FilesJs.saveChunk, FilesJs.ensureChunkDirectory, write_chunk.
  destruct (write_fails (mkdir_chunkDir rid d) _) eqn:Hwf; [done|].
  assert (Hmk : ∃ dir, chunks (mkdir_chunkDir rid d) !! rid = Some dir
                       ∧ entries dir = default ∅ (entries <$> chunks d !! rid)
                       ∧ <[rid := dir]> (chunks d) = chunks (mkdir_chunkDir rid d)).
  { unfold mkdir_chunkDir. destruct (chunks d !! rid) as [dir|] eqn:Hd.
    - exists dir. rewrite Hd. by rewrite insert_id.
    - eexists. simpl. by rewrite lookup_insert_eq. }
  destruct Hmk as (dir & Hdir & Hent & Hch). rewrite Hdir.
  unfold FilesJs.updateChunkManifest, write_manifest. simpl.
  destruct (write_fails (mkdir_chunkDir rid d) (ManifestFile rid)); [done|].
  rewrite lookup_insert_eq. intros [= <-]. simpl.
  eexists (mkChunkDir _ _). split; [|split].
  - rewrite insert_insert_eq, <-Hch. by rewrite insert_insert_eq.
  - simpl. by rewrite Hent.
  - unfold mkdir_chunkDir. by destruct (chunks d !! rid).
Qed.

Lemma saveChunk_read now rid sequence buffer d d' rid' j :
  FilesJs.saveChunk now rid sequence buffer d = (Ok tt, d') →
  read_chunk rid' (chunkFileName j) d'
  = if decide (rid' = rid ∧ j = sequence) then Some buffer
    else read_chunk rid' (chunkFileName j) d.
Proof.
  intros (dir' & Hch & Hent & _)%saveChunk_disk. unfold read_chunk. rewrite Hch.
  destruct (decide (rid' = rid)) as [->|Hr].
  - rewrite lookup_insert_eq. simpl. rewrite Hent.
    destruct (decide (j = sequence)) as [->|Hj].
    + rewrite decide_True by done. by rewrite lookup_insert_eq.
    + rewrite decide_False by tauto.
      rewrite lookup_insert_ne by (intros ?%chunkFileName_inj; done).
      by destruct (chunks d !! rid).
  - rewrite lookup_insert_ne by done. by rewrite decide_False by tauto.
Qed.

(** X2.  After [saveChunk] has fulfilled, the chunk file of that sequence
    holds the payload, every other chunk file of this and of any other
    round reads as before, the received set has gained exactly that
    sequence, and the audio and transcript directories are as they were. *)
Theorem saved_chunk_read_back (now : Z) (rid : string) (sequence : Z) (buffer : Buffer)
    (d d' : Disk) (logs : list FilesTs.LogEntry) :
  FilesTs.saveChunk now rid sequence buffer d = (Ok tt, d', logs) →
  read_chunk rid (chunkFileName sequence) d' = Some buffer
  ∧ (∀ rid' j, ¬ (rid' = rid ∧ j = sequence) →
       read_chunk rid' (chunkFileName j) d' = read_chunk rid' (chunkFileName j) d)
  ∧ (∀ x, x ∈ received rid d' ↔ x = sequence ∨ x ∈ received rid d)
  ∧ audio d' = audio d ∧ transcriptions d' = transcriptions d.
Proof.
  intros Hs. pose proof (saveChunk_agree now rid sequence buffer d) as Hag.
  rewrite Hs in Hag. simpl in Hag. symmetry in Hag.
  split; [|split; [|split]].
  - rewrite (saveChunk_read _ _ _ _ _ _ _ _ Hag). by rewrite decide_True.
  - intros rid' j Hne. rewrite (saveChunk_read _ _ _ _ _ _ _ _ Hag).
    by rewrite decide_False.
  - intros x. rewrite (saveChunk_received _ _ _ _ _ _ Hag). apply elem_of_add_sequence.
  - apply saveChunk_disk in Hag as (dir' & _ & _ & ? & ? & _). done.
Qed.

Lemma saved_chunk_read_back_witness :
  read_chunk "R" (chunkFileName 7) (FilesTs.saveChunk 5 "R" 7 (payload Byte.x41) empty_disk).1.2
  = Some (payload Byte.x41).
Proof.
  apply (saved_chunk_read_back 5 "R" 7 (payload Byte.x41) empty_disk _
           [FilesTs.mkLog FilesTs.INFO "Chunk saved"]).
  vm_compute. reflexivity.
Defined.

Lemma save_all_read rid deliveries d d' j :
  save_all rid deliveries d = (Ok tt, d') →
  read_chunk rid (chunkFileName j) d'
  = match last_payload deliveries j with
    | Some b => Some b
    | None => read_chunk rid (chunkFileName j) d
    end.
Proof.
  revert d. induction deliveries as [|[[now sequence] buffer] rest IH]; intros d Hs.
  - by injection Hs as <-.
  - cbn [save_all] in Hs.
    pose proof (saveChunk_agree now rid sequence buffer d) as Hag.
    destruct (FilesTs.saveChunk now rid sequence buffer d) as [[[[]|e] d1] logs];
      [|done].
    simpl in Hag. symmetry in Hag.
    rewrite (IH _ Hs). cbn [last_payload].
    destruct (last_payload rest j); [done|].
    rewrite (saveChunk_read _ _ _ _ _ _ _ _ Hag).
    destruct (decide (sequence = j)) as [->|Hne].
    + by rewrite decide_True.
    + by rewrite decide_False by (intros [_ ->]; done).
Qed.

Lemma last_payload_covered deliveries i :
  i ∈ sequence_of <$> deliveries → is_Some (last_payload deliveries i).
Proof.
  induction deliveries as [|[[now sequence] buffer] rest IH]; intros Hin.
  - by apply elem_of_nil in Hin.
  - cbn [last_payload]. rewrite fmap_cons in Hin. apply elem_of_cons in Hin as [->|Hin].
    + destruct (last_payload rest _); [by eexists|].
      unfold sequence_of. simpl. rewrite decide_True by done. by eexists.
    + destruct (IH Hin) as [b ->]. by eexists.
Qed.

Lemma save_all_write_fails rid deliveries d d' :
  save_all rid deliveries d = (Ok tt, d') → write_fails d' = write_fails d.
Proof.
  revert d. induction deliveries as [|[[now sequence] buffer] rest IH]; intros d Hs.
  - by injection Hs as <-.
  - cbn [save_all] in Hs.
    pose proof (saveChunk_agree now rid sequence buffer d) as Hag.
    destruct (FilesTs.saveChunk now rid sequence buffer d) as [[[[]|e] d1] logs];
      [|done].
    simpl in Hag. symmetry in Hag.
    rewrite (IH _ Hs). by apply saveChunk_disk in Hag as (dir' & _ & _ & _ & _ & ?).
Qed.

(** X3.  On a disk that refuses no write, chunks delivered in any order,
    with repetitions, that cover [0 .. total - 1] are all stored, and
    [assembleChunks] then writes the artifact made of the chunks in
    sequence order, each with the payload of its last delivery, and
    removes the staging directory. *)
Theorem assembled_in_sequence_order (rid : string) (total : Z) (mime : string)
    (deliveries : list (Z * Z * Buffer)) (d : Disk) :
  writable d →
  seqZ 0 total ⊆ sequence_of <$> deliveries →
  ∃ d1 d2,
    save_all rid deliveries d = (Ok tt, d1)
    ∧ (FilesTs.assembleChunks rid total mime d1).1
      = (Ok ("/audio/" +:+ rid +:+ "." +:+ extensionOf mime), d2)
    ∧ audio d2 !! (rid +:+ "." +:+ extensionOf mime)
      = Some (concat ((λ i, default [] (last_payload deliveries i)) <$> seqZ 0 total))
    ∧ chunks d2 !! rid = None.
Proof.
  intros Hw Hcover.
  destruct (save_all_writable rid deliveries d Hw) as (d1 & Hs).
  pose proof (save_all_write_fails _ _ _ _ Hs) as Hwf.
  assert (Hpresent : ∀ i, 0 ≤ i < total → chunk_present rid d1 i).
  { intros i Hi. unfold chunk_present. rewrite (save_all_read _ _ _ _ _ Hs).
    destruct (last_payload_covered deliveries i) as [b ->]; [|by eexists].
    apply Hcover, elem_of_seqZ. lia. }
  exists d1. eexists. split; [done|].
  rewrite assembleChunks_agree. unfold FilesJs.assembleChunks, range.
  rewrite read_loop_present by (apply Forall_seqZ; intros i Hi; apply Hpresent; lia).
  unfold write_audio. rewrite Hwf, Hw. split; [reflexivity|]. simpl.
  rewrite lookup_insert_eq, lookup_delete_eq. split; [|done].
  f_equal. f_equal. apply list_fmap_ext. intros k i Hk.
  unfold chunk_bytes. rewrite (save_all_read _ _ _ _ _ Hs).
  destruct (last_payload_covered deliveries i) as [b ->]; [|done].
  apply Hcover. by eapply list_elem_of_lookup_2.
Qed.

Lemma assembled_in_sequence_order_witness :
  ∃ d1 d2,
    save_all "R" deliveries_0_2_1 empty_disk = (Ok tt, d1)
    ∧ (FilesTs.assembleChunks "R" 3 "audio/webm" d1).1 = (Ok "/audio/R.webm", d2)
    ∧ audio d2 !! "R.webm" = Some [Byte.x41; Byte.x42; Byte.x43]
    ∧ chunks d2 !! "R" = None.
Proof.
  apply (assembled_in_sequence_order "R" 3 "audio/webm" deliveries_0_2_1 empty_disk).
  - intros p. reflexivity.
  - exact covers_0_2_1.
Defined.

Lemma StronglySorted_lt_NoDup (l : list Z) : StronglySorted Z.lt l → NoDup l.
Proof.
  induction 1 as [|x l Hs IH Hall]; constructor; [|done].
  intros Hin. rewrite Forall_forall in Hall. specialize (Hall _ Hin). lia.
Qed.

Lemma StronglySorted_le_NoDup_lt (l : list Z) :
  StronglySorted Z.le l → NoDup l → StronglySorted Z.lt l.
Proof.
  induction 1 as [|x l Hs IH Hall]; intros Hnd; constructor.
  - apply IH. by apply NoDup_cons in Hnd as [_ ?].
  - apply NoDup_cons in Hnd as [Hx _]. rewrite Forall_forall in Hall |- *.
    intros y Hy. specialize (Hall _ Hy).
    assert (x ≠ y) by (intros ->; done). lia.
Qed.

Lemma add_sequence_sorted sequence l :
  StronglySorted Z.lt l → StronglySorted Z.lt (add_sequence sequence l).
Proof.
  intros Hs. unfold add_sequence. case_bool_decide as Hin; [done|].
  apply StronglySorted_le_NoDup_lt.
  - apply (StronglySorted_merge_sort Z.le).
  - rewrite merge_sort_Permutation. apply NoDup_app. split; [|split].
    + by apply StronglySorted_lt_NoDup.
    + intros x Hx ->%list_elem_of_singleton. done.
    + apply NoDup_singleton.
Qed.

Lemma saveChunk_manifest now rid sequence buffer d d' :
  FilesJs.saveChunk now rid sequence buffer d = (Ok tt, d') →
  let m := default (fresh_manifest rid "audio/webm" now) (FilesJs.getChunkManifest rid d) in
  FilesJs.getChunkManifest rid d'
  = Some (mkManifest (roundId m) (mimeType m) (Z.max (totalChunks m) (sequence + 1))
                     (add_sequence sequence (receivedSequences m)) (startTime m) now).
Proof.
  unfold FilesJs.saveChunk, FilesJs.ensureChunkDirectory, write_chunk.
  assert (Hmk : ∃ dir, chunks (mkdir_chunkDir rid d) !! rid = Some dir
                 ∧ manifest_json dir = FilesJs.getChunkManifest rid d).
  { unfold mkdir_chunkDir, FilesJs.getChunkManifest.
    destruct (chunks d !! rid) as [dir|] eqn:Hd.
    - exists dir. by rewrite Hd.
    - eexists. simpl. by rewrite lookup_insert_eq. }
  destruct Hmk as (dir & Hdir & Hman).
  assert (Hwf : write_fails (mkdir_chunkDir rid d) = write_fails d).
  { unfold mkdir_chunkDir. by destruct (chunks d !! rid). }
  rewrite Hwf, Hdir. destruct (write_fails d (ChunkFile _ _)); [done|].
  unfold FilesJs.updateChunkManifest, write_manifest. simpl.
  rewrite Hwf. destruct (write_fails d (ManifestFile rid)); [done|].
  rewrite lookup_insert_eq. intros [= <-].
  unfold FilesJs.getChunkManifest. simpl. rewrite insert_insert_eq, lookup_insert_eq. simpl.
  rewrite Hman. unfold FilesJs.getChunkManifest. rewrite !lookup_insert_eq. simpl.
  by destruct (chunks d !! rid ≫= manifest_json).
Qed.

(** X4.  [saveChunk] keeps the manifest well formed: when the manifest
    found on disk (if any) lists its sequences in ascending order without
    repetition and below [totalChunks], so does the manifest written;
    it contains the saved sequence, its [totalChunks] is the larger of
    the old value and [sequence + 1], and [lastUpdate] is the time of the
    call. *)
Theorem manifest_stays_sorted (now : Z) (rid : string) (sequence : Z) (buffer : Buffer)
    (d d' : Disk) (logs : list FilesTs.LogEntry) :
  (∀ m, FilesTs.getChunkManifest rid d = Some m → manifest_ok m) →
  FilesTs.saveChunk now rid sequence buffer d = (Ok tt, d', logs) →
  ∃ m', FilesTs.getChunkManifest rid d' = Some m'
    ∧ manifest_ok m'
    ∧ sequence ∈ receivedSequences m'
    ∧ totalChunks m' = Z.max (from_option totalChunks 0 (FilesTs.getChunkManifest rid d))
                             (sequence + 1)
    ∧ lastUpdate m' = now.
Proof.
  intros Hok Hs. pose proof (saveChunk_agree now rid sequence buffer d) as Hag.
  rewrite Hs in Hag. simpl in Hag. symmetry in Hag.
  apply saveChunk_manifest in Hag. cbv zeta in Hag.
  rewrite <- (getChunkManifest_agree rid d'), <- !(getChunkManifest_agree rid d) in Hag.
  rewrite Hag. eexists. split; [done|].
  assert (Hm : manifest_ok (default (fresh_manifest rid "audio/webm" now)
                                    (FilesTs.getChunkManifest rid d))).
  { destruct (FilesTs.getChunkManifest rid d) as [m|]; [by apply Hok|].
    unfold manifest_ok. simpl. split; constructor. }
  destruct Hm as [Hsorted Hbound]. split; [split|split; [|split]]; simpl.
  - by apply add_sequence_sorted.
  - rewrite Forall_forall in Hbound |- *. intros x [->|Hx]%elem_of_add_sequence; simpl; [lia|].
    specialize (Hbound _ Hx). simpl in Hbound. lia.
  - apply elem_of_add_sequence. by left.
  - by destruct (FilesTs.getChunkManifest rid d).
  - done.
Qed.

Lemma manifest_stays_sorted_witness :
  ∃ m', FilesTs.getChunkManifest "R"
          (FilesTs.saveChunk 9 "R" 1 (payload Byte.x42) gap_at_1).1.2 = Some m'
    ∧ manifest_ok m'
    ∧ 1 ∈ receivedSequences m'
    ∧ totalChunks m' = 3
    ∧ lastUpdate m' = 9.
Proof.
  apply (manifest_stays_sorted 9 "R" 1 (payload Byte.x42) gap_at_1 _
           [FilesTs.mkLog FilesTs.INFO "Chunk saved"]).
  - intros m [= <-]. vm_compute. split; repeat constructor.
  - vm_compute. reflexivity.
Defined.



End StoreExtras.

(* ===================================================================== *)
(** ** Further properties of the queue and the worker                      *)
(* ===================================================================== *)

Section QueueExtras.
Import Queue QueueSpec Samples.

Lemma withLock_loop_unreadable {T} n self (fn : World → Result T * World) w :
  lockFile w = Some LockUnreadable →
  withLock_loop n self fn w
  = (Err "Queue lock timeout.", set_clock (clock w + retryDelayMs * Z.of_nat n) w).
Proof.
  revert w. induction n as [|n IH]; intros w Hl.
  - simpl. rewrite Z.add_0_r. by rewrite set_clock_id.
  - cbn [withLock_loop]. rewrite acquireLock_unreadable by done.
    rewrite IH by done. f_equal. unfold set_clock. simpl. f_equal. lia.
Qed.

(** X6.  A lock file whose contents cannot be read is never removed: every
    call under [withLock] waits its twenty attempts and rejects with the
    timeout, whatever the age of the file, and the lock is still refused
    afterwards. *)
Theorem unreadable_lock_blocks_queue {T} (self : Z) (fn : World → Result T * World)
    (w : World) :
  lockFile w = Some LockUnreadable →
  withLock self fn w
  = (Err "Queue lock timeout.",
     set_clock (clock w + retryDelayMs * Z.of_nat maxRetries) w)
  ∧ (acquireLock self (set_clock (clock w + retryDelayMs * Z.of_nat maxRetries) w)).1 = false.
Proof.
  intros Hl. split.
  - by apply withLock_loop_unreadable.
  - by rewrite acquireLock_unreadable.
Qed.

Lemma unreadable_lock_blocks_queue_witness :
  withLock 42 (on_queue (claimNextJob_cs "t1"))
           (set_lockFile (Some LockUnreadable) (locked_world 900000000 0))
  = (Err "Queue lock timeout.",
     set_clock 900002000 (set_lockFile (Some LockUnreadable) (locked_world 900000000 0))).
Proof.
  apply (unreadable_lock_blocks_queue 42 (on_queue (claimNextJob_cs "t1"))
           (set_lockFile (Some LockUnreadable) (locked_world 900000000 0))).
  reflexivity.
Defined.

Lemma withLock_loop_waits {T} k n self (fn : World → Result T * World) w info :
  lockFile w = Some (LockJson info) →
  clock w + retryDelayMs * (Z.of_nat k - 1) - startedAt info ≤ LOCK_TTL_MS →
  clock w + retryDelayMs * Z.of_nat k - startedAt info > LOCK_TTL_MS →
  (k < n)%nat →
  withLock_loop n self fn w
  = let t := clock w + retryDelayMs * Z.of_nat k in
    let '(r, w2) := fn (set_lockFile (Some (LockJson (mkLock self t))) (set_clock t w)) in
    (r, releaseLock w2).
Proof.
  revert n w. induction k as [|k IH]; intros n w Hl Hlive Hexp Hn.
  - destruct n as [|n]; [lia|]. cbn [withLock_loop].
    rewrite (acquireLock_expired _ _ info) by (done || lia).
    simpl. rewrite Z.add_0_r, set_clock_id. done.
  - destruct n as [|n]; [lia|]. cbn [withLock_loop].
    rewrite (acquireLock_live _ _ info) by (done || unfold retryDelayMs in *; lia).
    rewrite (IH n _ ) by (simpl; (done || unfold retryDelayMs in *; lia)).
    simpl. replace (clock w + retryDelayMs + retryDelayMs * Z.of_nat k)
      with (clock w + retryDelayMs * Z.of_nat (S k)) by lia.
    done.
Qed.

(** X7.  A lock that passes its time to live while [withLock] is retrying
    is taken over at the first attempt that finds it expired: the
    function runs with the lock held by the caller, stamped with the time
    of that attempt, and the lock is released when it returns. *)
Theorem lock_taken_once_expired {T} (self : Z) (fn : World → Result T * World)
    (w : World) (info : LockInfo) (k : nat) :
  lockFile w = Some (LockJson info) →
  (k < maxRetries)%nat →
  clock w + retryDelayMs * (Z.of_nat k - 1) - startedAt info ≤ LOCK_TTL_MS →
  clock w + retryDelayMs * Z.of_nat k - startedAt info > LOCK_TTL_MS →
  let t := clock w + retryDelayMs * Z.of_nat k in
  let held := set_lockFile (Some (LockJson (mkLock self t))) (set_clock t w) in
  withLock self fn w = ((fn held).1, releaseLock (fn held).2)
  ∧ lockFile (withLock self fn w).2 = None.
Proof.
  intros Hl Hk Hlive Hexp t held.
  assert (Heq : withLock self fn w = ((fn held).1, releaseLock (fn held).2)).
  { unfold withLock. rewrite (withLock_loop_waits k _ _ _ _ info) by done.
    cbv zeta. fold t. fold held. by destruct (fn held). }
  split; [done|]. by rewrite Heq.
Qed.

Lemma lock_taken_once_expired_witness :
  withLock 42 (on_queue (claimNextJob_cs "t1")) (locked_world 599700 0)
  = (Ok None, mkWorld 600100 None (Some (mkQueue [])) [] empty_disk).
Proof.
  apply (lock_taken_once_expired 42 (on_queue (claimNextJob_cs "t1"))
           (locked_world 599700 0) (mkLock 7 0) 4).
  - reflexivity.
  - unfold maxRetries. lia.
  - vm_compute. discriminate.
  - vm_compute. reflexivity.
Defined.

Lemma recover_jobs_none_processing done now js rounds upd :
  Forall (λ job, status job ≠ processing) js →
  recover_jobs done now js rounds upd = (js, rounds, upd).
Proof.
  induction 1 as [|job rest Hj _ IH]; [done|].
  cbn [recover_jobs]. rewrite bool_decide_eq_true_2 by done. by rewrite IH.
Qed.

(** X8.  After [recoverQueue] no job is processing, and a second recovery
    of the resulting document writes nothing and leaves the rounds as
    they are. *)
Theorem recovery_is_idempotent (done : string → bool) (now now' : string)
    (q : QueueState) (rounds : list Rounds.Round) :
  let q' := written q (recoverQueue_cs done now q rounds).1 in
  let rounds' := (recoverQueue_cs done now q rounds).2 in
  Forall (λ job, status job ≠ processing) (jobs q')
  ∧ recoverQueue_cs done now' q' rounds' = (None, rounds').
Proof.
  intros q' rounds'.
  assert (Hnone : Forall (λ job, status job ≠ processing) (jobs q')).
  { unfold q'. rewrite recoverQueue_cs_written. apply Forall_fmap, Forall_true.
    intros job. apply recover_job_not_processing. }
  split; [done|]. unfold recoverQueue_cs at 1.
  by rewrite recover_jobs_none_processing.
Qed.

Lemma finished_not_eligible job : ¬ active job → ¬ eligible job.
Proof. intros Hna [Hq _]. apply Hna. by left. Qed.

Lemma apply_op_keeps_finished op q i job :
  keeps_finished op → jobs q !! i = Some job → ¬ active job →
  jobs (apply_op op q) !! i = Some job.
Proof.
  intros Hop Hi Hna. destruct op as [uuid now input|now|done now rounds| |];
    [| | |destruct Hop..].
  - simpl. unfold enqueue_cs. destruct (list_find _ _) as [[? ?]|]; [done|].
    simpl. by apply lookup_app_l_Some.
  - simpl. apply claimNextJob_cs_spares; [done|]. by apply finished_not_eligible.
  - simpl. unfold written.
    change (default q (recoverQueue_cs done now q rounds).1)
      with (written q (recoverQueue_cs done now q rounds).1).
    rewrite recoverQueue_cs_written. simpl. rewrite (recover_job_lookup _ _ _ _ _ Hi).
    f_equal. apply recover_job_idle. intros Hp. apply Hna. by right.
Qed.

(** X9.  A job that is completed or in error is left exactly as it is by
    enqueue, claim and recovery, however many of them follow, and is
    never the job found by a claim. *)
Theorem finished_job_left_alone (ops : list QueueOp) (q : QueueState) (i : nat)
    (job : TranscriptionJob) :
  Forall keeps_finished ops →
  jobs q !! i = Some job →
  status job = completed ∨ status job = error →
  jobs (run_ops ops q) !! i = Some job
  ∧ ∀ next, ¬ first_eligible (run_ops ops q) i next.
Proof.
  intros Hops Hi Hst.
  assert (Hna : ¬ active job).
  { intros [Ha|Ha]; destruct Hst as [Hs|Hs]; rewrite Hs in Ha; done. }
  assert (Hkeep : jobs (run_ops ops q) !! i = Some job).
  { revert q Hi. induction Hops as [|op ops Hop _ IH]; intros q Hi; [done|].
    unfold run_ops. cbn [foldl]. apply IH. by apply apply_op_keeps_finished. }
  split; [done|]. intros next (Hn & He & _). rewrite Hkeep in Hn.
  injection Hn as <-. by apply finished_not_eligible in He.
Qed.

Lemma finished_job_left_alone_witness :
  jobs (run_ops [OpEnqueue "u2" "t1" (mkInput "r1" "/a" recording);
                 OpRecover (λ _, false) "t2" []; OpClaim "t3"]
                (mkQueue [sample_job "r1" error 1])) !! 0%nat
  = Some (sample_job "r1" error 1).
Proof.
  apply (finished_job_left_alone
           [OpEnqueue "u2" "t1" (mkInput "r1" "/a" recording);
            OpRecover (λ _, false) "t2" []; OpClaim "t3"]
           (mkQueue [sample_job "r1" error 1]) 0 (sample_job "r1" error 1)).
  - repeat constructor.
  - reflexivity.
  - right. reflexivity.
Defined.

Lemma updateJob_free self now jobId u w q i stored :
  lockFile w = None → queueFile w = Some q →
  list_find (λ job, id job = jobId) (jobs q) = Some (i, stored) →
  updateJob self now jobId u w
  = (Ok (Some (merge stored u now)),
     writeQueue (mkQueue (<[i := merge stored u now]> (jobs q))) w).
Proof.
  intros Hl Hq Hf. unfold updateJob. rewrite withLock_free by done.
  erewrite on_queue_written; [|exact Hq|unfold updateJob_cs; by rewrite Hf].
  unfold releaseLock, writeQueue, set_queueFile, set_lockFile. simpl.
  destruct w; simpl in *. by subst.
Qed.

Lemma processJob_free self now outcome job w q i stored :
  lockFile w = None → queueFile w = Some q →
  list_find (λ x, id x = id job) (jobs q) = Some (i, stored) →
  processJob self now outcome job w
  = (Ok tt,
     match Rounds.getRound (roundId job) (Queue.rounds w), outcome with
     | None, _ =>
         writeQueue (mkQueue (<[i := merge stored (failed_with "Round not found") now]>
                                (jobs q))) w
     | Some _, EngineFailed message =>
         writeQueue (mkQueue (<[i := merge stored (failed_with message) now]> (jobs q)))
           (updateRound (roundId job) (Rounds.only_status Rounds.ERROR) w)
     | Some _, Transcribed duration speakers =>
         writeQueue (mkQueue (<[i := merge stored finished now]> (jobs q)))
           (updateRound (roundId job)
              (Rounds.mkRoundUpdate (Some Rounds.COMPLETED) None
                 (Some (roundId job +:+ "_deliberation.json"))
                 (Some (Some duration)) (Some speakers))
              (set_disk (Storage.set_transcriptions
                           ({[roundId job]} ∪ Storage.transcriptions (disk w)) (disk w)) w))
     end).
Proof.
  intros Hl Hq Hf. unfold processJob.
  destruct (Rounds.getRound (roundId job) (Queue.rounds w)) as [r|].
  - destruct outcome as [duration speakers|message].
    + by erewrite updateJob_free.
    + unfold processJob_catch. by erewrite updateJob_free.
  - by erewrite updateJob_free.
Qed.

(** X10.  [processJob] on a world with a free lock always fulfils and
    leaves the job settled: completed with no error recorded, the round
    completed and the transcript stored when the engine succeeded;
    in error with the engine's message and the round in error when it
    failed; in error with [Round not found] and nothing else changed
    when the round is gone.  Identity and attempts of the job are kept
    and the lock is free afterwards. *)
Theorem processJob_settles_job (self : Z) (now : string) (outcome : EngineOutcome)
    (job stored : TranscriptionJob) (w : World) (q : QueueState) (i : nat) :
  lockFile w = None → queueFile w = Some q →
  list_find (λ x, id x = id job) (jobs q) = Some (i, stored) →
  ∃ w' stored',
    processJob self now outcome job w = (Ok tt, w')
    ∧ lockFile w' = None
    ∧ queueFile w' = Some (mkQueue (<[i := stored']> (jobs q)))
    ∧ id stored' = id stored ∧ roundId stored' = roundId stored
    ∧ attempts stored' = attempts stored
    ∧ ¬ active stored'
    ∧ match Rounds.getRound (roundId job) (Queue.rounds w), outcome with
      | Some _, Transcribed _ _ =>
          status stored' = completed ∧ lastError stored' = None
          ∧ round_status (roundId job) (Queue.rounds w') = Some Rounds.COMPLETED
          ∧ FilesTs.transcriptionExists (roundId job) (disk w') = true
      | Some _, EngineFailed message =>
          status stored' = error ∧ lastError stored' = Some message
          ∧ round_status (roundId job) (Queue.rounds w') = Some Rounds.ERROR
          ∧ disk w' = disk w
      | None, _ =>
          status stored' = error ∧ lastError stored' = Some "Round not found"
          ∧ Queue.rounds w' = Queue.rounds w
          ∧ disk w' = disk w
      end.
Proof.
  intros Hl Hq Hf. rewrite (processJob_free _ _ _ _ _ _ _ _ Hl Hq Hf).
  unfold round_status.
  destruct (Rounds.getRound (roundId job) (Queue.rounds w)) as [r|] eqn:Hr.
  - destruct outcome as [duration speakers|message].
    + eexists _, _. split; [done|]. simpl. rewrite Hl.
      do 5 (split; [done|]). split; [by intros [?|?]|].
      do 2 (split; [done|]). split.
      * rewrite getRound_updateRound, decide_True by done. by rewrite Hr.
      * unfold FilesTs.transcriptionExists. apply bool_decide_eq_true_2. simpl.
        set_solver.
    + eexists _, _. split; [done|]. simpl. rewrite Hl.
      do 5 (split; [done|]). split; [by intros [?|?]|].
      do 2 (split; [done|]). split; [|done].
      rewrite getRound_updateRound, decide_True by done. by rewrite Hr.
  - eexists _, _. split; [done|]. simpl. rewrite Hl.
    do 5 (split; [done|]). split; [by intros [?|?]|]. done.
Qed.

Lemma processJob_settles_job_witness :
  ∃ w' stored',
    processJob 42 "t2" (EngineFailed "boom") (sample_job "R" processing 1)
               (mkWorld 0 None (Some (mkQueue [sample_job "R" processing 1]))
                        [sample_round "R" Rounds.PROCESSING] empty_disk)
    = (Ok tt, w')
    ∧ lockFile w' = None
    ∧ queueFile w' = Some (mkQueue [stored'])
    ∧ status stored' = error.
Proof.
  destruct (processJob_settles_job 42 "t2" (EngineFailed "boom")
              (sample_job "R" processing 1) (sample_job "R" processing 1)
              (mkWorld 0 None (Some (mkQueue [sample_job "R" processing 1]))
                       [sample_round "R" Rounds.PROCESSING] empty_disk)
              (mkQueue [sample_job "R" processing 1]) 0)
    as (w' & stored' & Hp & Hl & Hq & _ & _ & _ & _ & Hs & _).
  - reflexivity.
  - reflexivity.
  - reflexivity.
  - exists w', stored'. done.
Defined.




(** X12.  With no eligible job a round of the worker loop claims nothing
    and only waits for the poll interval: queue file, rounds and disk
    are unchanged. *)
Theorem idle_poll_only_sleeps (self : Z) (now : string) (outcome : EngineOutcome)
    (w : World) (q : QueueState) :
  lockFile w = None → queueFile w = Some q →
  (∀ x, x ∈ jobs q → ¬ eligible x) →
  poll_step self now outcome w = (EvClaim None, sleep POLL_INTERVAL_MS w)
  ∧ queueFile (sleep POLL_INTERVAL_MS w) = Some q
  ∧ Queue.rounds (sleep POLL_INTERVAL_MS w) = Queue.rounds w
  ∧ disk (sleep POLL_INTERVAL_MS w) = disk w.
Proof.
  intros Hl Hq Hnone. unfold poll_step.
  by rewrite (claimNextJob_idle _ _ _ _ Hl Hq Hnone).
Qed.

Lemma idle_poll_only_sleeps_witness :
  poll_step 42 "t2" (Transcribed 12 2)
            (mkWorld 0 None (Some (mkQueue [sample_job "R" error 1])) [] empty_disk)
  = (EvClaim None,
     mkWorld 2000 None (Some (mkQueue [sample_job "R" error 1])) [] empty_disk).
Proof.
  apply (idle_poll_only_sleeps 42 "t2" (Transcribed 12 2)
           (mkWorld 0 None (Some (mkQueue [sample_job "R" error 1])) [] empty_disk)
           (mkQueue [sample_job "R" error 1])).
  - reflexivity.
  - reflexivity.
  - intros x ->%list_elem_of_singleton [Hs _]. discriminate Hs.
Defined.

End QueueExtras.

(* ===================================================================== *)
(** ** Further properties of the session and the trigger route             *)
(* ===================================================================== *)

Section SessionExtras.
Import Queue QueueSpec StoreSpec Samples.

Lemma foldr_max_bounds (l : list Z) (low : Z) :
  low ≤ foldr Z.max low l
  ∧ (∀ x, x ∈ l → x ≤ foldr Z.max low l)
  ∧ (foldr Z.max low l = low ∨ foldr Z.max low l ∈ l).
Proof.
  induction l as [|a l (IH1 & IH2 & IH3)]; simpl.
  - split; [lia|]. split; [|by left]. intros x Hx. by apply elem_of_nil in Hx.
  - split; [lia|]. split.
    + intros x [->|Hx]%elem_of_cons; [lia|]. specialize (IH2 _ Hx). lia.
    + destruct (Z.max_spec a (foldr Z.max low l)) as [[_ ->]|[_ ->]].
      * destruct IH3 as [->|Hin]; [by left|]. right. by apply elem_of_cons; right.
      * right. by apply elem_of_cons; left.
Qed.

(** X13.  [handleInit] on a round with a manifest resumes after the
    highest received sequence: the [ready] frame and the session carry
    that sequence ([-1] when the list is empty), the next expected
    sequence is one above it and has not been received, the count of
    received chunks is not restored, the round becomes streaming and the
    stored chunks are untouched. *)
Theorem init_resumes_after_last_chunk (rid : string) (mime : option string)
    (s : Handler.Session) (w : World) (r : Rounds.Round) (m : Storage.ChunkManifest) :
  Rounds.getRound rid (Queue.rounds w) = Some r →
  FilesJs.getChunkManifest rid (disk w) = Some m →
  ∃ last s' w',
    Handler.handleInit rid mime s w = (s', w')
    ∧ Handler.outbox s'
      = Handler.outbox s ++ [Handler.ready (Handler.sessionId (Handler.state s)) last]
    ∧ Handler.closed s' = Handler.closed s
    ∧ Handler.roundId (Handler.state s') = Some rid
    ∧ Handler.lastReceivedSequence (Handler.state s') = last
    ∧ Handler.expectedSequence (Handler.state s') = last + 1
    ∧ Handler.totalChunksReceived (Handler.state s')
      = Handler.totalChunksReceived (Handler.state s)
    ∧ (∀ x, x ∈ Storage.receivedSequences m → x ≤ last)
    ∧ (last = (-1) ∨ last ∈ Storage.receivedSequences m)
    ∧ (last + 1 ∉ Storage.receivedSequences m)
    ∧ round_status rid (Queue.rounds w') = Some Rounds.STREAMING
    ∧ disk w' = disk w ∧ queueFile w' = queueFile w.
Proof.
  intros Hr Hm. unfold Handler.handleInit. rewrite Hr, Hm.
  destruct (foldr_max_bounds (Storage.receivedSequences m) (-1)) as (_ & Hub & Hin).
  eexists _, _, _. split; [done|]. simpl.
  do 6 (split; [done|]). split; [done|]. split; [done|]. split.
  - intros Hx%Hub. lia.
  - split; [|done]. unfold round_status.
    rewrite getRound_updateRound, decide_True by done. by rewrite Hr.
Qed.

Lemma init_resumes_after_last_chunk_witness :
  ∃ last s' w',
    Handler.handleInit "R" None (session_for "R" false None) (sample_world "R" gap_at_1)
    = (s', w')
    ∧ Handler.outbox s' = [] ++ [Handler.ready "session_1" last]
    ∧ Handler.closed s' = false
    ∧ Handler.roundId (Handler.state s') = Some "R"
    ∧ Handler.lastReceivedSequence (Handler.state s') = last
    ∧ Handler.expectedSequence (Handler.state s') = last + 1
    ∧ Handler.totalChunksReceived (Handler.state s') = 0
    ∧ (∀ x, x ∈ [0; 2] → x ≤ last)
    ∧ (last = (-1) ∨ last ∈ [0; 2])
    ∧ (last + 1 ∉ [0; 2])
    ∧ round_status "R" (Queue.rounds w') = Some Rounds.STREAMING
    ∧ disk w' = gap_at_1 ∧ queueFile w' = Some (mkQueue []).
Proof.
  apply (init_resumes_after_last_chunk "R" None (session_for "R" false None)
           (sample_world "R" gap_at_1) (sample_round "R" Rounds.STREAMING)
           (Storage.mkManifest "R" "audio/webm" 3 [0; 2] 1 2)).
  - reflexivity.
  - vm_compute. reflexivity.
Defined.






(** X16.  A [complete] frame with a total of zero or less is accepted
    whatever has been received: an empty artifact is written, the
    staging directory with all its chunks is removed, the round becomes
    processing and the transcription is triggered. *)
Theorem empty_completion_discards_chunks (total : Z) (finalDuration : option Z)
    (s : Handler.Session) (w : World) (rid : string) :
  total ≤ 0 →
  Handler.initialized (Handler.state s) = Some rid →
  let file := rid +:+ "." +:+ Storage.extensionOf (Handler.mimeType (Handler.state s)) in
  Storage.write_fails (disk w) (Storage.AudioFile file) = false →
  ∃ w',
    Handler.handleComplete total finalDuration s w
    = (Handler.trigger rid (Handler.send (Handler.complete total ("/audio/" +:+ file)) s),
       w')
    ∧ Storage.audio (disk w') !! file = Some []
    ∧ Storage.chunks (disk w') !! rid = None
    ∧ round_status rid (Queue.rounds w')
      = (λ _, Rounds.PROCESSING) <$> round_status rid (Queue.rounds w).
Proof.
  intros Htotal Hinit file Hwf. unfold Handler.handleComplete. rewrite Hinit.
  rewrite findMissingChunks_filter, seqZ_nil by done. rewrite filter_nil.
  unfold FilesJs.assembleChunks, Storage.range. rewrite seqZ_nil by done.
  simpl. unfold Storage.write_audio. fold file. rewrite Hwf.
  eexists. split; [done|]. simpl.
  rewrite lookup_insert_eq, lookup_delete_eq. do 2 (split; [done|]).
  rewrite round_status_updateRound, decide_True by done.
  by destruct (round_status rid (Queue.rounds w)).
Qed.

Lemma empty_completion_discards_chunks_witness :
  ∃ w',
    Handler.handleComplete 0 None (session_for "R" false None)
                           (sample_world "R" three_chunks)
    = (Handler.trigger "R"
         (Handler.send (Handler.complete 0 "/audio/R.webm") (session_for "R" false None)),
       w')
    ∧ Storage.audio (disk w') !! "R.webm" = Some []
    ∧ Storage.chunks (disk w') !! "R" = None
    ∧ round_status "R" (Queue.rounds w') = Some Rounds.PROCESSING.
Proof.
  apply (empty_completion_discards_chunks 0 None (session_for "R" false None)
           (sample_world "R" three_chunks) "R").
  - lia.
  - reflexivity.
  - vm_compute. reflexivity.
Defined.



(** X18.  A trigger that finds the queue lock held for the whole retry
    window answers 500 with the timeout message and leaves the round in
    error, with the audio path it had just recorded; queue file and lock
    file are untouched. *)
Theorem trigger_under_held_lock_fails_round (self : Z) (cwd uuid now rid : string)
    (p : Process) (w : World) (info : LockInfo) (r : Rounds.Round) (path : string) :
  lockFile w = Some (LockJson info) →
  clock w + retryDelayMs * (Z.of_nat maxRetries - 1) - startedAt info ≤ LOCK_TTL_MS →
  Rounds.getRound rid (Queue.rounds w) = Some r →
  TranscribeRoute.find_audio r rid (disk w) = Some path →
  ∃ w',
    TranscribeRoute.POST self cwd uuid now rid p w
    = (TranscribeRoute.Failure 500 "Queue lock timeout.", p, w')
    ∧ round_status rid (Queue.rounds w') = Some Rounds.ERROR
    ∧ Rounds.audio_file <$> Rounds.getRound rid (Queue.rounds w') = Some (Some path)
    ∧ queueFile w' = queueFile w
    ∧ lockFile w' = lockFile w
    ∧ clock w' = clock w + retryDelayMs * Z.of_nat maxRetries.
Proof.
  intros Hl Hlive Hr Ha. unfold TranscribeRoute.POST. rewrite Hr, Ha.
  set (w1 := updateRound rid _ w).
  assert (Hheld : enqueueTranscriptionJob self uuid now
                    (mkInput rid (TranscribeRoute.public_path cwd
                                    (TranscribeRoute.strip_slash path)) recording) w1
                  = (Err "Queue lock timeout.",
                     set_clock (clock w1 + retryDelayMs * Z.of_nat maxRetries) w1)).
  { unfold enqueueTranscriptionJob, withLock.
    apply (withLock_loop_held _ _ _ _ info); [exact Hl|].
    change (clock w1) with (clock w). lia. }
  rewrite Hheld. unfold TranscribeRoute.POST_catch. eexists. split; [reflexivity|].
  unfold round_status, w1, updateRound, set_rounds, set_clock. cbn [Queue.rounds].
  rewrite !getRound_updateRound, !decide_True by done. rewrite Hr.
  split; [reflexivity|]. split; [reflexivity|]. split; [reflexivity|].
  split; [reflexivity|]. reflexivity.
Qed.

Lemma trigger_under_held_lock_fails_round_witness :
  ∃ w',
    TranscribeRoute.POST 42 "/srv" "u2" "t2" "R" fresh_process
      (mkWorld 500000 (Some (LockJson (mkLock 7 0))) (Some (mkQueue []))
               [sample_round "R" Rounds.STREAMING] assembled)
    = (TranscribeRoute.Failure 500 "Queue lock timeout.", fresh_process, w')
    ∧ round_status "R" (Queue.rounds w') = Some Rounds.ERROR.
Proof.
  destruct (trigger_under_held_lock_fails_round 42 "/srv" "u2" "t2" "R" fresh_process
              (mkWorld 500000 (Some (LockJson (mkLock 7 0))) (Some (mkQueue []))
                       [sample_round "R" Rounds.STREAMING] assembled)
              (mkLock 7 0) (sample_round "R" Rounds.STREAMING) "/audio/R.webm")
    as (w' & HP & Hst & _).
  - reflexivity.
  - vm_compute. discriminate.
  - reflexivity.
  - vm_compute. reflexivity.
  - exists w'. split; [exact HP|exact Hst].
Defined.

(** X19.  The route answers 404 only when the round or its audio is
    missing, and then neither the world nor the worker's state has
    changed. *)
Theorem not_found_changes_nothing (self : Z) (cwd uuid now rid : string)
    (p p' : Process) (w w' : World) (message : string) :
  TranscribeRoute.POST self cwd uuid now rid p w
  = (TranscribeRoute.Failure 404 message, p', w') →
  p' = p ∧ w' = w
  ∧ (Rounds.getRound rid (Queue.rounds w) = None
     ∨ ∃ r, Rounds.getRound rid (Queue.rounds w) = Some r
            ∧ TranscribeRoute.find_audio r rid (disk w) = None).
Proof.
  unfold TranscribeRoute.POST.
  destruct (Rounds.getRound rid (Queue.rounds w)) as [r|].
  - destruct (TranscribeRoute.find_audio r rid (disk w)) as [path|] eqn:Hfind.
    + unfold TranscribeRoute.POST_catch.
      destruct (enqueueTranscriptionJob _ _ _ _ _) as [[job|e] w2];
        [|intros Hres; discriminate Hres].
      destruct (startTranscriptionWorker _ _ _ _) as [[[?|e] p3] w3];
        intros Hres; discriminate Hres.
    + intros [= _ <- <-]. split; [done|]. split; [done|]. right. exists r. by split.
  - intros [= _ <- <-]. split; [done|]. split; [done|]. by left.
Qed.

Lemma not_found_changes_nothing_witness :
  fresh_process = fresh_process
  ∧ sample_world "R" empty_disk = sample_world "R" empty_disk
  ∧ (Rounds.getRound "R" (Queue.rounds (sample_world "R" empty_disk)) = None
     ∨ ∃ r, Rounds.getRound "R" (Queue.rounds (sample_world "R" empty_disk)) = Some r
            ∧ TranscribeRoute.find_audio r "R" (disk (sample_world "R" empty_disk)) = None).
Proof.
  apply (not_found_changes_nothing 42 "/srv" "u2" "t2" "R" fresh_process fresh_process
           (sample_world "R" empty_disk) (sample_world "R" empty_disk)
           "Audio file not found. Recording may not have completed yet.").
  vm_compute. reflexivity.
Defined.

End SessionExtras.

(* ===================================================================== *)
(** ** Properties of the cleanup job                                       *)
(* ===================================================================== *)

Section CleanupProperties.
Import Queue QueueSpec CleanupSpec Samples.

Variable rm_error : string → option string.

Lemma delete_counted_frame rid r w :
  let '(r', w') := Cleanup.delete_counted rm_error rid r w in
  Cleanup.scanned r' = Cleanup.scanned r
  ∧ Cleanup.orphaned r' = Cleanup.orphaned r
  ∧ (Cleanup.deleted r' + length (Cleanup.errors r')
     = S (Cleanup.deleted r + length (Cleanup.errors r)))%nat
  ∧ Storage.audio (disk w') = Storage.audio (disk w)
  ∧ Storage.transcriptions (disk w') = Storage.transcriptions (disk w)
  ∧ Storage.write_fails (disk w') = Storage.write_fails (disk w)
  ∧ (∀ rid', rid' ≠ rid →
       Storage.chunks (disk w') !! rid' = Storage.chunks (disk w) !! rid')
  ∧ Queue.rounds w' = Queue.rounds w
  ∧ queueFile w' = queueFile w ∧ lockFile w' = lockFile w ∧ clock w' = clock w.
Proof.
  unfold Cleanup.delete_counted, Cleanup.deleteChunkDirectory.
  destruct (rm_error rid) as [message|]; simpl.
  - rewrite length_app. simpl. repeat split; lia.
  - repeat split; try lia. intros rid' Hne. by rewrite lookup_delete_ne.
Qed.

Lemma updateRound_ids rid u rounds :
  Rounds.id <$> (Rounds.updateRound rid u rounds).2 = Rounds.id <$> rounds.
Proof.
  unfold Rounds.updateRound.
  destruct (list_find _ rounds) as [[i r]|] eqn:Hf; [|done]. simpl.
  apply list_find_Some in Hf as (Hi & _ & _).
  rewrite list_fmap_insert. simpl. apply list_insert_id.
  by rewrite list_lookup_fmap, Hi.
Qed.

Lemma visit_frame rid r w :
  let '(r', w') := Cleanup.visit rm_error rid r w in
  Cleanup.scanned r' = S (Cleanup.scanned r)
  ∧ (Cleanup.orphaned r ≤ Cleanup.orphaned r' ≤ S (Cleanup.orphaned r))%nat
  ∧ (Cleanup.orphaned r' + (Cleanup.deleted r + length (Cleanup.errors r))
     = Cleanup.orphaned r + (Cleanup.deleted r' + length (Cleanup.errors r')))%nat
  ∧ Storage.audio (disk w') = Storage.audio (disk w)
  ∧ Storage.transcriptions (disk w') = Storage.transcriptions (disk w)
  ∧ Storage.write_fails (disk w') = Storage.write_fails (disk w)
  ∧ (∀ rid', rid' ≠ rid →
       Storage.chunks (disk w') !! rid' = Storage.chunks (disk w) !! rid')
  ∧ (∀ rid', rid' ≠ rid →
       Rounds.getRound rid' (Queue.rounds w') = Rounds.getRound rid' (Queue.rounds w))
  ∧ Rounds.id <$> Queue.rounds w' = Rounds.id <$> Queue.rounds w
  ∧ queueFile w' = queueFile w ∧ lockFile w' = lockFile w ∧ clock w' = clock w.
Proof.
  unfold Cleanup.visit.
  destruct (FilesTs.getChunkManifest rid (disk w)) as [manifest|];
    [|simpl; repeat split; lia].
  case_bool_decide; [simpl; repeat split; lia|].
  destruct (Rounds.getRound rid (Queue.rounds w)) as [round|].
  - destruct (decide (Rounds.status round = Rounds.COMPLETED)).
    + pose proof (delete_counted_frame rid
                    (Cleanup.orphaned_incr (Cleanup.scanned_incr r)) w) as Hd.
      destruct (Cleanup.delete_counted _ _ _ _) as [r' w'].
      destruct Hd as (? & ? & ? & ? & ? & ? & ? & Hr & ? & ? & ?). simpl in *.
      rewrite Hr. repeat split; (done || lia).
    + destruct (decide (_ ∨ _)); [|simpl; repeat split; lia].
      pose proof (delete_counted_frame rid
                    (Cleanup.orphaned_incr (Cleanup.scanned_incr r))
                    (updateRound rid (Rounds.only_status Rounds.ERROR) w)) as Hd.
      destruct (Cleanup.delete_counted _ _ _ _) as [r' w'].
      destruct Hd as (? & ? & ? & ? & ? & ? & ? & Hr & ? & ? & ?). simpl in *.
      rewrite Hr. repeat split; try (done || lia).
      * intros rid' Hne. rewrite getRound_updateRound. by rewrite decide_False.
      * apply updateRound_ids.
  - pose proof (delete_counted_frame rid
                  (Cleanup.orphaned_incr (Cleanup.scanned_incr r)) w) as Hd.
    destruct (Cleanup.delete_counted _ _ _ _) as [r' w'].
    destruct Hd as (? & ? & ? & ? & ? & ? & ? & Hr & ? & ? & ?). simpl in *.
    rewrite Hr. repeat split; (done || lia).
Qed.

Lemma visit_all_frame dirs r w :
  let '(r', w') := Cleanup.visit_all rm_error dirs r w in
  Cleanup.scanned r' = (Cleanup.scanned r + length dirs)%nat
  ∧ (Cleanup.orphaned r ≤ Cleanup.orphaned r' ≤ Cleanup.orphaned r + length dirs)%nat
  ∧ (Cleanup.orphaned r' + (Cleanup.deleted r + length (Cleanup.errors r))
     = Cleanup.orphaned r + (Cleanup.deleted r' + length (Cleanup.errors r')))%nat
  ∧ Storage.audio (disk w') = Storage.audio (disk w)
  ∧ Storage.transcriptions (disk w') = Storage.transcriptions (disk w)
  ∧ Storage.write_fails (disk w') = Storage.write_fails (disk w)
  ∧ (∀ rid', rid' ∉ dirs →
       Storage.chunks (disk w') !! rid' = Storage.chunks (disk w) !! rid')
  ∧ (∀ rid', rid' ∉ dirs →
       Rounds.getRound rid' (Queue.rounds w') = Rounds.getRound rid' (Queue.rounds w))
  ∧ Rounds.id <$> Queue.rounds w' = Rounds.id <$> Queue.rounds w
  ∧ queueFile w' = queueFile w ∧ lockFile w' = lockFile w ∧ clock w' = clock w.
Proof.
  revert r w. induction dirs as [|rid dirs IH]; intros r w.
  - simpl. repeat split; lia.
  - cbn [Cleanup.visit_all]. pose proof (visit_frame rid r w) as H1.
    destruct (Cleanup.visit rm_error rid r w) as [r1 w1].
    specialize (IH r1 w1). destruct (Cleanup.visit_all rm_error dirs r1 w1) as [r' w'].
    destruct H1 as (S1 & O1 & A1 & Au1 & T1 & W1 & C1 & R1 & I1 & Q1 & L1 & K1).
    destruct IH as (S2 & O2 & A2 & Au2 & T2 & W2 & C2 & R2 & I2 & Q2 & L2 & K2).
    simpl length.
    split; [lia|]. split; [lia|]. split; [lia|].
    split; [congruence|]. split; [congruence|]. split; [congruence|].
    split; [|split; [|repeat split; congruence]].
    + intros rid' Hnot. apply not_elem_of_cons in Hnot as [Hne Hnot].
      rewrite C2 by done. by apply C1.
    + intros rid' Hnot. apply not_elem_of_cons in Hnot as [Hne Hnot].
      rewrite R2 by done. by apply R1.
Qed.

Lemma length_readdir d : length (Cleanup.readdir d) = size (Storage.chunks d).
Proof. unfold Cleanup.readdir. by rewrite length_fmap, length_map_to_list. Qed.

Lemma elem_of_readdir rid d :
  rid ∈ Cleanup.readdir d ↔ is_Some (Storage.chunks d !! rid).
Proof.
  unfold Cleanup.readdir. rewrite list_elem_of_fmap. split.
  - intros ([k dir] & -> & Hin). apply elem_of_map_to_list in Hin. by eexists.
  - intros [dir Hdir]. exists (rid, dir). split; [done|]. by apply elem_of_map_to_list.
Qed.

Lemma NoDup_readdir d : NoDup (Cleanup.readdir d).
Proof. apply NoDup_fst_map_to_list. Qed.


Lemma orphan_or_not w rid : orphan w rid ∨ ¬ orphan w rid.
Proof.
  unfold orphan.
  destruct (FilesTs.getChunkManifest rid (disk w)) as [manifest|];
    [|right; by intros (m & Hm & _)].
  destruct (decide (Cleanup.ORPHAN_THRESHOLD_MS ≤ clock w - Storage.lastUpdate manifest))
    as [Hage|Hage]; [|right; intros (m & [= <-] & ? & _); done].
  destruct (Rounds.getRound rid (Queue.rounds w)) as [round|];
    [|left; by exists manifest].
  destruct (decide (Rounds.status round = Rounds.COMPLETED
                    ∨ Rounds.status round = Rounds.STREAMING
                    ∨ Rounds.status round = Rounds.CREATED)) as [Hst|Hst].
  - left. by exists manifest.
  - right. intros (m & _ & _ & ?). done.
Qed.

Lemma orphan_frame w w' rid :
  Storage.chunks (disk w') !! rid = Storage.chunks (disk w) !! rid →
  Rounds.getRound rid (Queue.rounds w') = Rounds.getRound rid (Queue.rounds w) →
  clock w' = clock w →
  (orphan w' rid ↔ orphan w rid) ∧ (stale w' rid ↔ stale w rid).
Proof.
  intros Hc Hr Hk. unfold stale, orphan, FilesTs.getChunkManifest.
  by rewrite Hc, Hr, Hk.
Qed.

Lemma visit_not_orphan rid r w :
  ¬ orphan w rid → Cleanup.visit rm_error rid r w = (Cleanup.scanned_incr r, w).
Proof.
  intros Hno. unfold Cleanup.visit.
  destruct (FilesTs.getChunkManifest rid (disk w)) as [manifest|] eqn:Hm; [|done].
  case_bool_decide as Hage; [done|].
  destruct (Rounds.getRound rid (Queue.rounds w)) as [round|] eqn:Hr.
  - destruct (decide (Rounds.status round = Rounds.COMPLETED)) as [Hc|Hc].
    { destruct Hno. exists manifest. rewrite Hr. split; [done|]. split; [lia|]. by left. }
    destruct (decide (_ ∨ _)) as [Hs|Hs]; [|done].
    destruct Hno. exists manifest. rewrite Hr. split; [done|]. split; [lia|]. by right.
  - destruct Hno. exists manifest. rewrite Hr. split; [done|]. split; [lia|]. done.
Qed.


Lemma visit_all_keeps dirs r0 rid w w0 :
  ¬ orphan w rid → NoDup dirs →
  (∀ x, x ∈ dirs → (orphan w0 x ↔ orphan w x)) →
  Storage.chunks (disk w0) !! rid = Storage.chunks (disk w) !! rid →
  Storage.chunks (disk (Cleanup.visit_all rm_error dirs r0 w0).2) !! rid
  = Storage.chunks (disk w) !! rid.
Proof.
  intros Hno Hnd. revert r0 w0.
  induction dirs as [|x dirs IH]; intros r0 w0 Hsame Hc; [done|].
  apply NoDup_cons in Hnd as [Hx Hnd]. cbn [Cleanup.visit_all].
  pose proof (visit_frame x r0 w0) as Hv.
  destruct (decide (x = rid)) as [->|Hne].
  - rewrite visit_not_orphan in Hv |- * by (rewrite Hsame; [done|by left]).
    apply IH; [done| |done]. intros y Hy. apply Hsame. by right.
  - destruct (Cleanup.visit rm_error x r0 w0) as [r1 w1].
    destruct Hv as (_ & _ & _ & _ & _ & _ & C1 & R1 & _ & _ & _ & K1).
    apply IH; [done| |by rewrite C1].
    intros y Hy. rewrite <- Hsame by (by right).
    apply orphan_frame; [| |done].
    + apply C1. intros ->. done.
    + apply R1. intros ->. done.
Qed.

Lemma cleanup_keeps rid w :
  ¬ orphan w rid →
  Storage.chunks (disk (Cleanup.cleanupOrphanedChunks rm_error w).2) !! rid
  = Storage.chunks (disk w) !! rid.
Proof.
  intros Hno. unfold Cleanup.cleanupOrphanedChunks.
  apply visit_all_keeps; [done|apply NoDup_readdir|done|done].
Qed.

(** X20.  Whatever [fs.rm] does, the cleanup scans every staging
    directory once, counts each orphan either as deleted or under the
    errors, and touches nothing but orphaned directories and the status
    of rounds: audio, transcripts, the queue and lock files, the clock
    and the list of round ids are as before, and a directory that is not
    orphaned is kept as it is. *)
Theorem cleanup_accounts_for_every_directory (w : World) :
  let r := (Cleanup.cleanupOrphanedChunks rm_error w).1 in
  let w' := (Cleanup.cleanupOrphanedChunks rm_error w).2 in
  Cleanup.scanned r = size (Storage.chunks (disk w))
  ∧ Cleanup.orphaned r = (Cleanup.deleted r + length (Cleanup.errors r))%nat
  ∧ (Cleanup.orphaned r ≤ Cleanup.scanned r)%nat
  ∧ Storage.audio (disk w') = Storage.audio (disk w)
  ∧ Storage.transcriptions (disk w') = Storage.transcriptions (disk w)
  ∧ Rounds.id <$> Queue.rounds w' = Rounds.id <$> Queue.rounds w
  ∧ queueFile w' = queueFile w ∧ lockFile w' = lockFile w ∧ clock w' = clock w
  ∧ ∀ rid, ¬ orphan w rid →
      Storage.chunks (disk w') !! rid = Storage.chunks (disk w) !! rid.
Proof.
  intros r w'. subst r w'. unfold Cleanup.cleanupOrphanedChunks.
  pose proof (visit_all_frame (Cleanup.readdir (disk w)) (Cleanup.mkResult 0 0 0 []) w)
    as Hframe.
  pose proof (λ rid, cleanup_keeps rid w) as Hkept.
  unfold Cleanup.cleanupOrphanedChunks in Hkept.
  destruct (Cleanup.visit_all rm_error (Cleanup.readdir (disk w)) _ w) as [r w'].
  destruct Hframe as (S1 & O1 & A1 & Au1 & T1 & W1 & C1 & R1 & I1 & Q1 & L1 & K1).
  simpl in *. rewrite length_readdir in S1, O1.
  split; [done|]. split; [lia|]. split; [lia|].
  do 6 (split; [done|]).
  exact Hkept.
Qed.

End CleanupProperties.

Section CleanupEffects.
Import Queue QueueSpec CleanupSpec Samples.

Lemma visit_orphan rm_error rid r w :
  orphan w rid →
  let w1 := match Rounds.getRound rid (Queue.rounds w) with
            | Some round =>
                if decide (Rounds.status round = Rounds.COMPLETED) then w
                else updateRound rid (Rounds.only_status Rounds.ERROR) w
            | None => w
            end in
  Cleanup.visit rm_error rid r w
  = Cleanup.delete_counted rm_error rid
      (Cleanup.orphaned_incr (Cleanup.scanned_incr r)) w1.
Proof.
  intros (manifest & Hm & Hage & Hst). unfold Cleanup.visit. rewrite Hm.
  rewrite bool_decide_eq_false_2 by lia.
  destruct (Rounds.getRound rid (Queue.rounds w)) as [round|]; [|done].
  destruct (decide (Rounds.status round = Rounds.COMPLETED)) as [Hc|Hc]; [done|].
  destruct (decide (_ ∨ _)) as [Hs|Hs]; [done|].
  destruct Hst as [?|?]; done.
Qed.

Lemma visit_orphan_rounds rm_error rid r w :
  orphan w rid →
  (stale w rid →
     round_status rid (Queue.rounds (Cleanup.visit rm_error rid r w).2)
     = Some Rounds.ERROR)
  ∧ (¬ stale w rid →
       Queue.rounds (Cleanup.visit rm_error rid r w).2 = Queue.rounds w).
Proof.
  intros Ho. rewrite (visit_orphan _ _ _ _ Ho). cbv zeta.
  pose proof (delete_counted_frame rm_error rid
                (Cleanup.orphaned_incr (Cleanup.scanned_incr r))) as Hd.
  destruct (Rounds.getRound rid (Queue.rounds w)) as [round|] eqn:Hr.
  - destruct (decide (Rounds.status round = Rounds.COMPLETED)) as [Hc|Hc].
    + specialize (Hd w). destruct (Cleanup.delete_counted _ _ _ w) as [r' w'].
      destruct Hd as (_ & _ & _ & _ & _ & _ & _ & Hrounds & _). simpl.
      split; [|done]. intros (_ & round' & Hr' & Hs). rewrite Hr in Hr'.
      injection Hr' as <-. rewrite Hc in Hs. by destruct Hs.
    + specialize (Hd (updateRound rid (Rounds.only_status Rounds.ERROR) w)).
      destruct (Cleanup.delete_counted _ _ _ _) as [r' w'].
      destruct Hd as (_ & _ & _ & _ & _ & _ & _ & Hrounds & _). simpl.
      rewrite Hrounds. split.
      * intros _. unfold updateRound. simpl.
        rewrite round_status_updateRound, decide_True by done.
        unfold round_status. by rewrite Hr.
      * intros Hns. destruct Hns. split; [done|]. exists round. split; [done|].
        destruct Ho as (m & _ & _ & Hst). rewrite Hr in Hst.
        destruct Hst as [?|?]; done.
  - specialize (Hd w). destruct (Cleanup.delete_counted _ _ _ w) as [r' w'].
    destruct Hd as (_ & _ & _ & _ & _ & _ & _ & Hrounds & _). simpl.
    split; [|done]. intros (_ & round' & Hr' & _). by rewrite Hr in Hr'.
Qed.

Lemma visit_orphan_works rid r w :
  orphan w rid →
  (Cleanup.visit rm_works rid r w).1
  = Cleanup.deleted_incr (Cleanup.orphaned_incr (Cleanup.scanned_incr r))
  ∧ Storage.chunks (disk (Cleanup.visit rm_works rid r w).2) !! rid = None.
Proof.
  intros Ho. rewrite (visit_orphan _ _ _ _ Ho). cbv zeta.
  unfold Cleanup.delete_counted, Cleanup.deleteChunkDirectory, rm_works. simpl.
  split; [done|]. apply lookup_delete_eq.
Qed.

Lemma visit_all_works dirs r w :
  NoDup dirs →
  let r' := (Cleanup.visit_all rm_works dirs r w).1 in
  let w' := (Cleanup.visit_all rm_works dirs r w).2 in
  Cleanup.errors r' = Cleanup.errors r
  ∧ (Cleanup.orphaned r' + Cleanup.deleted r
     = Cleanup.orphaned r + Cleanup.deleted r')%nat
  ∧ (∀ rid, rid ∈ dirs → orphan w rid → Storage.chunks (disk w') !! rid = None)
  ∧ (∀ rid, rid ∈ dirs → stale w rid →
       round_status rid (Queue.rounds w') = Some Rounds.ERROR)
  ∧ (∀ rid, rid ∈ dirs → ¬ stale w rid →
       Rounds.getRound rid (Queue.rounds w') = Rounds.getRound rid (Queue.rounds w)).
Proof.
  revert r w. induction dirs as [|x dirs IH]; intros r w Hnd r' w'.
  { subst r' w'. simpl. split; [done|]. split; [done|].
    repeat split; intros rid Hin; by apply elem_of_nil in Hin. }
  apply NoDup_cons in Hnd as [Hx Hnd]. subst r' w'. cbn [Cleanup.visit_all].
  pose proof (visit_frame rm_works x r w) as Hv.
  pose proof (visit_not_orphan rm_works x r w) as Hnot.
  pose proof (visit_orphan_works x r w) as Hwork.
  pose proof (visit_orphan_rounds rm_works x r w) as Hrounds.
  destruct (Cleanup.visit rm_works x r w) as [r1 w1].
  destruct Hv as (_ & _ & _ & _ & _ & _ & C1 & R1 & _ & _ & _ & K1).
  specialize (IH r1 w1 Hnd). cbv zeta in IH.
  pose proof (visit_all_frame rm_works dirs r1 w1) as Hrest.
  destruct (Cleanup.visit_all rm_works dirs r1 w1) as [r2 w2].
  destruct Hrest as (_ & _ & _ & _ & _ & _ & C2 & R2 & _).
  destruct IH as (E2 & A2 & D2 & S2 & N2). simpl in *.
  assert (Hsame : ∀ y, y ∈ dirs →
            (orphan w1 y ↔ orphan w y) ∧ (stale w1 y ↔ stale w y)).
  { intros y Hy. apply orphan_frame; [| |done].
    - apply C1. intros ->. done.
    - apply R1. intros ->. done. }
  assert (Hhead : Cleanup.errors r1 = Cleanup.errors r
                  ∧ (Cleanup.orphaned r1 + Cleanup.deleted r
                     = Cleanup.orphaned r + Cleanup.deleted r1)%nat).
  { destruct (orphan_or_not w x) as [Ho|Hno].
    - destruct (Hwork Ho) as [-> _]. simpl. split; [done|lia].
    - specialize (Hnot Hno). injection Hnot as -> ->. simpl. split; [done|lia]. }
  destruct Hhead as [E1 A1].
  split; [congruence|]. split; [lia|]. split; [|split].
  - intros rid [->|Hin]%elem_of_cons Ho.
    + rewrite C2 by done. by apply Hwork.
    + destruct (Hsame rid Hin) as [[_ Hback] _]. apply D2; [done|]. by apply Hback.
  - intros rid [->|Hin]%elem_of_cons Hs.
    + unfold round_status. rewrite R2 by done. apply Hrounds; [apply Hs|done].
    + destruct (Hsame rid Hin) as [_ [_ Hback]]. apply S2; [done|]. by apply Hback.
  - intros rid [->|Hin]%elem_of_cons Hns.
    + rewrite R2 by done. destruct (orphan_or_not w x) as [Ho|Hno].
      * destruct (Hrounds Ho) as [_ Hkeep]. by rewrite Hkeep.
      * specialize (Hnot Hno). by injection Hnot as _ ->.
    + destruct (Hsame rid Hin) as [_ [Hforth _]].
      rewrite N2; [by apply R1; intros ->|done|]. intros Hs. apply Hns.
      by apply Hforth.
Qed.


Lemma orphan_listed w rid : orphan w rid → rid ∈ Cleanup.readdir (disk w).
Proof.
  intros (manifest & Hm & _). apply elem_of_readdir.
  unfold FilesTs.getChunkManifest in Hm.
  destruct (Storage.chunks (disk w) !! rid); [by eexists|done].
Qed.

Lemma cleanup_works w :
  let r := (Cleanup.cleanupOrphanedChunks rm_works w).1 in
  let w' := (Cleanup.cleanupOrphanedChunks rm_works w).2 in
  Cleanup.errors r = []
  ∧ Cleanup.deleted r = Cleanup.orphaned r
  ∧ (∀ rid, orphan w rid → Storage.chunks (disk w') !! rid = None)
  ∧ (∀ rid, stale w rid → round_status rid (Queue.rounds w') = Some Rounds.ERROR)
  ∧ (∀ rid, ¬ stale w rid →
       Rounds.getRound rid (Queue.rounds w') = Rounds.getRound rid (Queue.rounds w)).
Proof.
  intros r w'. subst r w'. unfold Cleanup.cleanupOrphanedChunks.
  pose proof (visit_all_works (Cleanup.readdir (disk w)) (Cleanup.mkResult 0 0 0 []) w
                (NoDup_readdir _)) as Hw.
  pose proof (visit_all_frame rm_works (Cleanup.readdir (disk w))
                (Cleanup.mkResult 0 0 0 []) w) as Hf.
  cbv zeta in Hw.
  destruct (Cleanup.visit_all rm_works (Cleanup.readdir (disk w)) _ w) as [r w'].
  destruct Hw as (E & A & D & S & N).
  destruct Hf as (_ & _ & _ & _ & _ & _ & _ & R & _). simpl in *.
  split; [done|]. split; [lia|]. split; [|split].
  - intros rid Ho. apply D; [by apply orphan_listed|done].
  - intros rid Hs. apply S; [|done]. apply orphan_listed, Hs.
  - intros rid Hns. destruct (decide (rid ∈ Cleanup.readdir (disk w))) as [Hin|Hout].
    + by apply N.
    + by apply R.
Qed.

(** X21.  When [fs.rm] works, the cleanup removes exactly the orphaned
    directories and reports no error: a directory is gone if it was
    orphaned and unchanged otherwise; a round that was orphaned while
    streaming or created is set to error, every other round is left as it
    is. *)
Theorem cleanup_removes_exactly_the_orphans (w : World) :
  let r := (Cleanup.cleanupOrphanedChunks rm_works w).1 in
  let w' := (Cleanup.cleanupOrphanedChunks rm_works w).2 in
  Cleanup.errors r = []
  ∧ Cleanup.deleted r = Cleanup.orphaned r
  ∧ (∀ rid, orphan w rid → Storage.chunks (disk w') !! rid = None)
  ∧ (∀ rid, ¬ orphan w rid →
       Storage.chunks (disk w') !! rid = Storage.chunks (disk w) !! rid)
  ∧ (∀ rid, stale w rid → round_status rid (Queue.rounds w') = Some Rounds.ERROR)
  ∧ (∀ rid, ¬ stale w rid →
       Rounds.getRound rid (Queue.rounds w') = Rounds.getRound rid (Queue.rounds w)).
Proof.
  intros r w'. subst r w'.
  destruct (cleanup_works w) as (E & A & D & S & N).
  split; [exact E|]. split; [exact A|]. split; [exact D|].
  split; [|split; [exact S|exact N]].
  intros rid Hno. by apply cleanup_keeps.
Qed.



End CleanupEffects.

Section CleanupExamples.
Import Queue QueueSpec CleanupSpec Samples.



Example abandoned_round_cleaned :
  Cleanup.cleanupOrphanedChunks rm_works abandoned_world
  = (Cleanup.mkResult 1 1 1 [],
     mkWorld 8000000 None (Some (mkQueue [])) [sample_round "R" Rounds.ERROR] empty_disk).
Proof. vm_compute. reflexivity. Qed.

End CleanupExamples.

(* ===================================================================== *)
(** ** Properties of the files and the record of a round                   *)
(* ===================================================================== *)

Section RoundFilesProperties.
Import Storage StoreSpec Samples.

Lemma string_app_inj_l (s t1 t2 : string) : s +:+ t1 = s +:+ t2 → t1 = t2.
Proof. induction s as [|c s IH]; simpl; [done|]. intros [= H]. by apply IH. Qed.

Lemma last_char_app (s t : string) : t ≠ "" → last_char (s +:+ t) = last_char t.
Proof.
  intros Ht. induction s as [|c s IH]; [done|].
  simpl. rewrite IH. destruct (s +:+ t) eqn:Hst; [|done].
  destruct s; simpl in Hst; [done|discriminate Hst].
Qed.

Lemma audio_names_differ (rid rid' e e' : string) :
  e ∈ known_extensions → e' ∈ known_extensions → rid' ≠ rid →
  rid' +:+ "." +:+ e' ≠ rid +:+ "." +:+ e.
Proof.
  intros He He' Hne Heq. unfold known_extensions in *.
  assert (Hlast : last_char ("." +:+ e') = last_char ("." +:+ e)).
  { rewrite <- (last_char_app rid' ("." +:+ e')), <- (last_char_app rid ("." +:+ e))
      by (simpl; discriminate).
    by rewrite Heq. }
  repeat (apply elem_of_cons in He as [->|He]);
    repeat (apply elem_of_cons in He' as [->|He']);
    try (by apply elem_of_nil in He); try (by apply elem_of_nil in He');
    try (simpl in Hlast; discriminate Hlast);
    apply Hne; by apply string_app_inj_r in Heq.
Qed.

Lemma deleteRoundFiles_disk rid d :
  audio (FilesTs.deleteRoundFiles rid d)
  = delete (rid +:+ "." +:+ "ogg")
      (delete (rid +:+ "." +:+ "wav")
         (delete (rid +:+ "." +:+ "mp3")
            (delete (rid +:+ "." +:+ "webm") (audio d))))
  ∧ transcriptions (FilesTs.deleteRoundFiles rid d) = transcriptions d ∖ {[rid]}
  ∧ chunks (FilesTs.deleteRoundFiles rid d) = chunks d
  ∧ write_fails (FilesTs.deleteRoundFiles rid d) = write_fails d.
Proof. done. Qed.

Lemma deleteRoundFiles_known rid d e :
  e ∈ known_extensions →
  audio (FilesTs.deleteRoundFiles rid d) !! (rid +:+ "." +:+ e) = None.
Proof.
  intros He. destruct (deleteRoundFiles_disk rid d) as (-> & _).
  unfold known_extensions in He.
  repeat (apply elem_of_cons in He as [->|He]); [| | | |by apply elem_of_nil in He].
  - do 3 (apply lookup_delete_None; right). apply lookup_delete_eq.
  - do 2 (apply lookup_delete_None; right). apply lookup_delete_eq.
  - do 1 (apply lookup_delete_None; right). apply lookup_delete_eq.
  - apply lookup_delete_eq.
Qed.

Lemma deleteRoundFiles_other rid d filename :
  (∀ e, e ∈ known_extensions → filename ≠ rid +:+ "." +:+ e) →
  audio (FilesTs.deleteRoundFiles rid d) !! filename = audio d !! filename.
Proof.
  intros Hne. destruct (deleteRoundFiles_disk rid d) as (-> & _).
  rewrite !lookup_delete_ne; [done|..]; intros <-;
    (eapply Hne; [|reflexivity]); unfold known_extensions; set_solver.
Qed.

Lemma audioFileExists_None rid d :
  FilesTs.audioFileExists rid d = None
  ↔ ∀ e, e ∈ known_extensions → audio d !! (rid +:+ "." +:+ e) = None.
Proof.
  unfold FilesTs.audioFileExists, known_extensions. simpl. split.
  - intros H e He.
    repeat (apply elem_of_cons in He as [->|He]); [| | | |by apply elem_of_nil in He];
      repeat (destruct (audio d !! _); [done|]); done.
  - intros H.
    rewrite (H "webm"), (H "mp3"), (H "wav"), (H "ogg") by set_solver. done.
Qed.

Lemma audioFileExists_frame rid d d' :
  (∀ e, e ∈ known_extensions →
     is_Some (audio d' !! (rid +:+ "." +:+ e)) ↔ is_Some (audio d !! (rid +:+ "." +:+ e))) →
  FilesTs.audioFileExists rid d' = FilesTs.audioFileExists rid d.
Proof.
  intros H. unfold FilesTs.audioFileExists. simpl.
  assert (Hcase : ∀ e, e ∈ known_extensions →
            match audio d' !! (rid +:+ "." +:+ e), audio d !! (rid +:+ "." +:+ e) with
            | Some _, Some _ | None, None => True
            | _, _ => False
            end).
  { intros e He. specialize (H e He).
    destruct (audio d' !! _) as [?|], (audio d !! _) as [?|]; try done.
    - destruct H as [H _]. by destruct H.
    - destruct H as [_ H]. by destruct H. }
  pose proof (Hcase "webm" ltac:(unfold known_extensions; repeat constructor)) as H1.
  pose proof (Hcase "mp3" ltac:(unfold known_extensions; repeat constructor)) as H2.
  pose proof (Hcase "wav" ltac:(unfold known_extensions; repeat constructor)) as H3.
  pose proof (Hcase "ogg" ltac:(unfold known_extensions; repeat constructor)) as H4.
  destruct (audio d' !! (rid +:+ "." +:+ "webm")), (audio d !! (rid +:+ "." +:+ "webm"));
    try done.
  destruct (audio d' !! (rid +:+ "." +:+ "mp3")), (audio d !! (rid +:+ "." +:+ "mp3"));
    try done.
  destruct (audio d' !! (rid +:+ "." +:+ "wav")), (audio d !! (rid +:+ "." +:+ "wav"));
    try done.
  destruct (audio d' !! (rid +:+ "." +:+ "ogg")), (audio d !! (rid +:+ "." +:+ "ogg"));
    done.
Qed.

Lemma getRound_delete_other rid rid' (rounds : list Rounds.Round) i r :
  rounds !! i = Some r → Rounds.id r = rid → rid' ≠ rid →
  Rounds.getRound rid' (delete i rounds) = Rounds.getRound rid' rounds.
Proof.
  unfold Rounds.getRound. revert i.
  induction rounds as [|r0 rounds IH]; intros i Hi Hid Hne; [done|].
  destruct i as [|i]; simpl in Hi.
  - injection Hi as ->. simpl. rewrite decide_False by (rewrite Hid; congruence).
    by rewrite snd_prod_map.
  - simpl. destruct (decide (Rounds.id r0 = rid')); [done|].
    rewrite !snd_prod_map. by apply IH.
Qed.

Lemma deleteRound_found rid rounds r :
  Rounds.getRound rid rounds = Some r →
  ∃ i, rounds !! i = Some r ∧ Rounds.id r = rid
       ∧ (∀ j x, rounds !! j = Some x → (j < i)%nat → Rounds.id x ≠ rid)
       ∧ Rounds.deleteRound rid rounds = (true, delete i rounds).
Proof.
  unfold Rounds.getRound, Rounds.deleteRound.
  destruct (list_find _ rounds) as [[i x]|] eqn:Hf; [|done].
  simpl. intros [= ->]. apply list_find_Some in Hf as (Hi & Hid & Hfirst).
  exists i. done.
Qed.

(** X24.  [deleteRound] of a round that exists removes one entry of the
    rounds file (the round is no longer found when ids are distinct) and
    leaves neither audio nor transcript of that round; the entries, audio
    and transcripts of every other round are untouched.  The staging
    chunks and the queue are not cleaned. *)
Theorem deleted_round_leaves_no_files (rid : string) (w : Queue.World) (r : Rounds.Round) :
  Rounds.getRound rid (Queue.rounds w) = Some r →
  ∃ w',
    RoundsStore.deleteRound rid w = (true, w')
    ∧ S (length (Queue.rounds w')) = length (Queue.rounds w)
    ∧ (NoDup (Rounds.id <$> Queue.rounds w) →
         Rounds.getRound rid (Queue.rounds w') = None)
    ∧ FilesTs.audioFileExists rid (Queue.disk w') = None
    ∧ FilesTs.transcriptionExists rid (Queue.disk w') = false
    ∧ (∀ rid', rid' ≠ rid →
         Rounds.getRound rid' (Queue.rounds w') = Rounds.getRound rid' (Queue.rounds w)
         ∧ FilesTs.audioFileExists rid' (Queue.disk w')
           = FilesTs.audioFileExists rid' (Queue.disk w)
         ∧ FilesTs.transcriptionExists rid' (Queue.disk w')
           = FilesTs.transcriptionExists rid' (Queue.disk w))
    ∧ chunks (Queue.disk w') = chunks (Queue.disk w)
    ∧ Queue.queueFile w' = Queue.queueFile w.
Proof.
  intros Hr. destruct (deleteRound_found rid _ r Hr) as (i & Hi & Hid & Hfirst & Hdel).
  unfold RoundsStore.deleteRound. rewrite Hdel. eexists. split; [done|]. simpl.
  destruct (deleteRoundFiles_disk rid (Queue.disk w)) as (Ha & Ht & Hc & _).
  split; [|split; [|split; [|split; [|split; [|split]]]]].
  - rewrite length_delete by (by eexists). apply lookup_lt_Some in Hi.
    destruct (length (Queue.rounds w)); simpl; lia.
  - intros Hnd. unfold Rounds.getRound.
    destruct (list_find _ (delete i (Queue.rounds w))) as [[j x]|] eqn:Hf; [|done].
    apply list_find_Some in Hf as (Hj & Hx & _). exfalso.
    rewrite list_lookup_delete in Hj. 
    assert (Hk : ∃ k, k ≠ i ∧ Queue.rounds w !! k = Some x).
    { case_decide; eexists; (split; [|exact Hj]); lia. }
    destruct Hk as (k & Hki & Hk). apply Hki.
    eapply NoDup_lookup; [exact Hnd| |].
    + by rewrite list_lookup_fmap, Hk.
    + rewrite list_lookup_fmap, Hi. simpl. by rewrite Hx, Hid.
  - apply audioFileExists_None. intros e He. by apply deleteRoundFiles_known.
  - unfold FilesTs.transcriptionExists. rewrite Ht.
    apply bool_decide_eq_false_2. rewrite elem_of_difference, elem_of_singleton.
    by intros [_ Hn].
  - intros rid' Hne. split; [by eapply getRound_delete_other|]. split.
    + apply audioFileExists_frame. intros e He.
      rewrite deleteRoundFiles_other; [done|].
      intros e0 He0. by apply audio_names_differ.
    + unfold FilesTs.transcriptionExists. rewrite Ht.
      apply bool_decide_ext. rewrite elem_of_difference, elem_of_singleton.
      split; [by intros [? _]|by intros ?].
  - done.
  - done.
Qed.

Lemma deleted_round_leaves_no_files_witness :
  ∃ w',
    RoundsStore.deleteRound "R" (sample_world "R" assembled) = (true, w')
    ∧ FilesTs.audioFileExists "R" (Queue.disk w') = None.
Proof.
  destruct (deleted_round_leaves_no_files "R" (sample_world "R" assembled)
              (sample_round "R" Rounds.STREAMING))
    as (w' & Hdel & _ & _ & Haudio & _).
  - reflexivity.
  - exists w'. split; [exact Hdel|exact Haudio].
Defined.

(** X25.  A created round is the one found under its id, in front of any
    older round with the same id, and the other rounds are found as
    before; deleting it again gives back the rounds file as it was. *)
Theorem created_round_comes_first (round : Rounds.Round) (w : Queue.World) :
  let w1 := (RoundsStore.createRound round w).2 in
  Rounds.getRound (Rounds.id round) (Queue.rounds w1) = Some round
  ∧ (∀ rid, rid ≠ Rounds.id round →
       Rounds.getRound rid (Queue.rounds w1) = Rounds.getRound rid (Queue.rounds w))
  ∧ (RoundsStore.deleteRound (Rounds.id round) w1).1 = true
  ∧ Queue.rounds (RoundsStore.deleteRound (Rounds.id round) w1).2 = Queue.rounds w.
Proof.
  intros w1. subst w1. unfold RoundsStore.createRound, Rounds.createRound. simpl.
  split; [|split].
  - unfold Rounds.getRound. simpl. by rewrite decide_True.
  - intros rid Hne. unfold Rounds.getRound. simpl.
    rewrite decide_False by done. by rewrite snd_prod_map.
  - unfold RoundsStore.deleteRound, Rounds.deleteRound. simpl.
    by rewrite decide_True.
Qed.

(** X26.  [saveAudioFile] stores the buffer under [<roundId>.<extension>]
    and returns its public path.  [audioFileExists] finds an audio file
    afterwards when the extension is one of the four it knows, and
    exactly this file for [webm]; a file saved under any other extension
    is not found by [audioFileExists] and survives [deleteRoundFiles]. *)
Theorem saved_audio_found_by_extension (rid : string) (buffer : Buffer)
    (extension path : string) (d d' : Disk) :
  FilesTs.saveAudioFile rid buffer extension d = (Ok path, d') →
  path = "/audio/" +:+ rid +:+ "." +:+ extension
  ∧ audio d' !! (rid +:+ "." +:+ extension) = Some buffer
  ∧ (extension = "webm" → FilesTs.audioFileExists rid d' = Some path)
  ∧ (extension ∈ known_extensions → is_Some (FilesTs.audioFileExists rid d'))
  ∧ (extension ∉ known_extensions →
       FilesTs.audioFileExists rid d' = FilesTs.audioFileExists rid d
       ∧ audio (FilesTs.deleteRoundFiles rid d') !! (rid +:+ "." +:+ extension)
         = Some buffer).
Proof.
  unfold FilesTs.saveAudioFile, write_audio.
  destruct (write_fails d _); [done|]. intros [= <- <-].
  split; [done|]. split; [simpl; by rewrite lookup_insert_eq|]. split; [|split].
  - intros ->. unfold FilesTs.audioFileExists. simpl. by rewrite lookup_insert_eq.
  - intros He.
    destruct (FilesTs.audioFileExists rid (set_audio _ d)) as [found|] eqn:Hf;
      [by eexists|].
    rewrite audioFileExists_None in Hf. specialize (Hf extension He). simpl in Hf.
    by rewrite lookup_insert_eq in Hf.
  - intros Hne.
    assert (Hother : ∀ e, e ∈ known_extensions →
              rid +:+ "." +:+ extension ≠ rid +:+ "." +:+ e).
    { intros e He Heq. apply string_app_inj_l in Heq.
      apply (string_app_inj_l ".") in Heq. by subst. }
    split.
    + apply audioFileExists_frame. intros e He. simpl.
      rewrite lookup_insert_ne; [done|]. by apply Hother.
    + rewrite deleteRoundFiles_other by done. simpl. by rewrite lookup_insert_eq.
Qed.

Lemma saved_audio_found_by_extension_witness :
  FilesTs.audioFileExists "R"
    (FilesTs.saveAudioFile "R" (payload Byte.x41) "m4a" empty_disk).2
  = FilesTs.audioFileExists "R" empty_disk
  ∧ audio (FilesTs.deleteRoundFiles "R"
             (FilesTs.saveAudioFile "R" (payload Byte.x41) "m4a" empty_disk).2)
      !! ("R" +:+ "." +:+ "m4a")
    = Some (payload Byte.x41).
Proof.
  apply (saved_audio_found_by_extension "R" (payload Byte.x41) "m4a" "/audio/R.m4a"
           empty_disk).
  - reflexivity.
  - unfold known_extensions. intros Hin.
    repeat (apply elem_of_cons in Hin as [Hin|Hin]; [discriminate Hin|]).
    by apply elem_of_nil in Hin.
Defined.

End RoundFilesProperties.

(* ===================================================================== *)
(** ** Properties of the speaker grouping                                  *)
(* ===================================================================== *)

Section GrouperProperties.
Import Deepgram GrouperSpec.

Variable Time : Type.
Variable zero : Time.
Variable trim : string → string.

Lemma flush_cursor (first : DeepgramWord Time) more cs :
  Grouper.flush Time trim (cursor_of Time zero first (first :: more)) cs
  = cs ++ omap (contribution Time zero trim) [first :: more].
Proof.
  unfold Grouper.flush, cursor_of, contribution. cbn [omap list_omap].
  cbn [fmap list_fmap Grouper.currentWords Grouper.currentSpeaker Grouper.currentStart
       Grouper.currentEnd].
  destruct (String.eqb _ ""); [by rewrite app_nil_r|].
  cbn [length]. by rewrite length_fmap.
Qed.

Lemma List_last_snoc {A} (l : list A) (w d : A) : List.last (l ++ [w]) d = w.
Proof.
  induction l as [|x l IH]; [done|]. simpl. rewrite IH.
  destruct (l ++ [w]) eqn:E; [|done]. by destruct l.
Qed.

Lemma loop_runs (first : DeepgramWord Time) more ws cs :
  let '(cur, cs') :=
    foldl (λ acc w, Grouper.step Time zero trim w acc)
          (cursor_of Time zero first (first :: more), cs) ws in
  Grouper.flush Time trim cur cs'
  = cs ++ omap (contribution Time zero trim) (runs_from Time (first :: more) ws).
Proof.
  revert first more cs. induction ws as [|w ws IH]; intros first more cs.
  - simpl. apply flush_cursor.
  - cbn [foldl runs_from]. unfold Grouper.step at 2.
    cbn [Grouper.currentSpeaker cursor_of head fmap option_fmap option_map].
    destruct (decide (Some (speaker_of Time first) = Some (speaker_of Time w)))
      as [Heq|Hne].
    + rewrite decide_False by (intros Hn; by apply Hn).
      specialize (IH first (more ++ [w]) cs).
      replace (cursor_of Time zero first (first :: more ++ [w]))
        with (Grouper.mkCursor
                (Some (speaker_of Time first))
                (Grouper.currentWords (cursor_of Time zero first (first :: more))
                   ++ [default "" (word w)])
                (Grouper.currentStart (cursor_of Time zero first (first :: more)))
                (Some (default zero (end_ w)))) in IH.
      * exact IH.
      * unfold cursor_of. cbn [Grouper.currentSpeaker Grouper.currentWords
                                Grouper.currentStart].
        rewrite (app_comm_cons more [w] first), List_last_snoc.
        by rewrite fmap_app.
    + rewrite decide_True by done.
      rewrite flush_cursor.
      specialize (IH w [] (cs ++ omap (contribution Time zero trim) [first :: more])).
      replace (Grouper.mkCursor (Some (default 0 (speaker w))) [default "" (word w)]
                 (Some (default zero (start w))) (Some (default zero (end_ w))))
        with (cursor_of Time zero w [w]) by done.
      destruct (foldl _ _ ws) as [cur cs']. rewrite IH.
      rewrite <- app_assoc. f_equal.
      change ((first :: more) :: runs_from Time [w] ws)
        with ([first :: more] ++ runs_from Time [w] ws).
      by rewrite omap_app.
Qed.

Lemma groupWordsBySpeaker_runs (ws : list (DeepgramWord Time)) :
  Grouper.groupWordsBySpeaker Time zero trim ws
  = omap (contribution Time zero trim) (runs Time ws).
Proof.
  destruct ws as [|w ws]; [done|].
  unfold Grouper.groupWordsBySpeaker, runs. cbn [foldl].
  unfold Grouper.step at 2. cbn [Grouper.currentSpeaker].
  rewrite decide_True by done.
  pose proof (loop_runs w [] ws []) as H.
  replace (Grouper.mkCursor (Some (default 0 (speaker w))) [default "" (word w)]
             (Some (default zero (start w))) (Some (default zero (end_ w))))
    with (cursor_of Time zero w [w]) by done.
  change (Grouper.flush Time trim (Grouper.mkCursor None [] None None) []) with
    (@nil (Grouper.GroupedContribution Time)).
  by destruct (foldl _ _ ws) as [cur cs'].
Qed.


Lemma runs_from_concat (current ws : list (DeepgramWord Time)) :
  concat (runs_from Time current ws) = current ++ ws.
Proof.
  revert current. induction ws as [|w ws IH]; intros current; simpl.
  - by rewrite !app_nil_r.
  - case_decide; simpl; rewrite IH; [by rewrite <- app_assoc|done].
Qed.

Lemma runs_from_head (first : DeepgramWord Time) more ws :
  ∃ taken rest,
    runs_from Time (first :: more) ws = (first :: more ++ taken) :: rest.
Proof.
  revert more. induction ws as [|w ws IH]; intros more; simpl.
  - exists [], []. by rewrite app_nil_r.
  - case_decide.
    + destruct (IH (more ++ [w])) as (taken & rest & ->).
      exists (w :: taken), rest. by rewrite <- app_assoc.
    + exists [], (runs_from Time [w] ws). by rewrite app_nil_r.
Qed.

Lemma runs_from_uniform (first : DeepgramWord Time) more ws :
  Forall (λ w, speaker_of Time w = speaker_of Time first) more →
  Forall (λ run, ∃ a rest, run = a :: rest
                  ∧ Forall (λ w, speaker_of Time w = speaker_of Time a) rest)
         (runs_from Time (first :: more) ws)
  ∧ ∀ i r1 r2 a b,
      runs_from Time (first :: more) ws !! i = Some r1 →
      runs_from Time (first :: more) ws !! S i = Some r2 →
      a ∈ r1 → head r2 = Some b → speaker_of Time a ≠ speaker_of Time b.
Proof.
  revert first more. induction ws as [|w ws IH]; intros first more Hall; simpl.
  - split; [|by intros [|i]].
    apply Forall_singleton. by exists first, more.
  - case_decide as Hsame.
    + apply (IH first (more ++ [w])). apply Forall_app. split; [done|].
      apply Forall_singleton. by injection Hsame.
    + destruct (IH w []) as [Huni Hadj]; [done|]. split.
      * apply Forall_cons. split; [by exists first, more|done].
      * intros [|i] r1 r2 a b H1 H2 Ha Hb.
        -- simpl in H1, H2. injection H1 as <-.
           destruct (runs_from_head w [] ws) as (taken & rest & Heq).
           rewrite Heq in H2. simpl in H2. injection H2 as <-. simpl in Hb.
           injection Hb as <-. intros Hab. apply Hsame. simpl. f_equal.
           apply elem_of_cons in Ha as [->|Ha]; [done|].
           rewrite Forall_forall in Hall. by rewrite <- (Hall a Ha).
        -- simpl in H1, H2. exact (Hadj i r1 r2 a b H1 H2 Ha Hb).
Qed.

Lemma runs_from_one_speaker (first : DeepgramWord Time) more ws :
  Forall (λ w, speaker_of Time w = speaker_of Time first) ws →
  runs_from Time (first :: more) ws = [first :: more ++ ws].
Proof.
  revert more. induction ws as [|w ws IH]; intros more Hall; simpl.
  - by rewrite app_nil_r.
  - apply Forall_cons in Hall as [Hw Hall]. rewrite decide_True by (by rewrite Hw).
    rewrite IH by done. by rewrite <- app_assoc.
Qed.

(** X27.  The loop of [groupWordsBySpeaker] computes the contributions of
    the maximal runs of words by one speaker, dropping the runs whose
    joined text is blank.  The runs partition the words in order, each is
    non-empty with one speaker throughout, and neighbouring runs have
    different speakers. *)
Theorem grouper_follows_speaker_runs (ws : list (DeepgramWord Time)) :
  Grouper.groupWordsBySpeaker Time zero trim ws
  = omap (contribution Time zero trim) (runs Time ws)
  ∧ concat (runs Time ws) = ws
  ∧ Forall (λ run, ∃ a rest, run = a :: rest
                    ∧ Forall (λ w, speaker_of Time w = speaker_of Time a) rest)
           (runs Time ws)
  ∧ ∀ i r1 r2 a b,
      runs Time ws !! i = Some r1 → runs Time ws !! S i = Some r2 →
      a ∈ r1 → head r2 = Some b → speaker_of Time a ≠ speaker_of Time b.
Proof.
  split; [apply groupWordsBySpeaker_runs|].
  destruct ws as [|w ws]; [by repeat split|]. unfold runs.
  split; [by rewrite runs_from_concat|].
  by apply runs_from_uniform.
Qed.

Lemma omap_contribution_bound (rs : list (list (DeepgramWord Time))) :
  (sum_list (Grouper.words <$> omap (contribution Time zero trim) rs)
   ≤ length (concat rs))%nat
  ∧ Forall (λ c, (1 ≤ Grouper.words c)%nat ∧ Grouper.text c ≠ "")
           (omap (contribution Time zero trim) rs).
Proof.
  induction rs as [|run rs [IH1 IH2]]; [by split|].
  cbn [omap list_omap concat]. rewrite length_app.
  destruct (contribution Time zero trim run) as [c|] eqn:Hc.
  - unfold contribution in Hc. destruct run as [|first more]; [done|].
    destruct (String.eqb _ "") eqn:Hblank; [done|]. injection Hc as <-.
    cbn [fmap list_fmap sum_list sum_list_with Grouper.words]. split; [simpl; lia|].
    apply Forall_cons. split; [|done]. cbn [Grouper.words Grouper.text].
    split; [simpl; lia|]. by apply String.eqb_neq.
  - split; [lia|done].
Qed.

(** X28.  The word counts of the contributions add up to at most the
    number of words, and every contribution counts at least one word and
    has a text that is not empty. *)
Theorem grouped_words_bounded (ws : list (DeepgramWord Time)) :
  (sum_list (Grouper.words <$> Grouper.groupWordsBySpeaker Time zero trim ws)
   ≤ length ws)%nat
  ∧ Forall (λ c, (1 ≤ Grouper.words c)%nat ∧ Grouper.text c ≠ "")
           (Grouper.groupWordsBySpeaker Time zero trim ws).
Proof.
  rewrite groupWordsBySpeaker_runs.
  destruct (omap_contribution_bound (runs Time ws)) as [Hsum Hall].
  split; [|done].
  replace (length ws) with (length (concat (runs Time ws))); [done|].
  destruct ws as [|w ws]; [done|]. unfold runs. by rewrite runs_from_concat.
Qed.

(** X29.  Words that all carry the same speaker, as those of the VOSK
    engine do, give at most one contribution: it runs from the start of
    the first word to the end of the last and counts all the words, and
    it is dropped when the joined text is blank. *)
Theorem one_speaker_one_contribution (first : DeepgramWord Time)
    (more : list (DeepgramWord Time)) :
  Forall (λ w, speaker_of Time w = speaker_of Time first) more →
  Grouper.groupWordsBySpeaker Time zero trim (first :: more)
  = (let spoken := trim (String.concat " " ((λ w, default "" (word w))
                                              <$> first :: more)) in
     if String.eqb spoken "" then []
     else [Grouper.mkContribution (speaker_of Time first) spoken
             (default zero (start first))
             (default zero (end_ (List.last more first)))
             (S (length more))]).
Proof.
  intros Hall. rewrite groupWordsBySpeaker_runs. unfold runs.
  rewrite runs_from_one_speaker by done. cbn [app omap list_omap].
  unfold contribution. cbv zeta. destruct (String.eqb _ ""); [done|].
  simpl. by destruct more.
Qed.

End GrouperProperties.

Section GrouperExamples.
Import Deepgram GrouperSpec.

Lemma one_speaker_one_contribution_witness :
  Grouper.groupWordsBySpeaker Z 0 Handler.trimStart
    [mkWord (Some "good") (Some 0) (Some 4) (Some 1);
     mkWord (Some "morning") (Some 5) (Some 9) (Some 1)]
  = [Grouper.mkContribution 1 "good morning" 0 9 2].
Proof.
  apply (one_speaker_one_contribution Z 0 Handler.trimStart
           (mkWord (Some "good") (Some 0) (Some 4) (Some 1))
           [mkWord (Some "morning") (Some 5) (Some 9) (Some 1)]).
  apply Forall_singleton. reflexivity.
Defined.

Example blank_turn_is_dropped :
  Grouper.groupWordsBySpeaker Z 0 Handler.trimStart
    [mkWord (Some "yes") (Some 0) (Some 1) (Some 0);
     mkWord (Some " ") (Some 1) (Some 2) (Some 1);
     mkWord (Some "indeed") (Some 2) (Some 3) None]
  = [Grouper.mkContribution 0 "yes" 0 1 1; Grouper.mkContribution 0 "indeed" 2 3 1].
Proof. reflexivity. Qed.

End GrouperExamples.
